(** * FastClient: rate-limited dispatch over request pools

  A shallow embedding of [fastclient/__init__.py].  The Python class
  [FastClient] owns a queue of staged requests, a registry of callbacks, an
  optional shared store and three kinds of worker processes: the ticket
  manager ([_create_tickets]), the controllers ([_controller]) and the
  request-rate counter ([_count_rps]).

  Conventions of the embedding:
  - Python [int] is [Z]; Python [float] timestamps and rates are exact
    rationals [Q] (only their order and differences are used);
  - a function that can raise returns a sum or an option, the exception
    being the left / [None] case;
  - [time()] is an oracle: every loop that reads the clock takes the list
    of readings it obtains, one per iteration;
  - a worker process is a transition function on explicit state, and the
    processes of one run are interleaved by a schedule of atomic actions. *)

From Stdlib Require Import ZArith QArith Lia Lqa List Permutation Bool.
From stdpp Require Import base option list gmap strings.

Local Open Scope Z_scope.

(** ** Python built-ins used by the source *)

Module Py.

(** [a < b] on floats. *)
Definition Qltb (x y : Q) : bool := negb (Qle_bool y x).

(** [min(xs, key=key)]: the key is evaluated once per element, the running
    best is replaced only by an element whose key is strictly smaller, and
    an empty argument raises [ValueError] ([None] here). *)
Fixpoint min_from {A : Type} (key : A -> Z) (best : A) (kbest : Z)
         (xs : list A) : A :=
  match xs with
  | [] => best
  | x :: rest =>
      let kx := key x in
      if kx <? kbest then min_from key x kx rest
      else min_from key best kbest rest
  end.

Definition min {A : Type} (xs : list A) (key : A -> Z) : option A :=
  match xs with
  | [] => None
  | x :: rest => Some (min_from key x (key x) rest)
  end.

(** The same search, returning the position of the chosen element. *)
Fixpoint argmin_from (ks : list Z) (ibest : nat) (kbest : Z) (i : nat) : nat :=
  match ks with
  | [] => ibest
  | k :: rest =>
      if k <? kbest then argmin_from rest i k (S i)
      else argmin_from rest ibest kbest (S i)
  end.

Definition argmin (ks : list Z) : option nat :=
  match ks with
  | [] => None
  | k :: rest => Some (argmin_from rest 0%nat k 1%nat)
  end.

(** A class object: its name and the names of its proper ancestors (the
    tail of its method resolution order). *)
Record class := { cls_name : string; cls_ancestors : list string }.

#[global] Instance class_eq_dec : EqDecision class.
Proof. solve_decision. Defined.

(** [c1 == c2] on class objects is identity. *)
Definition class_eqb (c1 c2 : class) : bool := bool_decide (c1 = c2).

(** [issubclass(c, d)]. *)
Definition issubclass (c d : class) : bool :=
  class_eqb c d || bool_decide (cls_name d ∈ cls_ancestors c).

(** An object as far as the client looks at it: its runtime class
    ([type(o)]) and an opaque payload. *)
Record object := { ob_type : class; ob_payload : string }.

#[global] Instance object_eq_dec : EqDecision object.
Proof. solve_decision. Defined.

End Py.

(** ** [fastclient.types] and [fastclient.errors] *)

Module Types.

(** Modelled from the spec: [fastclient/types.py] is not part of the
    sources at hand.  [RequestEvent] is the enumeration of event kinds;
    the client names its members [RESPONSE] and [ERROR]. *)
Inductive RequestEvent := RESPONSE | ERROR.

#[global] Instance RequestEvent_eq_dec : EqDecision RequestEvent.
Proof. solve_decision. Defined.

(** Modelled from the spec: a [Request] is an opaque unit of work. *)
Record Request := { req_payload : string }.

#[global] Instance Request_eq_dec : EqDecision Request.
Proof. solve_decision. Defined.

(** Modelled from the spec: the class [Response] of successful outcomes. *)
Definition Response : Py.class :=
  {| Py.cls_name := "Response"; Py.cls_ancestors := ["object"] |}.

(** The exceptions the client raises itself ([fastclient.errors]), the
    [KeyError] of a dictionary lookup, and what Python raises when a method
    is called on, or an item is read from, [None]. *)
Inductive exn :=
| StoreNotSupportedError
| NoListenersError (msg : string)
| KeyError (key : string)
| AttributeError
| TypeError.

End Types.

(** ** [FastClient._count_rps]: the request-rate counter *)

Module Telemetry.
Import Py.

(** The local variables of [_count_rps] and the three shared values it
    publishes. *)
Record state := {
  count : Z;
  start : Q;
  list9 : list Q;
  list1 : list Q;
  rps : Q;
  rps10 : Z;
  rps1 : Z
}.

(** After [start = time()]: nothing counted, the shared values as they
    were created by [run]. *)
Definition init (start_ : Q) : state :=
  {| count := 0; start := start_; list9 := []; list1 := [];
     rps := 0%Q; rps10 := 0; rps1 := 0 |}.

(** [while len(list1) > 0 and list1[0] < time_-1:
        list9.append(list1.pop(0))] *)
Fixpoint move_lists1 (time_ : Q) (l1 l9 : list Q) : list Q * list Q :=
  match l1 with
  | [] => ([], l9)
  | x :: rest =>
      if Qltb x (time_ - 1)%Q then move_lists1 time_ rest (l9 ++ [x])
      else (l1, l9)
  end.

(** [while len(list9) > 0 and list9[0] < time_-1: list9.pop(0)] *)
Fixpoint move_lists9 (time_ : Q) (l9 : list Q) : list Q :=
  match l9 with
  | [] => []
  | x :: rest =>
      if Qltb x (time_ - 1)%Q then move_lists9 time_ rest else l9
  end.

(** One iteration of the loop, after [rps_recv.recv()] has returned and
    [time()] has read [time_].  The division [count/(time_-start)] raises
    [ZeroDivisionError] when the clock still reads [start]; the process
    then dies ([None]). *)
Definition step (time_ : Q) (s : state) : option state :=
  let count' := count s + 1 in
  let l1 := list1 s ++ [time_] in
  let '(l1', l9) := move_lists1 time_ l1 (list9 s) in
  let l9' := move_lists9 time_ l9 in
  if Qeq_bool (time_ - start s) 0 then None
  else Some {| count := count'; start := start s;
               list9 := l9'; list1 := l1';
               rps := (inject_Z count' / (time_ - start s))%Q;
               rps10 := Z.of_nat (length l1') + Z.of_nat (length l9');
               rps1 := Z.of_nat (length l1') |}.

(** The loop over the notifications received so far; [times] are the
    clock readings taken after each [recv]. *)
Fixpoint steps (times : list Q) (s : state) : option state :=
  match times with
  | [] => Some s
  | t :: rest =>
      match step t s with
      | Some s' => steps rest s'
      | None => None
      end
  end.

Definition _count_rps (start_ : Q) (times : list Q) : option state :=
  steps times (init start_).

End Telemetry.

(** ** [FastClient._create_tickets]: the ticket manager *)

Module TicketGen.
Import Py.

(** The sending end of a pipe, as the sequence of tickets sent through it.
    A ticket is [None]; each is tagged here with the clock reading of the
    pass that sent it. *)
Definition connection := list Q.

Record state := {
  last_tickets : Q;
  connections : list connection
}.

Definition init (n : nat) : state :=
  {| last_tickets := 0%Q; connections := replicate n [] |}.

(** [for connection in connections: connection.send(None)] *)
Definition send_all (time_ : Q) (cs : list connection) : list connection :=
  map (fun c => c ++ [time_]) cs.

(** One pass of the [while True] loop, [time()] reading [time_].  The
    quotient [1 / rate] raises [ZeroDivisionError] for a zero rate. *)
Definition pass (rate : Q) (time_ : Q) (s : state) : option state :=
  if Qeq_bool rate 0 then None
  else if Qltb (1 / rate)%Q (time_ - last_tickets s)%Q
       then Some {| last_tickets := time_;
                    connections := send_all time_ (connections s) |}
       else Some s.

Fixpoint passes (rate : Q) (times : list Q) (s : state) : option state :=
  match times with
  | [] => Some s
  | t :: rest =>
      match pass rate t s with
      | Some s' => passes rate rest s'
      | None => None
      end
  end.

(** The manager run for as many passes as [times] has readings, over
    [n] connections. *)
Definition _create_tickets (rate : Q) (n : nat) (times : list Q)
  : option state :=
  passes rate times (init n).

(** Tickets sent over all connections together. *)
Definition total_tickets (s : state) : nat :=
  list_sum (map (@length Q) (connections s)).

End TicketGen.

(** ** [fastclient.pools]: the request pools *)

Module Pools.
Import Py Types.

(** Modelled from the spec: [fastclient/pools.py] is not part of the sources
    at hand.  A [RequestPool] has an optional group id [id_]; pools with the
    same id are driven by one controller. *)
Record RequestPool := { id_ : option Z; pool_name : string }.

(** Modelled from the spec: a pool once set up by its controller.  It
    executes the requests submitted to it asynchronously, reports how many
    of them are still outstanding, and yields one outcome per submitted
    request on its completion feed, in completion order.  [inflight] are the
    requests submitted and not finished; [feed] holds the outcomes finished
    and not yet received by the controller, each paired with the request it
    answers (the pairing is for the proofs; the controller receives the
    outcome only). *)
Record pool := {
  decl : RequestPool;
  inflight : list Request;
  feed : list (Request * object)
}.

(** [pool._setup(num_pools, max_connections)]: the pool starts idle and
    hands its completion feed to the controller. *)
Definition _setup (num_pools : Z) (max_connections : Q) (p : RequestPool)
  : pool :=
  {| decl := p; inflight := []; feed := [] |}.

(** [pool._get_remaining_tasks()] *)
Definition _get_remaining_tasks (p : pool) : Z :=
  Z.of_nat (length (inflight p)).

(** [pool._request(request)]: the request joins the outstanding ones.  The
    controller submits without asking the pool for room and handles no
    refusal; a submission is taken as accepted, the pool governing by itself
    how many connections it keeps open (the client documents
    [max_connections] as a limit to the request speed). *)
Definition _request (r : Request) (p : pool) : pool :=
  {| decl := decl p; inflight := inflight p ++ [r]; feed := feed p |}.

(** The pool finishes its [i]-th outstanding request with outcome [o]. *)
Definition finish (i : nat) (o : object) (p : pool) : pool :=
  match inflight p !! i with
  | Some r => {| decl := decl p;
                 inflight := delete i (inflight p);
                 feed := feed p ++ [(r, o)] |}
  | None => p
  end.

(** [connection.recv()] on a ready completion feed. *)
Definition recv (p : pool) : option (Request * object * pool) :=
  match feed p with
  | [] => None
  | (r, o) :: rest =>
      Some (r, o, {| decl := decl p; inflight := inflight p; feed := rest |})
  end.

End Pools.

(** ** Callbacks, contexts and the shared store *)

Module Callbacks.
Import Py Types.

(** The managed dictionary [Manager().dict()]; values are opaque. *)
Abbreviation store := (gmap string Z).

(** What a callback does to the store it finds in its context. *)
Inductive store_op :=
| Get (key : string)
| Set_ (key : string) (value : Z).

(** The [context] dictionary handed to a callback.  Its ['retry'] and
    ['exit'] entries are the constant [typing.Callable] and carry nothing;
    ['rps'], ['rps10'] and ['rps1'] are present when the counter is in use;
    ['store'] is the shared dictionary itself, so a callback sees what the
    callbacks before it wrote. *)
Record context := {
  ctx_rps : option (Q * Z * Z);
  ctx_store : option store
}.

(** A registered callable: a name telling it apart and its behaviour, the
    store operations it performs when called with an outcome and a
    context. *)
Record callback := {
  cb_name : string;
  cb_body : object -> context -> list store_op
}.

(** What a process does to the shared store, its lock and the counter's
    pipe, in program order. *)
Inductive event :=
| Acquire
| Release
| Read (key : string)
| Write (key : string) (value : Z)
| RpsSend
| Call (kind : RequestEvent) (name : string) (result : object).

Definition op_event (o : store_op) : event :=
  match o with
  | Get k => Read k
  | Set_ k v => Write k v
  end.

Definition apply_op (o : store_op) (m : store) : store :=
  match o with
  | Get _ => m
  | Set_ k v => <[k := v]> m
  end.

Definition apply_ops (os : list store_op) (m : store) : store :=
  fold_left (fun m o => apply_op o m) os m.

(** [defaultdict(list)] keyed by event kind: a missing key reads as the
    empty list. *)
Definition registry := RequestEvent -> list callback.

Definition empty_registry : registry := fun _ => [].

(** [callbacks[event].append(callback)] *)
Definition append (event : RequestEvent) (cb : callback) (r : registry)
  : registry :=
  fun e => if bool_decide (e = event) then r e ++ [cb] else r e.

(** Whether a trace respects the store lock: the store is read or written
    only while the lock is held, the lock is taken only when free and
    released only when held.  [held] is the state of the lock before the
    trace. *)
Fixpoint guarded (held : bool) (tr : list event) : bool :=
  match tr with
  | [] => true
  | Acquire :: rest => negb held && guarded true rest
  | Release :: rest => held && guarded false rest
  | Read _ :: rest => held && guarded held rest
  | Write _ _ :: rest => held && guarded held rest
  | _ :: rest => guarded held rest
  end.

(** Whether a trace touches the store at all. *)
Definition touches_store (tr : list event) : bool :=
  existsb (fun e => match e with
                    | Acquire | Release | Read _ | Write _ _ => true
                    | _ => false
                    end) tr.

End Callbacks.

(** ** The class [FastClient] *)

Module Client.
Import Py Types Pools Callbacks.

(** The attributes of a client.  [_requests] is the content of the
    [JoinableQueue], oldest first.  [_ctx_manager] and [_store_lock] tell
    whether a [Manager] was started and a lock allocated; [_store] is the
    content of the managed dictionary.  All three are [None] exactly where
    the source leaves them [None]. *)
Record FastClient := {
  _rate : Q;
  _pools : list RequestPool;
  _requests : list Request;
  _num_pools : Z;
  _max_connections : Q;
  _use_store : bool;
  _use_rps : bool;
  _ctx_manager : option unit;
  _store : option store;
  _store_lock : option unit;
  _callbacks : registry;
  _callback_registered : bool
}.

(** [max_connections or self._rate] *)
Definition or_rate (max_connections : option Z) (rate : Q) : Q :=
  match max_connections with
  | Some n => if n =? 0 then rate else inject_Z n
  | None => rate
  end.

(** [FastClient.__init__] with its defaults spelled out by the caller. *)
Definition __init__ (rate : Q) (pools : list RequestPool) (num_pools : Z)
           (max_connections : option Z) (use_store use_rps : bool)
  : FastClient :=
  {| _rate := rate;
     _pools := pools;
     _requests := [];
     _num_pools := num_pools;
     _max_connections := or_rate max_connections rate;
     _use_store := use_store;
     _use_rps := use_rps;
     _ctx_manager := if use_store || use_rps then Some tt else None;
     _store := if use_store then Some ∅ else None;
     _store_lock := if use_store then Some tt else None;
     _callbacks := empty_registry;
     _callback_registered := false |}.

Definition with_store (m : option store) (c : FastClient) : FastClient :=
  {| _rate := _rate c; _pools := _pools c; _requests := _requests c;
     _num_pools := _num_pools c; _max_connections := _max_connections c;
     _use_store := _use_store c; _use_rps := _use_rps c;
     _ctx_manager := _ctx_manager c;
     _store := m;
     _store_lock := _store_lock c;
     _callbacks := _callbacks c;
     _callback_registered := _callback_registered c |}.

(** [FastClient.__setitem__]: the exception, or the client afterwards with
    the trace of what the call did to the lock and the store. *)
Definition __setitem__ (key : string) (value : Z) (c : FastClient)
  : exn + (FastClient * list event) :=
  if negb (_use_store c) then inl StoreNotSupportedError
  else
    match _store_lock c with
    | None => inl AttributeError
    | Some _ =>
        match _store c with
        | None => inl TypeError
        | Some m =>
            inr (with_store (Some (<[key := value]> m)) c,
                 [Acquire; Write key value; Release])
        end
    end.

(** [FastClient.__getitem__]: the exception, or the value read with the
    trace of the call. *)
Definition __getitem__ (key : string) (c : FastClient)
  : exn + (Z * list event) :=
  if negb (_use_store c) then inl StoreNotSupportedError
  else
    match _store c with
    | Some m =>
        match m !! key with
        | Some v => inr (v, [Read key])
        | None => inl (KeyError key)
        end
    | None => inl TypeError
    end.

(** [FastClient.on] *)
Definition on (event : RequestEvent) (cb : callback) (c : FastClient)
  : FastClient :=
  {| _rate := _rate c; _pools := _pools c; _requests := _requests c;
     _num_pools := _num_pools c; _max_connections := _max_connections c;
     _use_store := _use_store c; _use_rps := _use_rps c;
     _ctx_manager := _ctx_manager c;
     _store := _store c;
     _store_lock := _store_lock c;
     _callbacks := append event cb (_callbacks c);
     _callback_registered := true |}.

(** [FastClient.request]: [self._requests.put(request)] *)
Definition request (r : Request) (c : FastClient) : FastClient :=
  {| _rate := _rate c; _pools := _pools c;
     _requests := _requests c ++ [r];
     _num_pools := _num_pools c; _max_connections := _max_connections c;
     _use_store := _use_store c; _use_rps := _use_rps c;
     _ctx_manager := _ctx_manager c;
     _store := _store c;
     _store_lock := _store_lock c;
     _callbacks := _callbacks c;
     _callback_registered := _callback_registered c |}.

(** [poolgroups[pool.id_].append(pool)] on a [defaultdict(list)], which
    keeps its keys in order of first insertion. *)
Fixpoint group_append (k : Z) (p : RequestPool)
         (gs : list (Z * list RequestPool)) : list (Z * list RequestPool) :=
  match gs with
  | [] => [(k, [p])]
  | (k', ps) :: rest =>
      if k =? k' then (k', ps ++ [p]) :: rest
      else (k', ps) :: group_append k p rest
  end.

(** The first loop of [run]: the pools without an id, and the groups. *)
Definition partition (ps : list RequestPool)
  : list RequestPool * list (Z * list RequestPool) :=
  fold_left
    (fun acc p =>
       match id_ p with
       | None => (fst acc ++ [p], snd acc)
       | Some k => (fst acc, group_append k p (snd acc))
       end)
    ps ([], []).

(** The processes [run] starts, in the order it starts them.  A controller
    is given its pools and the receiving end of a ticket pipe, named by its
    position in [ticket_recvs]; [ticket_recvs.pop()] hands the pipes out
    from the last one down. *)
Inductive process :=
| RpsCounter
| Controller (pools : list RequestPool) (ticket_pipe : nat)
| TicketManager (rate : Q) (pipes : nat).

Definition solo_controllers (n : nat) (ps : list RequestPool) : list process :=
  imap (fun i p => Controller [p] (n - 1 - i)) ps.

Definition group_controllers (n : nat) (gs : list (Z * list RequestPool))
  : list process :=
  imap (fun j g => Controller (snd g) (n - 1 - j)) gs.

(** [FastClient.run] up to the point where it blocks on the queue: the
    processes started so far and either the exception raised or nothing. *)
Definition run (c : FastClient) : list process * (exn + unit) :=
  if negb (_callback_registered c) then
    ([], inl (NoListenersError
                "No callback registered. Use FastClient.on to register a callback."))
  else
    let '(pools, poolgroups) := partition (_pools c) in
    let n := (length pools + length poolgroups)%nat in
    ((if _use_rps c then [RpsCounter] else [])
       ++ solo_controllers n pools
       ++ group_controllers (n - length pools) poolgroups
       ++ [TicketManager (_rate c) n],
     inr tt).

End Client.

(** ** [FastClient._controller] and the processes of one run *)

Module Engine.
Import Py Types Pools Callbacks.

(** The arguments of [_controller] that stay fixed during a run. *)
Record config := {
  callbacks : registry;
  use_store : bool;
  use_rps : bool
}.

(** Where a controller stands in its loop: before the exit test, before the
    ticket poll, before the poll of the completion feeds; or after [break];
    or dead from an exception that is not [Empty]. *)
Inductive location := AtCheck | AtTicket | AtReap | Exited | Crashed.

#[global] Instance location_eq_dec : EqDecision location.
Proof. solve_decision. Defined.

(** The local state of a controller: its pools with their connections, its
    [counter], and the tickets waiting in its pipe. *)
Record controller := Ctl {
  pools : list pool;
  counter : Z;
  tickets : nat;
  at_ : location
}.

(** What a controller did with one outcome it received: the request the
    outcome answers, the kind of callbacks it ran and the trace of the
    delivery. *)
Record batch := Batch {
  b_controller : nat;
  b_pool : nat;
  b_request : Request;
  b_result : object;
  b_kind : RequestEvent;
  b_trace : list event
}.

(** Everything the processes of a run share, and the controllers.
    [unfinished_tasks] is the counter of the [JoinableQueue] that [join]
    waits on; [ticket_manager] tells whether that process is alive;
    [rps_pipe] counts the notifications sent and not yet received by the
    counter, [rps_counter] is the counter's local state while it lives and
    [rps_values] the three shared values. *)
Record world := World {
  requests : list Request;
  unfinished_tasks : Z;
  controllers : list controller;
  ticket_manager : bool;
  store : option Callbacks.store;
  rps_pipe : nat;
  rps_counter : option Telemetry.state;
  rps_values : option (Q * Z * Z);
  log : list batch
}.

(** [type(result) == Response] chooses the callbacks. *)
Definition kind_of (result : object) : RequestEvent :=
  if class_eqb (ob_type result) Response then RESPONSE else ERROR.

(** [for callback in callbacks[kind]: callback(result, context)].  The
    context holds the shared dictionary, not a copy: each callback finds
    what the ones before it wrote. *)
Fixpoint call_all (kind : RequestEvent) (cbs : list callback)
         (result : object) (rpsv : option (Q * Z * Z))
         (m : option Callbacks.store)
  : list event * option Callbacks.store :=
  match cbs with
  | [] => ([], m)
  | cb :: rest =>
      let ctx := {| ctx_rps := rpsv; ctx_store := m |} in
      let ops := match m with
                 | Some _ => cb_body cb result ctx
                 | None => []
                 end in
      let m' := option_map (apply_ops ops) m in
      let '(tr, m'') := call_all kind rest result rpsv m' in
      (Call kind (cb_name cb) result :: map op_event ops ++ tr, m'')
  end.

(** The body of the [for connection in ...] loop after [connection.recv()]
    returned [result]: notify the counter, build the context, take the
    lock, run the callbacks of the outcome's kind, release the lock. *)
Definition deliver (cfg : config) (result : object)
           (rpsv : option (Q * Z * Z)) (m : option Callbacks.store)
  : RequestEvent * list event * option Callbacks.store :=
  let kind := kind_of result in
  let '(tr, m') :=
    call_all kind (callbacks cfg kind) result
             (if use_rps cfg then rpsv else None)
             (if use_store cfg then m else None) in
  (kind,
   (if use_rps cfg then [RpsSend] else [])
     ++ (if use_store cfg then [Acquire] else [])
     ++ tr
     ++ (if use_store cfg then [Release] else []),
   if use_store cfg then m' else m).

(** [for connection in wait_for_connection(connections, timeout=0)]: every
    pool whose feed has an outcome ready gives up one.  [wait] does not say
    in which order it lists the ready connections; the order of the pools
    is taken here. *)
Fixpoint reap (cfg : config) (k i : nat) (rpsv : option (Q * Z * Z))
         (ps : list pool) (m : option Callbacks.store)
  : list pool * list batch * option Callbacks.store :=
  match ps with
  | [] => ([], [], m)
  | p :: rest =>
      match recv p with
      | None =>
          let '(ps', bs, m') := reap cfg k (S i) rpsv rest m in
          (p :: ps', bs, m')
      | Some (r, o, p') =>
          let '(kind, tr, m1) := deliver cfg o rpsv m in
          let '(ps', bs, m') := reap cfg k (S i) rpsv rest m1 in
          (p' :: ps', Batch k i r o kind tr :: bs, m')
      end
  end.

Definition set_controller (k : nat) (c : controller) (w : world) : world :=
  World (requests w) (unfinished_tasks w) (<[k := c]> (controllers w))
        (ticket_manager w) (store w) (rps_pipe w) (rps_counter w)
        (rps_values w) (log w).

(** [FastClient._controller], one atomic piece of its [while True] loop at
    a time: the exit test, the ticket poll with the admission it may lead
    to, or the poll of the completion feeds with the deliveries.  [k] is the
    position of the controller among those of the run, [c] its local state;
    the setting up of the connections is part of [boot]. *)
Definition _controller (cfg : config) (k : nat) (c : controller)
           (w : world) : world :=
  match at_ c with
  | AtCheck =>
      (* if counter == 0 and requests.empty(): break *)
      if (counter c =? 0) && bool_decide (requests w = []) then
        set_controller k (Ctl (pools c) (counter c) (tickets c) Exited) w
      else
        set_controller k (Ctl (pools c) (counter c) (tickets c) AtTicket) w
  | AtTicket =>
      match tickets c with
      | O =>
          (* tickets.poll() is false *)
          set_controller k (Ctl (pools c) (counter c) O AtReap) w
      | S t =>
          (* tickets.recv(), then the least busy pool *)
          match argmin (map _get_remaining_tasks (pools c)) with
          | None =>
              (* min of an empty tuple: ValueError *)
              set_controller k (Ctl (pools c) (counter c) t Crashed) w
          | Some i =>
              match requests w with
              | [] =>
                  (* requests.get(block=False) raises Empty: the rest of
                     the iteration is skipped *)
                  set_controller k (Ctl (pools c) (counter c) t AtCheck) w
              | r :: q =>
                  (* pool._request(...); counter += 1; requests.task_done() *)
                  World q (unfinished_tasks w - 1)
                        (<[k := Ctl (alter (_request r) i (pools c))
                                    (counter c + 1) t AtReap]> (controllers w))
                        (ticket_manager w) (store w) (rps_pipe w)
                        (rps_counter w) (rps_values w) (log w)
              end
          end
      end
  | AtReap =>
      let '(ps', bs, m') := reap cfg k 0 (rps_values w) (pools c) (store w) in
      World (requests w) (unfinished_tasks w)
            (<[k := Ctl ps' (counter c - Z.of_nat (length bs)) (tickets c)
                        AtCheck]> (controllers w))
            (ticket_manager w) m'
            (if use_rps cfg then (rps_pipe w + length bs)%nat else rps_pipe w)
            (rps_counter w) (rps_values w) (log w ++ bs)
  | Exited | Crashed => w
  end.

(** The atomic actions of a run. *)
Inductive action :=
| Tick                                   (* the ticket manager sends a round *)
| Step (k : nat)                         (* controller [k] moves on *)
| Finish (k p i : nat) (o : object)      (* a pool finishes a request *)
| Count (time_ : Q)                      (* the counter takes a notification *)
| JoinQueue                              (* requests.join() returns *)
| JoinControllers.                       (* every controller.join() returned *)

Definition add_ticket (c : controller) : controller :=
  Ctl (pools c) (counter c) (S (tickets c)) (at_ c).

Definition finish_in (p i : nat) (o : object) (c : controller) : controller :=
  Ctl (alter (finish i o) p (pools c)) (counter c) (tickets c) (at_ c).

Definition stopped (c : controller) : bool :=
  match at_ c with
  | Exited | Crashed => true
  | _ => false
  end.

Definition exec (cfg : config) (a : action) (w : world) : world :=
  match a with
  | Tick =>
      if ticket_manager w then
        World (requests w) (unfinished_tasks w)
              (map add_ticket (controllers w))
              (ticket_manager w) (store w) (rps_pipe w) (rps_counter w)
              (rps_values w) (log w)
      else w
  | Step k =>
      match controllers w !! k with
      | Some c => _controller cfg k c w
      | None => w
      end
  | Finish k p i o =>
      World (requests w) (unfinished_tasks w)
            (alter (finish_in p i o) k (controllers w))
            (ticket_manager w) (store w) (rps_pipe w) (rps_counter w)
            (rps_values w) (log w)
  | Count time_ =>
      match rps_pipe w, rps_counter w with
      | S n, Some s =>
          match Telemetry.step time_ s with
          | Some s' =>
              World (requests w) (unfinished_tasks w) (controllers w)
                    (ticket_manager w) (store w) n (Some s')
                    (Some (Telemetry.rps s', Telemetry.rps10 s',
                           Telemetry.rps1 s'))
                    (log w)
          | None =>
              World (requests w) (unfinished_tasks w) (controllers w)
                    (ticket_manager w) (store w) n None (rps_values w) (log w)
          end
      | _, _ => w
      end
  | JoinQueue =>
      (* join() returns once every put is matched by a task_done; run then
         terminates the ticket manager *)
      if unfinished_tasks w =? 0 then
        World (requests w) (unfinished_tasks w) (controllers w)
              false (store w) (rps_pipe w) (rps_counter w)
              (rps_values w) (log w)
      else w
  | JoinControllers =>
      if negb (ticket_manager w) && forallb stopped (controllers w) then
        World (requests w) (unfinished_tasks w) (controllers w)
              (ticket_manager w) (store w) (rps_pipe w) None
              (rps_values w) (log w)
      else w
  end.

(** A run under a schedule. *)
Definition execs (cfg : config) (sched : list action) (w : world) : world :=
  fold_left (fun w a => exec cfg a w) sched w.

(** The state [run] leaves behind when it starts to wait: the staged
    requests in the queue, one controller per [Controller] process with its
    pools set up, no ticket sent yet.  [start_] is the clock reading the
    counter takes when it starts. *)
Definition controller_of (num_pools : Z) (max_connections : Q)
           (p : Client.process) : option controller :=
  match p with
  | Client.Controller ps _ =>
      Some (Ctl (map (_setup num_pools max_connections) ps) 0 O AtCheck)
  | _ => None
  end.

Definition config_of (c : Client.FastClient) : config :=
  {| callbacks := Client._callbacks c;
     use_store := Client._use_store c;
     use_rps := Client._use_rps c |}.

Definition boot (c : Client.FastClient) (start_ : Q) : option world :=
  match Client.run c with
  | (procs, inr _) =>
      Some (World (Client._requests c)
                  (Z.of_nat (length (Client._requests c)))
                  (omap (controller_of (Client._num_pools c)
                                       (Client._max_connections c)) procs)
                  true
                  (Client._store c)
                  O
                  (if Client._use_rps c then Some (Telemetry.init start_)
                   else None)
                  (if Client._use_rps c then Some (0%Q, 0, 0) else None)
                  [])
  | (_, inl _) => None
  end.

(** The requests a controller has handed to its pools and not yet
    delivered. *)
Definition pool_items (p : pool) : list Request :=
  inflight p ++ map fst (feed p).

Definition controller_items (c : controller) : list Request :=
  flat_map pool_items (pools c).

Definition in_pools (w : world) : list Request :=
  flat_map controller_items (controllers w).

Definition delivered (w : world) : list Request :=
  map b_request (log w).

Definition all_exited (w : world) : Prop :=
  Forall (fun c => at_ c = Exited) (controllers w).

End Engine.

(** ** Predicates of the statements *)

Module TicketProps.
Import Py TicketGen.
Local Open Scope Q_scope.

(** Consecutive entries of [e] are more than [gap] apart. *)
Definition spaced (gap : Q) (e : list Q) : Prop :=
  forall (i : nat) (a b : Q),
    e !! i = Some a -> e !! S i = Some b -> gap < b - a.

(** What every reachable state of the manager satisfies: all connections
    carry the same tickets [e], [last_tickets] is the reading of the last
    round (or still 0), and the rounds are spaced. *)
Definition round_state (rate : Q) (n : nat) (s : state) (e : list Q) : Prop :=
  connections s = replicate n e
  /\ last_tickets s = default 0 (last e)
  /\ spaced (1 / rate) e.

(** The bound on aggregate emission: over the passes [times], the tickets
    sent on all connections together number at most [rate] times the time
    between the first and the last pass. *)
Definition aggregate_within_rate (rate : Q) (n : nat) (times : list Q)
  : Prop :=
  forall (s : state) (first lst : Q),
    _create_tickets rate n times = Some s ->
    head times = Some first ->
    last times = Some lst ->
    inject_Z (Z.of_nat (total_tickets s)) <= rate * (lst - first).

End TicketProps.

Module DeliveryProps.
Import Py Types Callbacks.

(** The callback invocations of a trace, in order: kind, callback and the
    outcome passed. *)
Definition calls_of (tr : list event)
  : list (RequestEvent * string * object) :=
  omap (fun e => match e with
                 | Call kind name result => Some (kind, name, result)
                 | _ => None
                 end) tr.

(** One invocation of each of [cbs], in their order, with [result]. *)
Definition once_each (kind : RequestEvent) (cbs : list callback)
           (result : object) : list (RequestEvent * string * object) :=
  map (fun cb => (kind, cb_name cb, result)) cbs.

End DeliveryProps.

Module EngineProps.
Import Py Types Pools Callbacks Engine DeliveryProps.

(** A batch ran the callbacks of the kind of its outcome, once each. *)
Definition batch_ok (cfg : config) (b : batch) : Prop :=
  b_kind b = kind_of (b_result b)
  /\ calls_of (b_trace b)
     = once_each (b_kind b) (callbacks cfg (b_kind b)) (b_result b).

(** The batches a request got. *)
Definition batches_of (r : Request) (w : world) : list batch :=
  filter (fun b => b_request b = r) (log w).

Definition inflight_count (c : controller) : nat :=
  list_sum (map (fun p => length (inflight p)) (pools c)).

Definition feed_count (c : controller) : nat :=
  list_sum (map (fun p => length (feed p)) (pools c)).

(** What holds of every controller during a run, the queue being [q]: its
    [counter] is the number of requests it has in its pools, it has a pool,
    it is alive, and it has left its loop only with nothing in its pools
    and the queue empty. *)
Definition controller_ok (q : list Request) (c : controller) : Prop :=
  counter c = Z.of_nat (inflight_count c + feed_count c)
  /\ pools c <> []
  /\ at_ c <> Crashed
  /\ (at_ c = Exited -> counter c = 0 /\ q = []).

(** What holds of every state of a run that staged [staged]: every staged
    request is in exactly one place (the queue, a pool, or the log of
    deliveries); the queue's count of unfinished tasks is its length; and
    the ticket manager is stopped only once the queue is empty. *)
Record invariant (cfg : config) (staged : list Request) (w : world)
  : Prop := {
  inv_items : staged ≡ₚ requests w ++ in_pools w ++ delivered w;
  inv_controllers : Forall (controller_ok (requests w)) (controllers w);
  inv_some : controllers w <> [];
  inv_unfinished : unfinished_tasks w = Z.of_nat (length (requests w));
  inv_tickets : ticket_manager w = false -> requests w = [];
  inv_log : Forall (batch_ok cfg) (log w)
}.

(** The first [n] actions of an unending schedule. *)
Fixpoint prefix (sched : nat -> action) (n : nat) : list action :=
  match n with
  | O => []
  | S n' => prefix sched n' ++ [sched n']
  end.

(** The state after [n] actions. *)
Definition after (cfg : config) (sched : nat -> action) (w0 : world)
           (n : nat) : world :=
  execs cfg (prefix sched n) w0.

(** Action [a] has pool [p] of controller [k] finish a request, if it has
    one outstanding in [w]. *)
Definition finishes (w : world) (k p : nat) (a : action) : Prop :=
  exists i o,
    a = Finish k p i o
    /\ forall c pl,
        controllers w !! k = Some c -> pools c !! p = Some pl ->
        inflight pl = [] \/ (i < length (inflight pl))%nat.

(** A schedule that neglects no process: the ticket manager keeps making
    its rounds while it lives, [join] returns once it may, every controller
    keeps running, and every pool keeps finishing what is submitted to
    it. *)
Record fair (cfg : config) (w0 : world) (sched : nat -> action) : Prop := {
  fair_tick : forall n, exists m, (n <= m)%nat /\ sched m = Tick;
  fair_join : forall n, exists m, (n <= m)%nat /\ sched m = JoinQueue;
  fair_step : forall n k,
      (k < length (controllers w0))%nat ->
      exists m, (n <= m)%nat /\ sched m = Step k;
  fair_finish : forall n k p c,
      controllers w0 !! k = Some c ->
      (p < length (pools c))%nat ->
      exists m, (n <= m)%nat /\ finishes (after cfg sched w0 m) k p (sched m)
}.

(** How many of its own steps a controller is from its next step that
    consumes a ticket, receives an outcome or leaves the loop, once the
    queue is empty (0 when only a pool can help it on). *)
Definition rank (c : controller) : nat :=
  match tickets c, feed_count c, inflight_count c with
  | S _, _, _ =>
      match at_ c with AtTicket => 0 | AtCheck => 1 | _ => 2 end
  | O, S _, _ =>
      match at_ c with AtReap => 0 | AtTicket => 1 | _ => 2 end
  | O, O, S _ => 0
  | O, O, O =>
      match at_ c with AtCheck => 0 | AtReap => 1 | _ => 2 end
  end%nat.

(** The work a controller has left once the queue is empty. *)
Definition left_over (c : controller) : nat :=
  match at_ c with
  | Exited | Crashed => 0
  | _ => 1 + 9 * inflight_count c + 4 * feed_count c + 4 * tickets c + rank c
  end%nat.

Definition left_over_all (w : world) : nat :=
  list_sum (map left_over (controllers w)).

(** A controller that can move on by itself: it has not left its loop, and
    a ticket or an outcome is waiting for it or its pools are idle. *)
Definition unblocked (c : controller) : Prop :=
  at_ c <> Exited
  /\ (tickets c <> O \/ feed_count c <> O \/ inflight_count c = O).

(** The queue is empty and the ticket manager stopped. *)
Definition settled (w : world) : Prop :=
  requests w = [] /\ ticket_manager w = false.

(** From [w] to [w'] no pool has finished anything, and no controller that
    could move has moved. *)
Definition undisturbed (w w' : world) : Prop :=
  forall k c,
    controllers w !! k = Some c ->
    exists c',
      controllers w' !! k = Some c'
      /\ map inflight (pools c') = map inflight (pools c)
      /\ (unblocked c -> c' = c).

(** The controllers of a run and the number of pools of each. *)
Definition shape (w : world) : list nat :=
  map (fun c => length (pools c)) (controllers w).

(** How far a controller is from a ticket poll that finds a ticket. *)
Definition poll_dist (c : controller) : nat :=
  match tickets c with
  | O => 3
  | S _ => match at_ c with AtTicket => 0 | AtCheck => 1 | _ => 2 end
  end%nat.

Definition to_poll (w : world) : nat :=
  match controllers w !! 0%nat with
  | Some c => poll_dist c
  | None => 0%nat
  end.

(** What stands between a state and the moment the queue is empty and the
    ticket manager stopped. *)
Definition waiting (w : world) : nat :=
  (match requests w with
   | [] => 0
   | _ :: _ => 4 * length (requests w) + to_poll w
   end
   + if ticket_manager w then 1 else 0)%nat.

(** The action that brings that moment nearer. *)
Definition needed (w : world) : action :=
  match requests w with
  | [] => JoinQueue
  | _ :: _ =>
      match controllers w !! 0%nat with
      | Some c => match tickets c with O => Tick | S _ => Step 0 end
      | None => Tick
      end
  end.

(** One step of a controller in isolation: from its state and the queue to
    its next state, the queue it leaves and the number of outcomes it
    delivered. *)
Inductive local_step (q : list Request)
  : controller -> controller -> list Request -> nat -> Prop :=
| ls_exit (c : controller) :
    at_ c = AtCheck -> counter c = 0 -> q = [] ->
    local_step q c (Ctl (pools c) (counter c) (tickets c) Exited) q 0
| ls_check (c : controller) :
    at_ c = AtCheck -> ~ (counter c = 0 /\ q = []) ->
    local_step q c (Ctl (pools c) (counter c) (tickets c) AtTicket) q 0
| ls_no_ticket (c : controller) :
    at_ c = AtTicket -> tickets c = O ->
    local_step q c (Ctl (pools c) (counter c) O AtReap) q 0
| ls_empty (c : controller) (t : nat) :
    at_ c = AtTicket -> tickets c = S t -> q = [] ->
    local_step q c (Ctl (pools c) (counter c) t AtCheck) q 0
| ls_admit (c : controller) (t : nat) (r : Request) (q' : list Request)
           (ps' : list pool) :
    at_ c = AtTicket -> tickets c = S t -> q = r :: q' ->
    length ps' = length (pools c) ->
    local_step q c (Ctl ps' (counter c + 1) t AtReap) q' 0
| ls_reap (c : controller) (ps' : list pool) (n : nat) :
    at_ c = AtReap ->
    map inflight ps' = map inflight (pools c) ->
    list_sum (map (fun p => length (feed p)) (pools c))
    = (list_sum (map (fun p => length (feed p)) ps') + n)%nat ->
    ((0 < list_sum (map (fun p => length (feed p)) (pools c)))%nat ->
     (0 < n)%nat) ->
    local_step q c (Ctl ps' (counter c - Z.of_nat n) (tickets c) AtCheck) q n
| ls_stopped (c : controller) :
    at_ c = Exited -> local_step q c c q 0.

End EngineProps.

(** ** Example data *)

Module Examples.
Import Py Types Pools Callbacks.

(** Completions at 0.0, 0.5, 1.2, 9.9 and 10.5 seconds. *)
Definition completions : list Q :=
  [0; 1 # 2; 12 # 10; 99 # 10; 105 # 10]%Q.

(** Passes of the ticket manager every 1.25 seconds, from 100 to 105. *)
Definition passes_5s : list Q :=
  [100; 405 # 4; 205 # 2; 415 # 4; 105]%Q.

(** A pool with [n] requests outstanding. *)
Definition busy_pool (name : string) (n : nat) : pool :=
  {| decl := {| id_ := Some 7; pool_name := name |};
     inflight := replicate n {| req_payload := "r" |};
     feed := [] |}.

(** A client with storage and counter switched on, and one switched off. *)
Definition client_on : Client.FastClient :=
  Client.__init__ 10 [{| id_ := None; pool_name := "a" |}] 8 None true true.

Definition client_off : Client.FastClient :=
  Client.__init__ 10 [{| id_ := None; pool_name := "a" |}] 8 None false false.

(** A callback that counts in the store under the key ["n"]. *)
Definition count_cb : callback :=
  {| cb_name := "count";
     cb_body := fun _ ctx =>
       match ctx_store ctx with
       | Some m => [Get "n"; Set_ "n" (default 0 (m !! "n") + 1)]
       | None => []
       end |}.

(** An outcome whose class derives from [Response], and a failure. *)
Definition JsonResponse : Py.class :=
  {| Py.cls_name := "JsonResponse";
     Py.cls_ancestors := ["Response"; "object"] |}.

Definition json_outcome : Py.object :=
  {| Py.ob_type := JsonResponse; Py.ob_payload := "{}" |}.

Definition Error_ : Py.class :=
  {| Py.cls_name := "Error"; Py.cls_ancestors := ["object"] |}.

Definition failure : Py.object :=
  {| Py.ob_type := Error_; Py.ob_payload := "timeout" |}.

(** A client with one pool, a listener and two requests staged. *)
Definition staged_client : Client.FastClient :=
  Client.request {| req_payload := "b" |}
    (Client.request {| req_payload := "a" |}
       (Client.on RESPONSE count_cb client_on)).

Definition response : Py.object :=
  {| Py.ob_type := Response; Py.ob_payload := "ok" |}.

(** A schedule that takes the processes of [staged_client] in turn: the
    ticket manager, the dispatcher waiting on the queue, the controller and
    its pool. *)
Definition in_turn (m : nat) : Engine.action :=
  match (m mod 4)%nat with
  | 0%nat => Engine.Tick
  | 1%nat => Engine.JoinQueue
  | 2%nat => Engine.Step 0
  | _ => Engine.Finish 0 0 0 response
  end.

(** Three pools of one group with 3, 1 and 4 requests outstanding. *)
Definition pools_314 : list pool :=
  [busy_pool "a" 3; busy_pool "b" 1; busy_pool "c" 4].

End Examples.

(** ** Sequences of calls, and what the further statements speak of *)

Module Usage.
Import Py Types Pools Callbacks Client Engine.

(** [client.on(e1, cb1); client.on(e2, cb2); ...] *)
Definition register_all (regs : list (RequestEvent * callback))
           (c : FastClient) : FastClient :=
  fold_left (fun c r => on (fst r) (snd r) c) regs c.

(** [client.request(r1); client.request(r2); ...] *)
Definition stage_all (rs : list Request) (c : FastClient) : FastClient :=
  fold_left (fun c r => request r c) rs c.

(** [client[k1] = v1; client[k2] = v2; ...], stopping at the first
    exception. *)
Fixpoint set_all (kvs : list (string * Z)) (c : FastClient)
  : exn + FastClient :=
  match kvs with
  | [] => inr c
  | (k, v) :: rest =>
      match __setitem__ k v c with
      | inl e => inl e
      | inr (c', _) => set_all rest c'
      end
  end.

(** The value the last assignment to [key] in [kvs] gave it. *)
Fixpoint last_write (key : string) (kvs : list (string * Z)) : option Z :=
  match kvs with
  | [] => None
  | (k, v) :: rest =>
      match last_write key rest with
      | Some v' => Some v'
      | None => if decide (k = key) then Some v else None
      end
  end.

(** The ticket pipe a started process reads from, if it is a controller. *)
Definition pipe_of (p : process) : option nat :=
  match p with
  | Controller _ ch => Some ch
  | _ => None
  end.

(** The rounds of tickets a schedule asks of the ticket manager. *)
Definition rounds (sched : list action) : nat :=
  length (List.filter (fun a => match a with Tick => true | _ => false end)
                      sched).

(** The batches controller [k] has delivered. *)
Definition delivered_by (k : nat) (w : world) : list batch :=
  List.filter (fun b => Nat.eqb (b_controller b) k) (log w).

(** How many requests controller [k] has taken from the queue: those it
    has in its pools and those it has delivered. *)
Definition taken_by (k : nat) (w : world) : nat :=
  (match controllers w !! k with
   | Some c => length (controller_items c)
   | None => 0
   end + length (delivered_by k w))%nat.

(** The tickets waiting in the pipe of controller [k]. *)
Definition tickets_of (k : nat) (w : world) : nat :=
  match controllers w !! k with
  | Some c => tickets c
  | None => 0%nat
  end.

(** What a delivery does with the store: it keeps to the lock, and leaves
    the store alone where the client has none. *)
Definition sound_batch (cfg : config) (b : batch) : Prop :=
  guarded false (b_trace b) = true
  /\ (use_store cfg = false -> touches_store (b_trace b) = false).

(** Clock readings none of which is earlier than the one before. *)
Fixpoint rising (ts : list Q) : Prop :=
  match ts with
  | t1 :: rest =>
      match rest with
      | t2 :: _ => (t1 <= t2)%Q /\ rising rest
      | [] => True
      end
  | [] => True
  end.

End Usage.

(** ** Further example data *)

Module Samples.
Import Py Types Pools Callbacks Examples.

(** A client over four pools, two of which share the id 1, one has the id
    2 and one has none; a listener is registered. *)
Definition grouped_client : Client.FastClient :=
  Client.on RESPONSE count_cb
    (Client.__init__ 10
       [ {| id_ := Some 1; pool_name := "a" |};
         {| id_ := None; pool_name := "b" |};
         {| id_ := Some 2; pool_name := "c" |};
         {| id_ := Some 1; pool_name := "d" |} ]
       8 None true true).

(** A client without any pool, with a listener and one request staged. *)
Definition poolless_client : Client.FastClient :=
  Client.request {| req_payload := "a" |}
    (Client.on RESPONSE count_cb (Client.__init__ 10 [] 8 None true true)).

(** A client without store and counter, with a listener and one request
    staged. *)
Definition storeless_client : Client.FastClient :=
  Client.request {| req_payload := "a" |}
    (Client.on RESPONSE count_cb client_off).

(** The end of a run over one pool: the controller has left its loop. *)
Definition done_world : Engine.world :=
  Engine.World
    [] 0
    [Engine.Ctl [_setup 8 10 {| id_ := None; pool_name := "a" |}]
                0 O Engine.Exited]
    false (Some ∅) O None (Some (0%Q, 0, 0)) [].

(** A schedule that sends a round of tickets, lets the controller admit a
    request, has the pool answer it and the controller deliver the
    answer. *)
Definition one_delivery : list Engine.action :=
  [Engine.Tick; Engine.Step 0; Engine.Step 0;
   Engine.Finish 0 0 0 response; Engine.Step 0].

End Samples.

(** * Properties *)

(** ** Lists updated in place *)

Section ListFacts.
Context {A : Type}.

Lemma alter_as_insert (f : A -> A) (l : list A) (i : nat) (x : A) :
  l !! i = Some x -> alter f i l = <[i := f x]> l.
Proof.
  revert i. induction l as [|y l IH]; intros [|i] H; simpl in *; try done.
  - injection H as ->. reflexivity.
  - f_equal. apply IH. exact H.
Qed.

End ListFacts.

(** ** Choosing the least busy pool *)

Section LeastBusy.
Import Py Types Pools Callbacks Engine.

Lemma argmin_from_spec (ks : list Z) :
  forall (pre : list Z) (ibest : nat) (kbest : Z),
    pre !! ibest = Some kbest ->
    (forall j x, pre !! j = Some x -> kbest <= x) ->
    (forall j x, (j < ibest)%nat -> pre !! j = Some x -> kbest < x) ->
    exists kr,
      (pre ++ ks) !! argmin_from ks ibest kbest (length pre) = Some kr
      /\ (forall j x, (pre ++ ks) !! j = Some x -> kr <= x)
      /\ (forall j x, (j < argmin_from ks ibest kbest (length pre))%nat ->
                      (pre ++ ks) !! j = Some x -> kr < x).
Proof.
  induction ks as [|k rest IH]; intros pre ibest kbest Hb Hle Hlt; simpl.
  - exists kbest. rewrite app_nil_r. auto.
  - assert (Hlen : length (pre ++ [k]) = S (length pre))
      by (rewrite length_app; simpl; lia).
    assert (Hcons : pre ++ k :: rest = (pre ++ [k]) ++ rest)
      by (rewrite <- app_assoc; reflexivity).
    rewrite Hcons, <- Hlen.
    destruct (k <? kbest) eqn:Hk.
    + apply Z.ltb_lt in Hk.
      apply IH.
      * apply list_lookup_middle. reflexivity.
      * intros j x Hj. apply lookup_app_Some in Hj as [Hj | [_ Hj]].
        -- specialize (Hle _ _ Hj). lia.
        -- destruct (j - length pre)%nat; simpl in Hj; [|done].
           injection Hj as <-. lia.
      * intros j x Hjlt Hj.
        rewrite lookup_app_l in Hj by lia.
        specialize (Hle _ _ Hj). lia.
    + apply Z.ltb_ge in Hk.
      apply IH.
      * apply lookup_app_l_Some. exact Hb.
      * intros j x Hj. apply lookup_app_Some in Hj as [Hj | [_ Hj]].
        -- eauto.
        -- destruct (j - length pre)%nat; simpl in Hj; [|done].
           injection Hj as <-. lia.
      * intros j x Hjlt Hj.
        assert (j < length pre)%nat
          by (apply lookup_lt_Some in Hb; lia).
        rewrite lookup_app_l in Hj by lia. eauto.
Qed.

(** [argmin] returns the first position that holds the least key. *)
Lemma argmin_spec (ks : list Z) :
  ks <> [] ->
  exists i ki,
    argmin ks = Some i /\ ks !! i = Some ki
    /\ (forall j x, ks !! j = Some x -> ki <= x)
    /\ (forall j x, (j < i)%nat -> ks !! j = Some x -> ki < x).
Proof.
  destruct ks as [|k rest]; [done|]. intros _.
  destruct (argmin_from_spec rest [k] 0%nat k) as (kr & H1 & H2 & H3).
  - reflexivity.
  - intros [|j] x Hj; simpl in Hj; [injection Hj as <-; lia | done].
  - intros j x Hj. lia.
  - exists (argmin_from rest 0%nat k 1%nat), kr. simpl in *. auto.
Qed.

Lemma min_from_argmin_from {A : Type} (key : A -> Z) (rest : list A) :
  forall (pre : list A) (ibest : nat) (best : A),
    pre !! ibest = Some best ->
    (pre ++ rest) !! argmin_from (map key rest) ibest (key best) (length pre)
    = Some (min_from key best (key best) rest).
Proof.
  induction rest as [|x rest IH]; intros pre ibest best Hb; simpl.
  - rewrite app_nil_r. exact Hb.
  - assert (Hlen : length (pre ++ [x]) = S (length pre))
      by (rewrite length_app; simpl; lia).
    assert (Hcons : pre ++ x :: rest = (pre ++ [x]) ++ rest)
      by (rewrite <- app_assoc; reflexivity).
    rewrite Hcons, <- Hlen.
    destruct (key x <? key best).
    + apply IH. apply list_lookup_middle. reflexivity.
    + apply IH. apply lookup_app_l_Some. exact Hb.
Qed.

(** [min(pools, key=...)] is the element at the position [argmin] finds. *)
Lemma min_argmin {A : Type} (key : A -> Z) (xs : list A) :
  Py.min xs key = argmin (map key xs) ≫= (fun i => xs !! i).
Proof.
  destruct xs as [|x rest]; [reflexivity|]. simpl.
  symmetry. apply (min_from_argmin_from key rest [x] 0%nat x). reflexivity.
Qed.

End LeastBusy.

(** The admission step of a controller hands the request to its least busy
    pool. *)
Section Admission.
Import Py Types Pools Callbacks Engine.

(** C4. Whenever a controller admits a request (a ticket is waiting and the
    queue is not empty), the pool that receives it is the one [min] selects:
    its outstanding-task count is least among the controller's pools, and
    every pool declared before it has a strictly larger count, so that ties
    go to the pool declared first.  With counts 3, 1, 4 it is the second
    pool, the one with count 1. *)
Theorem admission_selects_least_busy
        (cfg : config) (k : nat) (c : controller) (w : world)
        (t : nat) (r : Request) (q : list Request) :
  at_ c = AtTicket ->
  tickets c = S t ->
  requests w = r :: q ->
  pools c <> [] ->
  exists (i : nat) (p : pool),
    Py.min (pools c) _get_remaining_tasks = Some p
    /\ pools c !! i = Some p
    /\ (forall j p', pools c !! j = Some p' ->
                     _get_remaining_tasks p <= _get_remaining_tasks p')
    /\ (forall j p', (j < i)%nat -> pools c !! j = Some p' ->
                     _get_remaining_tasks p < _get_remaining_tasks p')
    /\ requests (_controller cfg k c w) = q
    /\ controllers (_controller cfg k c w)
       = <[k := Ctl (<[i := _request r p]> (pools c)) (counter c + 1) t AtReap]>
           (controllers w)
    /\ (map _get_remaining_tasks (pools c) = [3; 1; 4] -> i = 1%nat).
Proof.
  intros Hat Ht Hq Hne.
  destruct (argmin_spec (map _get_remaining_tasks (pools c)))
    as (i & ki & Harg & Hi & Hle & Hlt).
  { destruct (pools c); [done | discriminate]. }
  rewrite list_lookup_fmap in Hi.
  destruct (pools c !! i) as [p|] eqn:Hp; [|discriminate].
  simpl in Hi. injection Hi as <-.
  exists i, p. repeat split.
  - rewrite min_argmin, Harg. simpl. exact Hp.
  - exact Hp.
  - intros j p' Hj. apply (Hle j). rewrite list_lookup_fmap, Hj. reflexivity.
  - intros j p' Hji Hj. apply (Hlt j); [exact Hji|].
    rewrite list_lookup_fmap, Hj. reflexivity.
  - unfold _controller. rewrite Hat, Ht, Harg, Hq. reflexivity.
  - unfold _controller. rewrite Hat, Ht, Harg, Hq. simpl.
    rewrite (alter_as_insert _ _ _ _ Hp). reflexivity.
  - intros Hks. rewrite Hks in Harg. vm_compute in Harg. congruence.
Qed.

End Admission.

(** ** The request-rate counter *)

Section Counter.
Import Py Telemetry.
Local Open Scope Q_scope.

Lemma Qltb_lt (x y : Q) : Qltb x y = true <-> x < y.
Proof.
  unfold Qltb. rewrite negb_true_iff. split.
  - intros H. apply Qnot_le_lt. intros Hle.
    apply Qle_bool_iff in Hle. congruence.
  - intros H. destruct (Qle_bool y x) eqn:E; [|reflexivity].
    apply Qle_bool_iff in E. apply Qlt_not_le in H. contradiction.
Qed.

Lemma Qltb_nlt (x y : Q) : Qltb x y = false <-> ~ x < y.
Proof.
  rewrite <- Qltb_lt. destruct (Qltb x y); split; intros; congruence.
Qed.

(** The first loop moves a prefix of [list1], all of it older than one
    second, to the end of [list9], and stops at the first entry that is
    not. *)
Lemma move_lists1_spec (time_ : Q) (l1 : list Q) :
  forall l9, exists moved,
    l1 = moved ++ fst (move_lists1 time_ l1 l9)
    /\ snd (move_lists1 time_ l1 l9) = l9 ++ moved
    /\ Forall (fun x => x < time_ - 1) moved
    /\ (forall x, head (fst (move_lists1 time_ l1 l9)) = Some x ->
                  ~ x < time_ - 1).
Proof.
  induction l1 as [|x rest IH]; intros l9; simpl.
  - exists []. rewrite !app_nil_r. repeat split; [constructor | discriminate].
  - destruct (Qltb x (time_ - 1)) eqn:E.
    + destruct (IH (l9 ++ [x])%list) as (moved & H1 & H2 & H3 & H4).
      exists (x :: moved). repeat split.
      * simpl. f_equal. exact H1.
      * rewrite H2, <- app_assoc. reflexivity.
      * constructor; [apply Qltb_lt; exact E | exact H3].
      * exact H4.
    + exists []. simpl. rewrite !app_nil_r. repeat split; [constructor|].
      intros y Hy. injection Hy as <-. apply Qltb_nlt. exact E.
Qed.

(** The second loop drops a prefix of [list9]. *)
Lemma move_lists9_suffix (time_ : Q) (l9 : list Q) :
  exists dropped, l9 = dropped ++ move_lists9 time_ l9.
Proof.
  induction l9 as [|x rest [d Hd]]; simpl.
  - exists []. reflexivity.
  - destruct (Qltb x (time_ - 1)).
    + exists (x :: d). simpl. f_equal. exact Hd.
    + exists []. reflexivity.
Qed.

(** It drops everything when every entry is older than one second. *)
Lemma move_lists9_all_old (time_ : Q) (l9 : list Q) :
  Forall (fun x => x < time_ - 1) l9 -> move_lists9 time_ l9 = [].
Proof.
  induction 1 as [|x rest Hx _ IH]; simpl; [reflexivity|].
  apply Qltb_lt in Hx. rewrite Hx. exact IH.
Qed.

Lemma step_list9_empty (time_ : Q) (s s' : state) :
  list9 s = [] -> step time_ s = Some s' ->
  list9 s' = [] /\ rps10 s' = rps1 s'.
Proof.
  unfold step. intros H9 Hs.
  destruct (move_lists1_spec time_ (list1 s ++ [time_]) (list9 s))
    as (moved & _ & H2 & H3 & _).
  destruct (move_lists1 time_ (list1 s ++ [time_])%list (list9 s))
    as [l1' l9] eqn:E.
  simpl in H2. rewrite H9 in H2. simpl in H2. subst l9.
  rewrite (move_lists9_all_old _ _ H3) in Hs.
  destruct (Qeq_bool (time_ - start s) 0); [discriminate|].
  injection Hs as <-. simpl. split; [reflexivity | lia].
Qed.

(** Since the second loop compares with [time_-1] as the first one does,
    whatever enters [list9] leaves it in the same iteration: the published
    ten-second count always equals the one-second count. *)
Lemma ten_second_count_is_one_second_count (start_ : Q) (times : list Q)
      (s : state) :
  _count_rps start_ times = Some s ->
  list9 s = [] /\ rps10 s = rps1 s.
Proof.
  unfold _count_rps.
  assert (H : forall s0, list9 s0 = [] /\ rps10 s0 = rps1 s0 ->
                         steps times s0 = Some s ->
                         list9 s = [] /\ rps10 s = rps1 s).
  { induction times as [|t rest IH]; intros s0 H0 Hs; simpl in Hs.
    - injection Hs as <-. exact H0.
    - destruct (step t s0) as [s1|] eqn:E; [|discriminate].
      apply (IH s1); [|exact Hs].
      apply (step_list9_empty t s0 s1); [apply H0 | exact E]. }
  apply H. split; reflexivity.
Qed.

End Counter.

Section CounterWindows.
Import Py Telemetry Examples.
Local Open Scope Q_scope.

(** C3 (amended). On each notification the counter appends the clock
    reading to [list1] and moves to [list9] the entries at the front of
    [list1] that are more than one second old; entries leave [list9] from
    its front only, and the one-second count is the length of [list1] (the
    iteration completes unless the clock still reads [start]).  For
    completions at 0.0, 0.5, 1.2, 9.9 and 10.5 seconds the values standing
    after the last notification, which are those read at 10.6 seconds, have
    the 9.9 and the 10.5 completion in [list1]: the one-second count is 2. *)
Theorem count_rps_one_second_window :
  (forall (time_ : Q) (s s' : state),
      step time_ s = Some s' ->
      exists moved,
        (list1 s ++ [time_])%list = (moved ++ list1 s')%list
        /\ Forall (fun x => x < time_ - 1) moved
        /\ (forall x, head (list1 s') = Some x -> ~ x < time_ - 1)
        /\ (exists dropped,
               (list9 s ++ moved)%list = (dropped ++ list9 s')%list)
        /\ rps1 s' = Z.of_nat (length (list1 s')))
  /\ (forall (time_ : Q) (s : state),
         ~ time_ - start s == 0 -> exists s', step time_ s = Some s')
  /\ (exists s,
         _count_rps (-1) completions = Some s
         /\ list1 s = [99 # 10; 105 # 10]
         /\ rps1 s = 2%Z).
Proof.
  split; [|split].
  - intros time_ s s' Hs. unfold step in Hs.
    destruct (move_lists1_spec time_ (list1 s ++ [time_]) (list9 s))
      as (moved & H1 & H2 & H3 & H4).
    destruct (move_lists1 time_ (list1 s ++ [time_])%list (list9 s))
      as [l1' l9] eqn:E.
    simpl in H1, H2, H4.
    destruct (Qeq_bool (time_ - start s) 0); [discriminate|].
    injection Hs as <-. simpl.
    exists moved. repeat split; try assumption.
    rewrite <- H2. apply move_lists9_suffix.
  - intros time_ s Hne. unfold step.
    destruct (move_lists1 time_ (list1 s ++ [time_])%list (list9 s))
      as [l1' l9].
    destruct (Qeq_bool (time_ - start s) 0) eqn:E.
    + apply Qeq_bool_iff in E. contradiction.
    + eexists. reflexivity.
  - eexists. repeat split; vm_compute; reflexivity.
Qed.

Lemma count_rps_one_second_window_witness :
  exists s',
    step 0 (init (-1)) = Some s'
    /\ exists moved,
        (list1 (init (-1)) ++ [0])%list = (moved ++ list1 s')%list
        /\ Forall (fun x => x < 0 - 1) moved
        /\ (forall x, head (list1 s') = Some x -> ~ x < 0 - 1)
        /\ (exists dropped,
               (list9 (init (-1)) ++ moved)%list = (dropped ++ list9 s')%list)
        /\ rps1 s' = Z.of_nat (length (list1 s')).
Proof.
  eexists. split.
  - reflexivity.
  - apply (proj1 count_rps_one_second_window 0 (init (-1))). reflexivity.
Defined.

(** The example of C3 evaluated: after the five notifications the
    one-second count is 2, not 1, and the ten-second count is 2 as well,
    the 1.2 completion having left [list9] already. *)
Lemma count_rps_example_counts :
  option_map rps1 (_count_rps (-1) completions) = Some 2%Z
  /\ option_map rps1 (_count_rps (-1) completions) <> Some 1%Z
  /\ option_map list1 (_count_rps (-1) completions)
     = Some [99 # 10; 105 # 10]
  /\ option_map list9 (_count_rps (-1) completions) = Some []
  /\ option_map rps10 (_count_rps (-1) completions) = Some 2%Z
  /\ option_map rps1 (_count_rps (-1) (completions ++ [106 # 10]))
     = Some 3%Z.
Proof.
  repeat split; try (vm_compute; reflexivity).
  vm_compute. discriminate.
Qed.

End CounterWindows.

Section AdmissionExample.
Import Py Types Pools Callbacks Engine Examples.

Lemma admission_selects_least_busy_witness :
  exists (i : nat) (p : pool),
    Py.min pools_314 _get_remaining_tasks = Some p
    /\ pools_314 !! i = Some p
    /\ _get_remaining_tasks p = 1
    /\ i = 1%nat.
Proof.
  pose (cfg := {| callbacks := empty_registry; use_store := false;
                  use_rps := false |}).
  pose (c := Ctl pools_314 8 1 AtTicket).
  pose (w := World [{| req_payload := "x" |}] 1 [c] true None 0 None None []).
  destruct (admission_selects_least_busy cfg 0 c w 0 {| req_payload := "x" |} [])
    as (i & p & Hmin & Hi & _ & _ & _ & _ & H314);
    [reflexivity | reflexivity | reflexivity | discriminate |].
  exists i, p. specialize (H314 eq_refl). subst i.
  repeat split; try assumption.
  vm_compute in Hi. injection Hi as <-. reflexivity.
Defined.

End AdmissionExample.

(** ** The ticket manager *)

Section Tickets.
Import Py TicketGen TicketProps Examples.
Local Open Scope Q_scope.

Lemma spaced_snoc (gap : Q) (e : list Q) (t : Q) :
  spaced gap e ->
  (forall a, last e = Some a -> gap < t - a) ->
  spaced gap (e ++ [t]).
Proof.
  intros He Ht i a b Ha Hb.
  destruct (decide (S i < length e)%nat) as [Hlt|Hge].
  - rewrite lookup_app_l in Ha by lia. rewrite lookup_app_l in Hb by lia.
    eauto.
  - assert (Hi : S i = length e).
    { apply lookup_lt_Some in Hb. rewrite length_app in Hb. simpl in Hb. lia. }
    rewrite lookup_app_l in Ha by lia.
    rewrite lookup_app_r in Hb by lia.
    replace (S i - length e)%nat with 0%nat in Hb by lia.
    simpl in Hb. injection Hb as <-.
    apply Ht. rewrite last_lookup. rewrite <- Hi. simpl. exact Ha.
Qed.

Lemma spaced_prefix (gap : Q) (e : list Q) (t : Q) :
  spaced gap (e ++ [t]) -> spaced gap e.
Proof.
  intros H i a b Ha Hb. apply (H i).
  - apply lookup_app_l_Some. exact Ha.
  - apply lookup_app_l_Some. exact Hb.
Qed.

Lemma pass_cases (rate time_ : Q) (s : state) :
  ~ rate == 0 ->
  (1 / rate < time_ - last_tickets s
   /\ pass rate time_ s
      = Some {| last_tickets := time_;
                connections := map (fun c => (c ++ [time_])%list)
                                   (connections s) |})
  \/ (~ 1 / rate < time_ - last_tickets s /\ pass rate time_ s = Some s).
Proof.
  intros Hr. unfold pass.
  destruct (Qeq_bool rate 0) eqn:E.
  { apply Qeq_bool_iff in E. contradiction. }
  destruct (Qltb (1 / rate) (time_ - last_tickets s)) eqn:L.
  - left. split; [apply Qltb_lt; exact L | reflexivity].
  - right. split; [apply Qltb_nlt; exact L | reflexivity].
Qed.

Lemma pass_round_state (rate : Q) (n : nat) (time_ : Q) (s : state)
      (e : list Q) :
  ~ rate == 0 ->
  round_state rate n s e ->
  exists s' e',
    pass rate time_ s = Some s' /\ round_state rate n s' e'.
Proof.
  intros Hr (Hc & Hl & Hs).
  destruct (pass_cases rate time_ s Hr) as [[Hlt ->] | [_ ->]].
  - exists {| last_tickets := time_;
              connections := map (fun c => (c ++ [time_])%list)
                                 (connections s) |}.
    exists (e ++ [time_])%list. split; [reflexivity|].
    repeat split; simpl.
    + rewrite Hc.
      apply (fmap_replicate (fun c : list Q => (c ++ [time_])%list) n e).
    + rewrite last_snoc. reflexivity.
    + apply spaced_snoc; [exact Hs|].
      intros a Ha. rewrite Hl, Ha in Hlt. exact Hlt.
  - exists s, e. repeat split; assumption.
Qed.

Lemma passes_round_state (rate : Q) (n : nat) (times : list Q) :
  ~ rate == 0 ->
  forall (s : state) (e : list Q),
    round_state rate n s e ->
    exists s' e',
      passes rate times s = Some s' /\ round_state rate n s' e'.
Proof.
  intros Hr. induction times as [|t rest IH]; intros s e Hs; simpl.
  - exists s, e. split; [reflexivity | exact Hs].
  - destruct (pass_round_state rate n t s e Hr Hs) as (s1 & e1 & -> & H1).
    apply (IH s1 e1 H1).
Qed.

Lemma init_round_state (rate : Q) (n : nat) :
  round_state rate n (init n) [].
Proof.
  repeat split. intros i a b Ha. rewrite lookup_nil in Ha. discriminate.
Qed.

Lemma total_tickets_replicate (n : nat) (e : list Q) :
  list_sum (map (@length Q) (replicate n e)) = (n * length e)%nat.
Proof.
  induction n as [|n IH]; simpl; [reflexivity|]. rewrite IH. reflexivity.
Qed.

(** Spaced rounds under a positive gap: the last is at least
    [(length - 1) * gap] after the first. *)
Lemma spaced_span (gap : Q) (e : list Q) :
  0 < gap -> spaced gap e ->
  forall first lst,
    head e = Some first -> last e = Some lst ->
    inject_Z (Z.of_nat (length e) - 1) * gap <= lst - first.
Proof.
  intros Hg. induction e as [|t e IH] using rev_ind; intros Hs first lst Hf Hl.
  - discriminate.
  - rewrite last_snoc in Hl. injection Hl as <-.
    destruct e as [|x e'].
    + simpl in Hf. injection Hf as <-. simpl.
      replace (Z.of_nat 1 - 1)%Z with 0%Z by lia.
      change (inject_Z 0) with 0. lra.
    + simpl in Hf. injection Hf as <-.
      destruct (last (x :: e')) as [l0|] eqn:E0.
      2:{ apply last_None in E0. discriminate. }
      specialize (IH (spaced_prefix _ _ _ Hs) x l0 eq_refl eq_refl).
      assert (Hgap : gap < t - l0).
      { apply (Hs (Nat.pred (length (x :: e')))).
        - apply lookup_app_l_Some. rewrite <- last_lookup. exact E0.
        - simpl. apply list_lookup_middle. reflexivity. }
      rewrite length_app. simpl length.
      replace (Z.of_nat (S (length e') + 1) - 1)%Z
        with ((Z.of_nat (S (length e')) - 1) + 1)%Z by lia.
      rewrite inject_Z_plus.
      set (A := inject_Z (Z.of_nat (S (length e')) - 1)) in *.
      simpl length in IH. fold A in IH.
      change (inject_Z 1) with 1. lra.
Qed.

End Tickets.

Section TicketTheorems.
Import Py TicketGen TicketProps Examples.
Local Open Scope Q_scope.

(** C6. A pass of the ticket manager sends tickets only when the clock
    reading exceeds [last_tickets] by more than [1/rate]; it then sends
    exactly one ticket on every connection and sets [last_tickets] to the
    reading, and otherwise changes nothing.  Hence after any number of
    passes all connections carry the same tickets, and on each connection
    consecutive tickets are more than [1/rate] apart.  (The passes do not
    fail unless the rate is zero.) *)
Theorem tickets_broadcast_and_spaced (rate : Q) (n : nat) (times : list Q) :
  (forall (time_ : Q) (s0 s1 : state),
      pass rate time_ s0 = Some s1 ->
      (1 / rate < time_ - last_tickets s0
       /\ s1 = {| last_tickets := time_;
                  connections := map (fun c => (c ++ [time_])%list)
                                     (connections s0) |})
      \/ (~ 1 / rate < time_ - last_tickets s0 /\ s1 = s0))
  /\ (forall s : state,
         _create_tickets rate n times = Some s ->
         exists e : list Q,
           connections s = replicate n e
           /\ (forall c, c ∈ connections s -> c = e)
           /\ (forall (i : nat) (a b : Q),
                  e !! i = Some a -> e !! S i = Some b -> 1 / rate < b - a))
  /\ (~ rate == 0 -> exists s, _create_tickets rate n times = Some s).
Proof.
  split; [|split].
  - intros time_ s0 s1 Hp.
    destruct (Qeq_bool rate 0) eqn:E.
    { unfold pass in Hp. rewrite E in Hp. discriminate. }
    assert (Hr : ~ rate == 0).
    { intros H. apply Qeq_bool_iff in H. congruence. }
    destruct (pass_cases rate time_ s0 Hr) as [[Hlt Heq] | [Hn Heq]];
      rewrite Heq in Hp; injection Hp as <-; [left | right]; split;
      auto.
  - intros s Hrun.
    destruct (Qeq_bool rate 0) eqn:E.
    + unfold _create_tickets in Hrun. destruct times as [|t rest].
      * injection Hrun as <-. exists []. repeat split.
        -- intros c Hin. apply elem_of_replicate in Hin. apply Hin.
        -- intros i a b Ha. rewrite lookup_nil in Ha. discriminate.
      * simpl in Hrun. unfold pass in Hrun. rewrite E in Hrun. discriminate.
    + assert (Hr : ~ rate == 0).
      { intros H. apply Qeq_bool_iff in H. congruence. }
      destruct (passes_round_state rate n times Hr (init n) []
                                   (init_round_state rate n))
        as (s' & e & Hrun' & Hc & _ & Hs).
      unfold _create_tickets in Hrun. rewrite Hrun' in Hrun.
      injection Hrun as <-.
      exists e. repeat split.
      * exact Hc.
      * intros c Hin. rewrite Hc in Hin.
        apply elem_of_replicate in Hin. apply Hin.
      * exact Hs.
  - intros Hr.
    destruct (passes_round_state rate n times Hr (init n) []
                                 (init_round_state rate n))
      as (s & e & Hrun & _).
    exists s. exact Hrun.
Qed.

Lemma tickets_broadcast_and_spaced_witness :
  exists (s : state) (e : list Q),
    _create_tickets 1 2 passes_5s = Some s
    /\ connections s = replicate 2 e
    /\ length e = 5%nat
    /\ (forall (i : nat) (a b : Q),
           e !! i = Some a -> e !! S i = Some b -> 1 / 1 < b - a).
Proof.
  destruct (tickets_broadcast_and_spaced 1 2 passes_5s) as (_ & Hrun & Htot).
  destruct Htot as [s Hs]; [intros H; vm_compute in H; discriminate|].
  destruct (Hrun s Hs) as (e & Hc & _ & Hsp).
  exists s, e. repeat split; try assumption.
  vm_compute in Hs. injection Hs as <-.
  destruct e as [|? [|? [|? [|? [|? [|? ?]]]]]]; try discriminate.
  reflexivity.
Defined.

(** C5 (amended). For a positive rate every connection receives the same
    tickets, so [n] connections receive [n] times the tickets of one; and on
    one connection the tickets sent after the first number at most [rate]
    times the time between the first and the last ticket. *)
Theorem tickets_rate_bound_per_connection
        (rate : Q) (n : nat) (times : list Q) :
  0 < rate ->
  exists (s : state) (e : list Q),
    _create_tickets rate n times = Some s
    /\ connections s = replicate n e
    /\ total_tickets s = (n * length e)%nat
    /\ (forall first lst,
           head e = Some first -> last e = Some lst ->
           inject_Z (Z.of_nat (length e) - 1) <= rate * (lst - first)).
Proof.
  intros Hpos.
  assert (Hr : ~ rate == 0) by (intros H; rewrite H in Hpos; lra).
  destruct (passes_round_state rate n times Hr (init n) []
                               (init_round_state rate n))
    as (s & e & Hrun & Hc & _ & Hs).
  exists s, e. repeat split.
  - exact Hrun.
  - exact Hc.
  - unfold total_tickets. rewrite Hc. apply total_tickets_replicate.
  - intros first lst Hf Hl.
    assert (Hgap : 0 < 1 / rate).
    { apply Qlt_shift_div_l; [exact Hpos | lra]. }
    pose proof (spaced_span (1 / rate) e Hgap Hs first lst Hf Hl) as Hspan.
    set (A := inject_Z (Z.of_nat (length e) - 1)) in *.
    assert (HA : A == rate * (A * (1 / rate))) by (field; exact Hr).
    rewrite HA. apply Qmult_le_l; [exact Hpos | exact Hspan].
Qed.

Lemma tickets_rate_bound_per_connection_witness :
  exists (s : state) (e : list Q),
    _create_tickets 1 2 passes_5s = Some s
    /\ connections s = replicate 2 e
    /\ total_tickets s = (2 * length e)%nat
    /\ (forall first lst,
           head e = Some first -> last e = Some lst ->
           inject_Z (Z.of_nat (length e) - 1) <= 1 * (lst - first)).
Proof.
  apply (tickets_rate_bound_per_connection 1 2 passes_5s).
  reflexivity.
Defined.

(** The aggregate bound of C5 fails with two connections: at rate 1, five
    passes 1.25 seconds apart send ten tickets within five seconds. *)
Lemma aggregate_exceeds_rate :
  option_map total_tickets (_create_tickets 1 2 passes_5s) = Some 10%nat
  /\ option_map (fun s => map (@length Q) (connections s))
                (_create_tickets 1 2 passes_5s) = Some [5; 5]%nat
  /\ ~ aggregate_within_rate 1 2 passes_5s.
Proof.
  split; [vm_compute; reflexivity|].
  split; [vm_compute; reflexivity|].
  intros H.
  destruct (_create_tickets 1 2 passes_5s) as [s|] eqn:E;
    [|vm_compute in E; discriminate].
  specialize (H s 100 105).
  unfold aggregate_within_rate in H. rewrite E in H.
  specialize (H eq_refl eq_refl eq_refl).
  vm_compute in E. injection E as <-.
  vm_compute in H. apply H. reflexivity.
Qed.

End TicketTheorems.

(** ** The client: listeners and the store *)

Section ClientFacts.
Import Py Types Pools Callbacks Client Examples.

(** C7. [run] raises [NoListenersError] when no callback is registered,
    and has then started no process; nothing but [on] registers one (a
    fresh client has none, [request] changes nothing about it); after [on],
    for any event kind, and after any later [request], [run] does not raise
    that error. *)
Theorem run_requires_listener (c : FastClient) :
  (_callback_registered c = false ->
   exists msg, run c = ([], inl (NoListenersError msg)))
  /\ (_callback_registered c = true -> snd (run c) = inr tt)
  /\ (forall rate pools num_pools max_connections use_store use_rps,
         _callback_registered
           (__init__ rate pools num_pools max_connections use_store use_rps)
         = false)
  /\ (forall r, _callback_registered (request r c) = _callback_registered c)
  /\ (forall event cb, snd (run (on event cb c)) = inr tt)
  /\ (forall event cb r, snd (run (request r (on event cb c))) = inr tt).
Proof.
  repeat split.
  - intros H. unfold run. rewrite H. simpl. eexists. reflexivity.
  - intros H. unfold run. rewrite H. simpl.
    destruct (partition (_pools c)). reflexivity.
  - intros event cb. unfold run. simpl.
    destruct (partition (_pools c)). reflexivity.
  - intros event cb r. unfold run. simpl.
    destruct (partition (_pools c)). reflexivity.
Qed.

Lemma run_requires_listener_witness :
  (exists msg, run client_on = ([], inl (NoListenersError msg)))
  /\ snd (run (on RESPONSE count_cb client_on)) = inr tt.
Proof.
  split.
  - apply (proj1 (run_requires_listener client_on)). reflexivity.
  - apply (proj1 (proj2 (run_requires_listener (on RESPONSE count_cb client_on)))).
    reflexivity.
Defined.

(** C8. A client built with [use_store=False] has no store and no store
    lock, and this stays so; on it every [__setitem__] and every
    [__getitem__] raises [StoreNotSupportedError], and an exception leaves
    no new state behind.  With [use_store=True] neither raises that
    error. *)
Theorem store_needs_use_store (c : FastClient) :
  (_use_store c = false ->
   forall key value,
     __setitem__ key value c = inl StoreNotSupportedError
     /\ __getitem__ key c = inl StoreNotSupportedError)
  /\ (_use_store c = true ->
      forall key value,
        __setitem__ key value c <> inl StoreNotSupportedError
        /\ __getitem__ key c <> inl StoreNotSupportedError)
  /\ (forall rate pools num_pools max_connections use_rps,
         let c0 := __init__ rate pools num_pools max_connections false use_rps in
         _use_store c0 = false /\ _store c0 = None /\ _store_lock c0 = None)
  /\ (forall rate pools num_pools max_connections use_rps,
         _use_store
           (__init__ rate pools num_pools max_connections true use_rps)
         = true)
  /\ (forall event cb,
         _use_store (on event cb c) = _use_store c
         /\ _store (on event cb c) = _store c
         /\ _store_lock (on event cb c) = _store_lock c)
  /\ (forall r,
         _use_store (request r c) = _use_store c
         /\ _store (request r c) = _store c
         /\ _store_lock (request r c) = _store_lock c).
Proof.
  repeat split.
  - unfold __setitem__. rewrite H. reflexivity.
  - unfold __getitem__. rewrite H. reflexivity.
  - unfold __setitem__. rewrite H. simpl.
    destruct (_store_lock c); [|discriminate].
    destruct (_store c); discriminate.
  - unfold __getitem__. rewrite H. simpl.
    destruct (_store c) as [m|]; [|discriminate].
    destruct (m !! key); discriminate.
Qed.

Lemma store_needs_use_store_witness :
  (forall key value,
      __setitem__ key value client_off = inl StoreNotSupportedError
      /\ __getitem__ key client_off = inl StoreNotSupportedError)
  /\ (forall key value,
         __setitem__ key value client_on <> inl StoreNotSupportedError
         /\ __getitem__ key client_on <> inl StoreNotSupportedError).
Proof.
  split.
  - apply (proj1 (store_needs_use_store client_off)). reflexivity.
  - apply (proj1 (proj2 (store_needs_use_store client_on))). reflexivity.
Defined.

(** [__setitem__] writes under the lock. *)
Lemma setitem_guarded (key : string) (value : Z) (c c' : FastClient)
      (tr : list event) :
  __setitem__ key value c = inr (c', tr) ->
  tr = [Acquire; Write key value; Release] /\ guarded false tr = true.
Proof.
  unfold __setitem__.
  destruct (negb (_use_store c)); [discriminate|].
  destruct (_store_lock c); [|discriminate].
  destruct (_store c); [|discriminate].
  intros H. injection H as _ <-. split; reflexivity.
Qed.

(** [__getitem__] reads without taking it. *)
Lemma getitem_unguarded (key : string) (c : FastClient) (v : Z)
      (tr : list event) :
  __getitem__ key c = inr (v, tr) ->
  tr = [Read key] /\ guarded false tr = false.
Proof.
  unfold __getitem__.
  destruct (negb (_use_store c)); [discriminate|].
  destruct (_store c) as [m|]; [|discriminate].
  destruct (m !! key); [|discriminate].
  intros H. injection H as _ <-. split; reflexivity.
Qed.

(** C2, at a failing input. On a client with the store in use,
    [client["k"] = 1] takes the lock, writes and releases, while the
    following [client["k"]] reads the store and never takes the lock. *)
Theorem getitem_bypasses_lock :
  exists c',
    __setitem__ "k" 1 client_on
    = inr (c', [Acquire; Write "k" 1; Release])
    /\ guarded false [Acquire; Write "k" 1; Release] = true
    /\ __getitem__ "k" c' = inr (1, [Read "k"])
    /\ guarded false [Read "k"] = false.
Proof.
  eexists. repeat split.
Qed.

End ClientFacts.

(** ** Delivery of one outcome *)

Section Delivery.
Import Py Types Pools Callbacks Engine DeliveryProps Examples.

Lemma calls_of_app (tr1 tr2 : list event) :
  calls_of (tr1 ++ tr2) = calls_of tr1 ++ calls_of tr2.
Proof. apply omap_app. Qed.

Lemma calls_of_ops (ops : list store_op) : calls_of (map op_event ops) = [].
Proof.
  induction ops as [|o ops IH]; [reflexivity|].
  destruct o; simpl; exact IH.
Qed.

Lemma calls_of_elem (kind : RequestEvent) (name : string) (r : object)
      (tr : list event) :
  Call kind name r ∈ tr -> (kind, name, r) ∈ calls_of tr.
Proof.
  intros H. unfold calls_of. apply list_elem_of_omap.
  exists (Call kind name r). split; [exact H | reflexivity].
Qed.

Lemma call_all_calls (kind : RequestEvent) (cbs : list callback)
      (o : object) (rpsv : option (Q * Z * Z)) :
  forall m, calls_of (fst (call_all kind cbs o rpsv m)) = once_each kind cbs o.
Proof.
  induction cbs as [|cb rest IH]; intros m; simpl; [reflexivity|].
  specialize (IH (option_map
                    (apply_ops
                       match m with
                       | Some _ => cb_body cb o {| ctx_rps := rpsv;
                                                   ctx_store := m |}
                       | None => []
                       end) m)).
  destruct (call_all kind rest o rpsv _) as [tr m'']. simpl in *.
  rewrite calls_of_app, calls_of_ops. simpl. f_equal. exact IH.
Qed.

(** The store operations of the callbacks happen with the lock held. *)
Lemma guarded_ops (ops : list store_op) (rest : list event) :
  guarded true (map op_event ops ++ rest) = guarded true rest.
Proof.
  induction ops as [|o ops IH]; [reflexivity|].
  destruct o; simpl; exact IH.
Qed.

Lemma call_all_guarded (kind : RequestEvent) (cbs : list callback)
      (o : object) (rpsv : option (Q * Z * Z)) (rest : list event) :
  forall m,
    guarded true (fst (call_all kind cbs o rpsv (Some m)) ++ rest)
    = guarded true rest.
Proof.
  induction cbs as [|cb cbs IH]; intros m; simpl; [reflexivity|].
  specialize (IH (apply_ops (cb_body cb o {| ctx_rps := rpsv;
                                            ctx_store := Some m |}) m)).
  destruct (call_all kind cbs o rpsv _) as [tr m'']. simpl in *.
  rewrite <- app_assoc, guarded_ops. exact IH.
Qed.

(** Without a store in the context the callbacks leave the store alone. *)
Lemma call_all_no_store (kind : RequestEvent) (cbs : list callback)
      (o : object) (rpsv : option (Q * Z * Z)) :
  touches_store (fst (call_all kind cbs o rpsv None)) = false
  /\ snd (call_all kind cbs o rpsv None) = None.
Proof.
  induction cbs as [|cb cbs [IH1 IH2]]; simpl; [split; reflexivity|].
  destruct (call_all kind cbs o rpsv None) as [tr m'']. simpl in *.
  split; assumption.
Qed.

(** [deliver] runs the callbacks of the outcome's kind, once each and in
    the order of the registry. *)
Lemma deliver_routes (cfg : config) (o : object)
      (rpsv : option (Q * Z * Z)) (m : option Callbacks.store) :
  exists tr m',
    deliver cfg o rpsv m = (kind_of o, tr, m')
    /\ calls_of tr = once_each (kind_of o) (callbacks cfg (kind_of o)) o.
Proof.
  unfold deliver.
  pose proof (call_all_calls (kind_of o) (callbacks cfg (kind_of o)) o
                (if use_rps cfg then rpsv else None)
                (if use_store cfg then m else None)) as Hc.
  destruct (call_all _ _ _ _ _) as [tr m']. simpl in Hc.
  eexists _, _. split; [reflexivity|].
  rewrite !calls_of_app, Hc.
  destruct (use_rps cfg), (use_store cfg); simpl; rewrite ?app_nil_r;
    reflexivity.
Qed.

(** A delivery with the store in use keeps to the lock discipline; one
    without never touches the store. *)
Lemma deliver_guarded (cfg : config) (o : object)
      (rpsv : option (Q * Z * Z)) (m : Callbacks.store) :
  guarded false (snd (fst (deliver cfg o rpsv (Some m)))) = true.
Proof.
  unfold deliver.
  destruct (use_store cfg) eqn:Hs.
  - pose proof (call_all_guarded (kind_of o) (callbacks cfg (kind_of o)) o
                  (if use_rps cfg then rpsv else None) [Release] m) as Hg.
    destruct (call_all _ _ _ _ _) as [tr m']. simpl in *.
    destruct (use_rps cfg); simpl; rewrite Hg; reflexivity.
  - pose proof (call_all_no_store (kind_of o) (callbacks cfg (kind_of o)) o
                  (if use_rps cfg then rpsv else None)) as [Hn _].
    destruct (call_all _ _ _ _ _) as [tr m']. simpl in *.
    rewrite app_nil_r.
    assert (Hgen : forall h t, touches_store t = false -> guarded h t = true).
    { intros h t. revert h. induction t as [|e t IH]; intros h Ht;
        [reflexivity|].
      destruct e; simpl in *; try discriminate; apply IH; exact Ht. }
    destruct (use_rps cfg); simpl; apply Hgen; exact Hn.
Qed.

Lemma kind_of_response (o : object) :
  kind_of o = RESPONSE <-> ob_type o = Response.
Proof.
  unfold kind_of, class_eqb. case_bool_decide; split; congruence.
Qed.

Lemma kind_of_error (o : object) :
  kind_of o = ERROR <-> ob_type o <> Response.
Proof.
  unfold kind_of, class_eqb. case_bool_decide; split; congruence.
Qed.

(** The poll of the feeds never kills the controller. *)
Lemma reap_step_returns (cfg : config) (k : nat) (c : controller) (w : world) :
  at_ c = AtReap ->
  controllers w !! k = Some c ->
  exists c',
    controllers (_controller cfg k c w) !! k = Some c'
    /\ at_ c' = AtCheck.
Proof.
  intros Hat Hk. unfold _controller. rewrite Hat.
  destruct (reap cfg k 0 (rps_values w) (pools c) (store w))
    as [[ps' bs] m']. simpl.
  eexists. split.
  - apply list_lookup_insert_eq. apply lookup_lt_Some in Hk. exact Hk.
  - reflexivity.
Qed.

End Delivery.

(** ** Exactly-once delivery: what every state of a run satisfies *)

Section Sums.
Context {A : Type}.

Lemma insert_middle (l : list A) (k : nat) (x y : A) :
  l !! k = Some x ->
  l = take k l ++ x :: drop (S k) l
  /\ <[k := y]> l = take k l ++ y :: drop (S k) l.
Proof.
  intros H. split.
  - symmetry. apply take_drop_middle. exact H.
  - apply insert_take_drop. apply lookup_lt_Some in H. exact H.
Qed.

Lemma list_sum_insert (f : A -> nat) (l : list A) (k : nat) (x y : A) :
  l !! k = Some x ->
  (list_sum (map f (<[k := y]> l)) + f x = list_sum (map f l) + f y)%nat.
Proof.
  intros H. destruct (insert_middle l k x y H) as [H1 H2].
  rewrite H2. rewrite H1 at 3.
  rewrite !map_app, !list_sum_app. simpl. lia.
Qed.

Lemma flat_map_insert {B : Type} (f : A -> list B) (l : list A) (k : nat)
      (x y : A) :
  l !! k = Some x ->
  flat_map f (<[k := y]> l) ++ f x ≡ₚ flat_map f l ++ f y.
Proof.
  intros H. destruct (insert_middle l k x y H) as [H1 H2].
  rewrite H2. rewrite H1 at 3.
  rewrite !flat_map_app. simpl.
  rewrite <- !app_assoc.
  apply Permutation_app_head.
  rewrite (Permutation_app_comm (f y) (flat_map f (drop (S k) l) ++ f x)).
  rewrite (Permutation_app_comm (f x) (flat_map f (drop (S k) l) ++ f y)).
  rewrite <- !app_assoc. apply Permutation_app_head.
  apply Permutation_app_comm.
Qed.

End Sums.

Section Reaping.
Import Py Types Pools Callbacks Engine DeliveryProps EngineProps.

Lemma recv_Some (p p' : pool) (r : Request) (o : object) :
  recv p = Some (r, o, p') ->
  exists rest,
    feed p = (r, o) :: rest
    /\ p' = {| decl := decl p; inflight := inflight p; feed := rest |}.
Proof.
  unfold recv. destruct (feed p) as [|[r0 o0] rest]; [discriminate|].
  intros H. injection H as <- <- <-. exists rest. split; reflexivity.
Qed.

Lemma recv_None (p : pool) : recv p = None -> feed p = [].
Proof.
  unfold recv. destruct (feed p) as [|[r0 o0] rest]; [reflexivity|discriminate].
Qed.

(** What one poll of the feeds does: every pool keeps what it has
    outstanding; each outcome taken from a feed makes one batch, for the
    request it answers; at least one is taken if any was ready. *)
Lemma reap_spec (cfg : config) (k : nat) (rpsv : option (Q * Z * Z))
      (ps : list pool) :
  forall (i : nat) (m : option Callbacks.store)
         (ps' : list pool) (bs : list batch) (m' : option Callbacks.store),
    reap cfg k i rpsv ps m = (ps', bs, m') ->
    length ps' = length ps
    /\ map inflight ps' = map inflight ps
    /\ flat_map pool_items ps ≡ₚ flat_map pool_items ps' ++ map b_request bs
    /\ list_sum (map (fun p => length (feed p)) ps)
       = (list_sum (map (fun p => length (feed p)) ps') + length bs)%nat
    /\ ((0 < list_sum (map (fun p => length (feed p)) ps))%nat ->
        (0 < length bs)%nat)
    /\ Forall (batch_ok cfg) bs.
Proof.
  induction ps as [|p rest IH]; intros i m ps' bs m' H; simpl in H.
  - injection H as <- <- <-. simpl. repeat split; try done; try lia.
  - destruct (recv p) as [[[r o] p']|] eqn:Hr.
    + destruct (deliver_routes cfg o rpsv m) as (tr & m1 & Hd & Hc).
      rewrite Hd in H.
      destruct (reap cfg k (S i) rpsv rest m1) as [[ps1 bs1] m2] eqn:E.
      injection H as <- <- <-.
      destruct (IH _ _ _ _ _ E) as (H1 & H2 & H3 & H4 & H5 & H6).
      apply recv_Some in Hr as (fd & Hf & ->).
      simpl. repeat split.
      * f_equal. exact H1.
      * f_equal. exact H2.
      * unfold pool_items at 1 3. simpl. rewrite Hf. simpl.
        rewrite H3. rewrite <- !app_assoc.
        apply Permutation_app_head. simpl.
        rewrite <- !Permutation_middle. reflexivity.
      * rewrite Hf. simpl. rewrite H4. lia.
      * lia.
      * constructor; [|exact H6]. split; simpl; [reflexivity | exact Hc].
    + destruct (reap cfg k (S i) rpsv rest m) as [[ps1 bs1] m2] eqn:E.
      injection H as <- <- <-.
      destruct (IH _ _ _ _ _ E) as (H1 & H2 & H3 & H4 & H5 & H6).
      apply recv_None in Hr.
      simpl. repeat split.
      * f_equal. exact H1.
      * f_equal. exact H2.
      * rewrite H3. rewrite <- app_assoc. reflexivity.
      * rewrite Hr. simpl. exact H4.
      * rewrite Hr. simpl. exact H5.
      * exact H6.
Qed.

End Reaping.

Section Routing.
Import Py Types Pools Callbacks Engine DeliveryProps EngineProps Examples.

(** Every batch a run adds to its log ran the callbacks of one kind. *)
Lemma exec_log_ok (cfg : config) (a : action) (w : world) :
  Forall (batch_ok cfg) (log w) -> Forall (batch_ok cfg) (log (exec cfg a w)).
Proof.
  intros Hl. destruct a as [|k|k p i o|time_| |]; simpl.
  - destruct (ticket_manager w); exact Hl.
  - destruct (controllers w !! k) as [c|]; [|exact Hl].
    unfold _controller. destruct (at_ c); try exact Hl.
    + destruct ((counter c =? 0) && bool_decide (requests w = []));
        exact Hl.
    + destruct (tickets c); [exact Hl|].
      destruct (argmin (map _get_remaining_tasks (pools c))); [|exact Hl].
      destruct (requests w); exact Hl.
    + destruct (reap cfg k 0 (rps_values w) (pools c) (store w))
        as [[ps' bs] m'] eqn:Hreap.
      destruct (reap_spec _ _ _ _ _ _ _ _ _ Hreap) as (_ & _ & _ & _ & _ & R6).
      simpl. apply Forall_app. split; assumption.
  - exact Hl.
  - destruct (rps_pipe w); [exact Hl|].
    destruct (rps_counter w) as [s|]; [|exact Hl].
    destruct (Telemetry.step time_ s); exact Hl.
  - destruct (unfinished_tasks w =? 0); exact Hl.
  - destruct (negb (ticket_manager w) && forallb stopped (controllers w));
      exact Hl.
Qed.

Lemma execs_log_ok (cfg : config) (sched : list action) :
  forall w,
    Forall (batch_ok cfg) (log w) ->
    Forall (batch_ok cfg) (log (execs cfg sched w)).
Proof.
  induction sched as [|a sched IH]; intros w Hl; simpl; [exact Hl|].
  apply IH. apply exec_log_ok. exact Hl.
Qed.





End Routing.

Section Safety.
Import Py Types Pools Callbacks Engine DeliveryProps EngineProps.

(** Permutations of requests are settled by counting occurrences. *)
Lemma perm_count (l1 l2 : list Request) :
  l1 ≡ₚ l2 <->
  forall x, count_occ Request_eq_dec l1 x = count_occ Request_eq_dec l2 x.
Proof. apply Permutation_count_occ. Qed.

Ltac perm_count :=
  repeat match goal with
         | H : _ ≡ₚ _ |- _ => rewrite perm_count in H
         end;
  apply perm_count; intros x0;
  repeat match goal with
         | H : forall x, count_occ _ _ x = count_occ _ _ x |- _ =>
             specialize (H x0)
         end;
  repeat (progress (rewrite ?count_occ_app in *; simpl count_occ in * ));
  repeat match goal with
         | |- context [Request_eq_dec ?a ?b] => destruct (Request_eq_dec a b)
         | H : context [Request_eq_dec ?a ?b] |- _ =>
             destruct (Request_eq_dec a b)
         end;
  try lia.

Lemma alter_none {A : Type} (f : A -> A) (l : list A) (i : nat) :
  l !! i = None -> alter f i l = l.
Proof.
  revert i. induction l as [|y l IH]; intros [|i] H; simpl in *; try done.
  f_equal. apply IH. exact H.
Qed.

Lemma pool_items_request (r : Request) (p : pool) :
  pool_items (_request r p) ≡ₚ r :: pool_items p.
Proof.
  unfold pool_items, _request. simpl. perm_count.
Qed.

Lemma pool_items_finish (i : nat) (o : object) (p : pool) :
  pool_items (finish i o p) ≡ₚ pool_items p.
Proof.
  unfold pool_items, finish.
  destruct (inflight p !! i) as [r|] eqn:E; [|reflexivity]. simpl.
  pose proof (delete_Permutation _ _ _ E) as Hd.
  rewrite map_app. simpl. perm_count.
Qed.

Lemma finish_counts (i : nat) (o : object) (p : pool) :
  (length (inflight (finish i o p)) + length (feed (finish i o p))
   = length (inflight p) + length (feed p))%nat
  /\ (length (inflight (finish i o p)) <= length (inflight p))%nat
  /\ ((i < length (inflight p))%nat ->
      S (length (inflight (finish i o p))) = length (inflight p)).
Proof.
  unfold finish.
  destruct (inflight p !! i) as [r|] eqn:E; simpl.
  - pose proof (lookup_lt_Some _ _ _ E) as Hlt.
    rewrite length_delete by eauto. rewrite length_app. simpl.
    repeat split; lia.
  - apply lookup_ge_None in E. repeat split; lia.
Qed.

Lemma controller_items_nil (c : controller) :
  (inflight_count c + feed_count c = 0)%nat -> controller_items c = [].
Proof.
  unfold inflight_count, feed_count, controller_items.
  induction (pools c) as [|p ps IH]; simpl; [reflexivity|].
  intros H. rewrite IH by lia.
  unfold pool_items.
  destruct (inflight p); simpl in *; [|lia].
  destruct (feed p); simpl in *; [reflexivity | lia].
Qed.

(** The effect on a controller of submitting [r] to its pool [i]. *)
Lemma submit_spec (r : Request) (i : nat) (ps : list pool) (p : pool) :
  ps !! i = Some p ->
  flat_map pool_items (alter (_request r) i ps) ≡ₚ r :: flat_map pool_items ps
  /\ list_sum (map (fun p => length (inflight p)) (alter (_request r) i ps))
     = S (list_sum (map (fun p => length (inflight p)) ps))
  /\ list_sum (map (fun p => length (feed p)) (alter (_request r) i ps))
     = list_sum (map (fun p => length (feed p)) ps)
  /\ alter (_request r) i ps <> [].
Proof.
  intros Hp. rewrite (alter_as_insert _ _ _ _ Hp).
  pose proof (flat_map_insert pool_items ps i p (_request r p) Hp) as Hf.
  pose proof (pool_items_request r p) as Hr.
  pose proof (list_sum_insert (fun p => length (inflight p)) ps i p
                (_request r p) Hp) as Hi.
  pose proof (list_sum_insert (fun p => length (feed p)) ps i p
                (_request r p) Hp) as Hfd.
  simpl in Hi, Hfd. rewrite length_app in Hi. simpl in Hi.
  repeat split; try lia.
  - perm_count.
  - intros Hnil. apply (f_equal length) in Hnil.
    rewrite length_insert in Hnil. apply lookup_lt_Some in Hp.
    simpl in Hnil. lia.
Qed.

(** The effect on a controller of one of its pools finishing a request. *)
Lemma finish_in_spec (p i : nat) (o : object) (c : controller) :
  controller_items (finish_in p i o c) ≡ₚ controller_items c
  /\ (inflight_count (finish_in p i o c) + feed_count (finish_in p i o c)
      = inflight_count c + feed_count c)%nat
  /\ (inflight_count (finish_in p i o c) <= inflight_count c)%nat
  /\ counter (finish_in p i o c) = counter c
  /\ tickets (finish_in p i o c) = tickets c
  /\ at_ (finish_in p i o c) = at_ c
  /\ length (pools (finish_in p i o c)) = length (pools c).
Proof.
  unfold controller_items, inflight_count, feed_count, finish_in. simpl.
  destruct (pools c !! p) as [pl|] eqn:Hp.
  - rewrite (alter_as_insert _ _ _ _ Hp).
    pose proof (flat_map_insert pool_items (pools c) p pl (finish i o pl) Hp)
      as Hf.
    pose proof (pool_items_finish i o pl) as Hr.
    pose proof (list_sum_insert (fun p => length (inflight p)) (pools c) p pl
                  (finish i o pl) Hp) as Hi.
    pose proof (list_sum_insert (fun p => length (feed p)) (pools c) p pl
                  (finish i o pl) Hp) as Hfd.
    destruct (finish_counts i o pl) as (Hc1 & Hc2 & _).
    rewrite length_insert.
    repeat split; try lia.
    perm_count.
  - rewrite (alter_none _ _ _ Hp). repeat split; try reflexivity; lia.
Qed.

Lemma controller_ok_shorter (r : Request) (q : list Request)
      (c : controller) :
  controller_ok (r :: q) c -> controller_ok q c.
Proof.
  intros (H1 & H2 & H3 & H4). split; [exact H1|]. split; [exact H2|].
  split; [exact H3|]. intros H. destruct (H4 H) as [_ Hq]. discriminate.
Qed.

Lemma in_pools_insert (cs : list controller) (k : nat) (c c' : controller) :
  cs !! k = Some c ->
  flat_map controller_items (<[k := c']> cs) ++ controller_items c
  ≡ₚ flat_map controller_items cs ++ controller_items c'.
Proof. apply flat_map_insert. Qed.

Lemma in_pools_add_ticket (cs : list controller) :
  flat_map controller_items (map add_ticket cs)
  = flat_map controller_items cs.
Proof.
  induction cs as [|c cs IH]; simpl; [reflexivity|]. rewrite IH. reflexivity.
Qed.

(** A tick keeps the invariant. *)
Lemma tick_invariant (cfg : config) (staged : list Request) (w : world) :
  invariant cfg staged w -> invariant cfg staged (exec cfg Tick w).
Proof.
  intros [Hi Hc Hs Hu Ht Hl]. simpl.
  destruct (ticket_manager w) eqn:Htm; [|constructor; auto].
  constructor; simpl; try assumption.
  - unfold in_pools, delivered in *. simpl.
    rewrite in_pools_add_ticket. exact Hi.
  - apply Forall_fmap. eapply Forall_impl; [exact Hc|].
    intros c Hok. exact Hok.
  - destruct (controllers w); [done | discriminate].
Qed.

(** A pool finishing a request keeps the invariant. *)
Lemma finish_invariant (cfg : config) (staged : list Request) (w : world)
      (k p i : nat) (o : object) :
  invariant cfg staged w -> invariant cfg staged (exec cfg (Finish k p i o) w).
Proof.
  intros [Hi Hc Hs Hu Ht Hl]. simpl.
  destruct (controllers w !! k) as [c|] eqn:Hk.
  2:{ rewrite (alter_none _ _ _ Hk). destruct w. constructor; auto. }
  rewrite (alter_as_insert _ _ _ _ Hk).
  destruct (finish_in_spec p i o c) as (F1 & F2 & F3 & F4 & F5 & F6 & F7).
  pose proof (Forall_lookup_1 _ _ _ _ Hc Hk) as (K1 & K2 & K3 & K4).
  constructor; simpl; try assumption.
  - unfold in_pools, delivered in *. simpl.
    pose proof (in_pools_insert _ _ _ (finish_in p i o c) Hk) as Hp.
    perm_count.
  - apply Forall_insert; [exact Hc|].
    repeat split.
    + rewrite F4, F2. exact K1.
    + intros Hnil. apply (f_equal length) in Hnil. rewrite F7 in Hnil.
      destruct (pools c); [done | discriminate].
    + rewrite F6. exact K3.
    + rewrite F4. apply K4. rewrite <- F6. assumption.
    + apply K4. rewrite <- F6. assumption.
  - intros Hnil. apply (f_equal length) in Hnil.
    rewrite length_insert in Hnil. destruct (controllers w); [done|discriminate].
Qed.

(** A step of a controller keeps the invariant. *)
Lemma step_invariant (cfg : config) (staged : list Request) (w : world)
      (k : nat) (c : controller) :
  controllers w !! k = Some c ->
  invariant cfg staged w -> invariant cfg staged (_controller cfg k c w).
Proof.
  intros Hk [Hi Hc Hs Hu Ht Hl].
  pose proof (Forall_lookup_1 _ _ _ _ Hc Hk) as (K1 & K2 & K3 & K4).
  assert (Hne : forall c', <[k := c']> (controllers w) <> []).
  { intros c' Hnil. apply (f_equal length) in Hnil.
    rewrite length_insert in Hnil.
    destruct (controllers w); [done | discriminate]. }
  assert (Hsame : forall c',
             controller_items c' = controller_items c ->
             flat_map controller_items (<[k := c']> (controllers w))
             ≡ₚ flat_map controller_items (controllers w)).
  { intros c' Hitems.
    pose proof (in_pools_insert _ _ _ c' Hk) as Hp. rewrite Hitems in Hp.
    apply (Permutation_app_inv_r _ _ _ Hp). }
  unfold _controller.
  destruct (at_ c) eqn:Hat.
  - (* the exit test *)
    destruct ((counter c =? 0) && bool_decide (requests w = [])) eqn:Hexit.
    + apply andb_true_iff in Hexit as [H0 Hq].
      apply Z.eqb_eq in H0. apply bool_decide_eq_true in Hq.
      constructor; simpl; try assumption.
      * unfold in_pools in *. simpl. rewrite Hsame by reflexivity. exact Hi.
      * apply Forall_insert; [exact Hc|]. repeat split; simpl; try assumption.
        discriminate.
      * apply Hne.
    + constructor; simpl; try assumption.
      * unfold in_pools in *. simpl. rewrite Hsame by reflexivity. exact Hi.
      * apply Forall_insert; [exact Hc|]. repeat split; simpl; try assumption;
          discriminate.
      * apply Hne.
  - (* the ticket poll *)
    destruct (tickets c) as [|t] eqn:Htk.
    { constructor; simpl; try assumption.
      * unfold in_pools in *. simpl. rewrite Hsame by reflexivity. exact Hi.
      * apply Forall_insert; [exact Hc|]. repeat split; simpl; try assumption;
          discriminate.
      * apply Hne. }
    destruct (argmin_spec (map _get_remaining_tasks (pools c)))
      as (i & ki & Harg & Hlk & _).
    { destruct (pools c); [done | discriminate]. }
    rewrite Harg.
    rewrite list_lookup_fmap in Hlk.
    destruct (pools c !! i) as [pl|] eqn:Hpl; [|discriminate].
    destruct (requests w) as [|r q] eqn:Hq.
    + constructor; simpl; try assumption.
      * rewrite Hq. unfold in_pools in *. simpl.
        rewrite Hsame by reflexivity. exact Hi.
      * rewrite Hq. apply Forall_insert; [exact Hc|].
        repeat split; simpl; try assumption; discriminate.
      * apply Hne.
      * rewrite Hq. exact Hu.
      * rewrite Hq. exact Ht.
    + destruct (submit_spec r i (pools c) pl Hpl) as (S1 & S2 & S3 & S4).
      constructor; simpl.
      * unfold in_pools, delivered in *. simpl.
        assert (Hitems :
                  controller_items
                    (Ctl (alter (_request r) i (pools c)) (counter c + 1) t
                         AtReap)
                  ≡ₚ r :: controller_items c) by exact S1.
        remember (Ctl (alter (_request r) i (pools c)) (counter c + 1) t
                      AtReap) as c' eqn:Ec'.
        pose proof (in_pools_insert _ _ _ c' Hk) as Hp.
        clear S1 Ec'. perm_count.
      * apply Forall_insert.
        -- eapply Forall_impl; [exact Hc|]. apply controller_ok_shorter.
        -- repeat split; simpl; try assumption; try discriminate.
           unfold inflight_count, feed_count in *. simpl.
           rewrite S2, S3. lia.
      * apply Hne.
      * simpl in Hu. lia.
      * intros Htm. specialize (Ht Htm). discriminate.
      * exact Hl.
  - (* the poll of the feeds *)
    destruct (reap cfg k 0 (rps_values w) (pools c) (store w))
      as [[ps' bs] m'] eqn:Hreap.
    destruct (reap_spec _ _ _ _ _ _ _ _ _ Hreap)
      as (R1 & R2 & R3 & R4 & R5 & R6).
    constructor; simpl; try assumption.
    + unfold in_pools, delivered in *. simpl. rewrite map_app.
      assert (Hitems :
                controller_items c
                ≡ₚ controller_items
                     (Ctl ps' (counter c - Z.of_nat (length bs)) (tickets c)
                          AtCheck) ++ map b_request bs) by exact R3.
      remember (Ctl ps' (counter c - Z.of_nat (length bs)) (tickets c)
                    AtCheck) as c' eqn:Ec'.
      pose proof (in_pools_insert _ _ _ c' Hk) as Hp.
      clear R3 Ec'. perm_count.
    + apply Forall_insert; [exact Hc|].
      repeat split; simpl; try discriminate.
      * unfold inflight_count, feed_count in *. simpl.
        assert (Hinf : list_sum (map (fun p => length (inflight p)) ps')
                       = list_sum (map (fun p => length (inflight p))
                                       (pools c))).
        { rewrite <- (map_map inflight (@length Request) ps'), R2, map_map.
          reflexivity. }
        rewrite Hinf. lia.
      * intros Hnil. rewrite Hnil in R1. simpl in R1.
        destruct (pools c); [done | discriminate].
    + apply Hne.
    + apply Forall_app. split; assumption.
  - destruct w. constructor; auto.
  - destruct w. constructor; auto.
Qed.

(** Every action keeps the invariant. *)
Lemma exec_invariant (cfg : config) (staged : list Request) (a : action)
      (w : world) :
  invariant cfg staged w -> invariant cfg staged (exec cfg a w).
Proof.
  intros Hinv. destruct a as [|k|k p i o|time_| |].
  - apply tick_invariant. exact Hinv.
  - simpl. destruct (controllers w !! k) as [c|] eqn:Hk; [|exact Hinv].
    apply step_invariant; assumption.
  - apply finish_invariant. exact Hinv.
  - simpl. destruct Hinv as [Hi Hc Hs Hu Ht Hl].
    destruct (rps_pipe w) as [|n]; [constructor; auto|].
    destruct (rps_counter w) as [s|]; [|constructor; auto].
    destruct (Telemetry.step time_ s); constructor; auto.
  - simpl. destruct Hinv as [Hi Hc Hs Hu Ht Hl].
    destruct (unfinished_tasks w =? 0) eqn:E; [|constructor; auto].
    constructor; simpl; try assumption.
    intros _. apply Z.eqb_eq in E. rewrite Hu in E.
    destruct (requests w); [reflexivity | simpl in E; lia].
  - simpl. destruct Hinv as [Hi Hc Hs Hu Ht Hl].
    destruct (negb (ticket_manager w) && forallb stopped (controllers w));
      constructor; auto.
Qed.

Lemma execs_invariant (cfg : config) (staged : list Request)
      (sched : list action) :
  forall w, invariant cfg staged w -> invariant cfg staged (execs cfg sched w).
Proof.
  induction sched as [|a sched IH]; intros w Hinv; simpl; [exact Hinv|].
  apply IH. apply exec_invariant. exact Hinv.
Qed.

End Safety.

(** ** The state a run starts from *)

Section Boot.
Import Py Types Pools Callbacks Client Engine DeliveryProps EngineProps.

Lemma group_append_nonempty (k : Z) (p : RequestPool)
      (gs : list (Z * list RequestPool)) :
  Forall (fun g => snd g <> []) gs ->
  Forall (fun g => snd g <> []) (group_append k p gs)
  /\ group_append k p gs <> [].
Proof.
  induction gs as [|[k' ps] gs IH]; intros H; simpl.
  - split; [|discriminate]. constructor; [discriminate | constructor].
  - inversion H as [|g gs' Hg Hgs]; subst.
    destruct (k =? k').
    + split; [|discriminate]. constructor; [|exact Hgs].
      simpl. destruct ps; discriminate.
    + split; [|discriminate]. constructor; [exact Hg|]. apply IH. exact Hgs.
Qed.

(** Every group of [partition] has a pool, and some controller gets a pool
    as soon as the client has one. *)
Lemma partition_spec (ps : list RequestPool) :
  Forall (fun g => snd g <> []) (snd (partition ps))
  /\ (ps <> [] -> fst (partition ps) <> [] \/ snd (partition ps) <> []).
Proof.
  unfold partition.
  assert (H : forall acc,
             Forall (fun g => snd g <> []) (snd acc) ->
             let res := fold_left
                          (fun acc p =>
                             match id_ p with
                             | None => (fst acc ++ [p], snd acc)
                             | Some k => (fst acc, group_append k p (snd acc))
                             end) ps acc in
             Forall (fun g => snd g <> []) (snd res)
             /\ (ps <> [] \/ fst acc <> [] \/ snd acc <> [] ->
                 fst res <> [] \/ snd res <> [])).
  { induction ps as [|p ps IH]; intros acc Hacc; simpl.
    - split; [exact Hacc|]. intros [H|H]; [done | exact H].
    - destruct (id_ p) as [k|].
      + destruct (group_append_nonempty k p (snd acc) Hacc) as [G1 G2].
        destruct (IH (fst acc, group_append k p (snd acc)) G1) as [I1 I2].
        split; [exact I1|]. intros _. apply I2. right. right. exact G2.
      + destruct (IH (fst acc ++ [p], snd acc) Hacc) as [I1 I2].
        split; [exact I1|]. intros _. apply I2. right. left.
        simpl. destruct (fst acc); discriminate. }
  destruct (H ([], []) (List.Forall_nil _)) as [H1 H2].
  split; [exact H1|]. intros Hne. apply H2. left. exact Hne.
Qed.

Lemma omap_imap_controllers (np : Z) (mc : Q) {A : Type}
      (g : A -> list RequestPool) (l : list A) :
  forall f : nat -> A -> process,
    (forall i x, exists ch, f i x = Controller (g x) ch) ->
    omap (controller_of np mc) (imap f l)
    = map (fun x => Ctl (map (_setup np mc) (g x)) 0 O AtCheck) l.
Proof.
  induction l as [|x l IH]; intros f Hf; [reflexivity|].
  rewrite imap_cons. simpl.
  destruct (Hf 0%nat x) as [ch ->]. simpl. f_equal.
  apply IH. intros i y. apply Hf.
Qed.

(** The controllers [run] starts: one for each pool without an id, then one
    for each group. *)
Lemma boot_controllers (c : FastClient) (start_ : Q) (w0 : world) :
  boot c start_ = Some w0 ->
  requests w0 = _requests c
  /\ unfinished_tasks w0 = Z.of_nat (length (_requests c))
  /\ ticket_manager w0 = true
  /\ log w0 = []
  /\ controllers w0
     = map (fun p => Ctl (map (_setup (_num_pools c) (_max_connections c)) [p])
                         0 O AtCheck)
           (fst (partition (_pools c)))
       ++ map (fun g => Ctl (map (_setup (_num_pools c) (_max_connections c))
                                 (snd g))
                            0 O AtCheck)
              (snd (partition (_pools c))).
Proof.
  unfold boot, run.
  destruct (negb (_callback_registered c)); [discriminate|].
  destruct (partition (_pools c)) as [solo gs]. simpl.
  intros H. injection H as <-. simpl. repeat split.
  rewrite !omap_app.
  replace (omap (controller_of (_num_pools c) (_max_connections c))
                (if _use_rps c then [RpsCounter] else []))
    with (@nil controller) by (destruct (_use_rps c); reflexivity).
  simpl. rewrite app_nil_r. f_equal.
  - apply (omap_imap_controllers _ _ (fun p => [p])).
    intros i x. eexists. reflexivity.
  - apply (omap_imap_controllers _ _ snd).
    intros i x. eexists. reflexivity.
Qed.

Lemma idle_controller_items (np : Z) (mc : Q) (ps : list RequestPool) :
  controller_items (Ctl (map (_setup np mc) ps) 0 O AtCheck) = []
  /\ inflight_count (Ctl (map (_setup np mc) ps) 0 O AtCheck) = O
  /\ feed_count (Ctl (map (_setup np mc) ps) 0 O AtCheck) = O.
Proof.
  unfold controller_items, inflight_count, feed_count. simpl.
  induction ps as [|p ps (IH1 & IH2 & IH3)]; simpl; [repeat split|].
  rewrite IH1, IH2, IH3. repeat split.
Qed.

Lemma group_append_perm (k : Z) (p : RequestPool)
      (gs : list (Z * list RequestPool)) :
  flat_map snd (group_append k p gs) ≡ₚ p :: flat_map snd gs.
Proof.
  induction gs as [|[k' ps] gs IH]; simpl; [reflexivity|].
  destruct (k =? k'); simpl.
  - rewrite <- app_assoc. simpl. rewrite <- Permutation_middle. reflexivity.
  - rewrite IH. rewrite <- Permutation_middle. reflexivity.
Qed.

(** [partition] neither loses nor duplicates a pool. *)
Lemma partition_perm (ps : list RequestPool) :
  fst (partition ps) ++ flat_map snd (snd (partition ps)) ≡ₚ ps.
Proof.
  unfold partition.
  assert (H : forall acc,
             let res := fold_left
                          (fun acc p =>
                             match id_ p with
                             | None => (fst acc ++ [p], snd acc)
                             | Some k => (fst acc, group_append k p (snd acc))
                             end) ps acc in
             fst res ++ flat_map snd (snd res)
             ≡ₚ (fst acc ++ flat_map snd (snd acc)) ++ ps).
  { induction ps as [|p ps IH]; intros acc; simpl.
    - rewrite app_nil_r. reflexivity.
    - destruct (id_ p) as [k|]; rewrite IH; simpl.
      + rewrite group_append_perm.
        rewrite <- !app_assoc. apply Permutation_app_head.
        simpl. rewrite <- Permutation_middle. reflexivity.
      + rewrite <- !app_assoc. apply Permutation_app_head. simpl.
        rewrite <- Permutation_middle. reflexivity. }
  rewrite (H ([], [])). reflexivity.
Qed.

(** Every pool of the client is set up by exactly one controller. *)
Lemma each_pool_has_one_controller (c : FastClient) (start_ : Q)
      (w0 : world) :
  boot c start_ = Some w0 ->
  flat_map (fun ctl => map decl (pools ctl)) (controllers w0) ≡ₚ _pools c.
Proof.
  intros Hboot.
  destruct (boot_controllers c start_ w0 Hboot) as (_ & _ & _ & _ & B5).
  rewrite B5, flat_map_app.
  assert (H1 : forall (A : Type) (g : A -> list RequestPool) (l : list A),
             flat_map (fun ctl => map decl (pools ctl))
               (map (fun x => Ctl (map (_setup (_num_pools c)
                                               (_max_connections c)) (g x))
                                  0 O AtCheck) l)
             = flat_map g l).
  { intros A g l. induction l as [|x l IH]; simpl; [reflexivity|].
    rewrite IH. f_equal. rewrite map_map. simpl. apply map_id. }
  rewrite (H1 _ (fun p => [p])), (H1 _ snd).
  assert (Hs : forall l : list RequestPool, flat_map (fun p => [p]) l = l).
  { intros l. induction l as [|p ps IH]; simpl; congruence. }
  rewrite Hs. apply partition_perm.
Qed.

(** The invariant holds when the run starts. *)
Lemma boot_invariant (c : FastClient) (start_ : Q) (w0 : world) :
  boot c start_ = Some w0 ->
  _pools c <> [] ->
  invariant (config_of c) (_requests c) w0.
Proof.
  intros Hboot Hpools.
  destruct (boot_controllers c start_ w0 Hboot) as (B1 & B2 & B3 & B4 & B5).
  destruct (partition_spec (_pools c)) as [P1 P2].
  assert (Hok : Forall (controller_ok (requests w0)) (controllers w0)).
  { rewrite B5. apply Forall_app. split.
    - apply Forall_fmap. apply Forall_forall. intros p _.
      unfold compose. repeat split; simpl; discriminate.
    - apply Forall_fmap. eapply Forall_impl; [exact P1|].
      intros g Hg.
      destruct (idle_controller_items (_num_pools c) (_max_connections c)
                                      (snd g)) as (_ & I2 & I3).
      unfold compose. repeat split; simpl; try discriminate.
      + rewrite I2, I3. reflexivity.
      + intros Hnil. apply Hg. destruct (snd g); [reflexivity | discriminate]. }
  assert (Hidle : in_pools w0 = []).
  { unfold in_pools. rewrite B5, flat_map_app.
    assert (H1 : forall (A : Type) (g : A -> list RequestPool) (l : list A),
               flat_map controller_items
                 (map (fun x => Ctl (map (_setup (_num_pools c)
                                                 (_max_connections c)) (g x))
                                    0 O AtCheck) l) = []).
    { intros A g l. induction l as [|x l IH]; simpl; [reflexivity|].
      rewrite IH.
      destruct (idle_controller_items (_num_pools c) (_max_connections c)
                                      (g x)) as (I1 & _ & _).
      rewrite I1. reflexivity. }
    rewrite (H1 _ (fun p => [p])), (H1 _ snd). reflexivity. }
  constructor.
  - rewrite B1, Hidle. unfold delivered. rewrite B4. simpl.
    rewrite app_nil_r. reflexivity.
  - exact Hok.
  - rewrite B5. destruct (P2 Hpools) as [H|H].
    + destruct (fst (partition (_pools c))); [done | discriminate].
    + destruct (snd (partition (_pools c))); [done|].
      intros Hnil. apply app_eq_nil in Hnil as [_ Hnil]. discriminate.
  - rewrite B1, B2. reflexivity.
  - rewrite B3. discriminate.
  - rewrite B4. constructor.
Qed.

End Boot.

(** ** Exactly-once delivery: every run comes to its end *)

Section Progress.
Import Py Types Pools Callbacks Engine DeliveryProps EngineProps.

(** A measure that can always be made smaller later on reaches zero. *)
Lemma eventually_zero (f : nat -> nat) :
  (forall n, (0 < f n)%nat -> exists m, (n < m)%nat /\ (f m < f n)%nat) ->
  forall n, exists m, (n <= m)%nat /\ f m = 0%nat.
Proof.
  intros Hdec n.
  remember (f n) as v eqn:Hv. revert n Hv.
  induction v as [v IH] using lt_wf_ind. intros n Hv.
  destruct (Nat.eq_dec v 0%nat) as [->|Hpos].
  - exists n. split; [lia | symmetry; exact Hv].
  - destruct (Hdec n) as (m & Hm & Hlt); [lia|].
    destruct (IH (f m) ltac:(lia) m eq_refl) as (m' & Hm' & H0).
    exists m'. split; [lia | exact H0].
Qed.

Lemma after_S (cfg : config) (sched : nat -> action) (w0 : world) (n : nat) :
  after cfg sched w0 (S n) = exec cfg (sched n) (after cfg sched w0 n).
Proof.
  unfold after, execs. simpl. rewrite fold_left_app. reflexivity.
Qed.

Lemma after_invariant (cfg : config) (staged : list Request)
      (sched : nat -> action) (w0 : world) (n : nat) :
  invariant cfg staged w0 -> invariant cfg staged (after cfg sched w0 n).
Proof. intros H. apply execs_invariant. exact H. Qed.

(** A step of a controller, seen from the controller. *)
Lemma step_local (cfg : config) (k : nat) (c : controller) (w : world) :
  controllers w !! k = Some c ->
  controller_ok (requests w) c ->
  exists c' q' n,
    local_step (requests w) c c' q' n
    /\ controllers (_controller cfg k c w) = <[k := c']> (controllers w)
    /\ requests (_controller cfg k c w) = q'
    /\ ticket_manager (_controller cfg k c w) = ticket_manager w.
Proof.
  intros Hk (K1 & K2 & K3 & K4). unfold _controller.
  destruct (at_ c) eqn:Hat.
  - destruct ((counter c =? 0) && bool_decide (requests w = [])) eqn:Hexit.
    + apply andb_true_iff in Hexit as [H0 Hq].
      apply Z.eqb_eq in H0. apply bool_decide_eq_true in Hq.
      eexists _, _, _. split; [apply ls_exit; assumption|]. repeat split.
    + eexists _, _, _. split; [apply ls_check; [assumption|]|repeat split].
      intros [H0 Hq]. rewrite H0, Hq in Hexit. simpl in Hexit.
      try rewrite bool_decide_eq_true_2 in Hexit by reflexivity. discriminate.
  - destruct (tickets c) as [|t] eqn:Htk.
    { eexists _, _, _. split; [apply ls_no_ticket; assumption|repeat split]. }
    destruct (argmin_spec (map _get_remaining_tasks (pools c)))
      as (i & ki & Harg & _).
    { destruct (pools c); [done | discriminate]. }
    rewrite Harg.
    destruct (requests w) as [|r q] eqn:Hq.
    + eexists _, _, _. split; [eapply ls_empty; eauto|].
      repeat split; simpl; rewrite ?Hq; reflexivity.
    + exists (Ctl (alter (_request r) i (pools c)) (counter c + 1) t AtReap),
        q, 0%nat.
      split; [apply (ls_admit _ c t r q); auto; apply length_alter|].
      repeat split; simpl; rewrite ?Hq; reflexivity.
  - destruct (reap cfg k 0 (rps_values w) (pools c) (store w))
      as [[ps' bs] m'] eqn:Hreap.
    destruct (reap_spec _ _ _ _ _ _ _ _ _ Hreap)
      as (R1 & R2 & R3 & R4 & R5 & R6).
    exists (Ctl ps' (counter c - Z.of_nat (length bs)) (tickets c) AtCheck),
      (requests w), (length bs).
    split; [apply ls_reap; assumption | repeat split].
  - exists c, (requests w), 0%nat.
    split; [apply ls_stopped; assumption|]. repeat split.
    symmetry. apply list_insert_id. exact Hk.
  - done.
Qed.

(** The queue never grows, and a stopped ticket manager stays stopped. *)
Lemma exec_queue (cfg : config) (staged : list Request) (a : action)
      (w : world) :
  invariant cfg staged w ->
  (length (requests (exec cfg a w)) <= length (requests w))%nat
  /\ (ticket_manager w = false -> ticket_manager (exec cfg a w) = false).
Proof.
  intros Hinv. destruct a as [|k|k p i o|time_| |]; simpl.
  - destruct (ticket_manager w) eqn:E; simpl; split; auto; discriminate.
  - destruct (controllers w !! k) as [c|] eqn:Hk; [|split; auto].
    pose proof (Forall_lookup_1 _ _ _ _ (inv_controllers _ _ _ Hinv) Hk) as Hok.
    destruct (step_local cfg k c w Hk Hok) as (c' & q' & n & Hl & _ & Hq & Ht).
    rewrite Hq, Ht. split; [|auto].
    inversion Hl; subst; try lia.
    match goal with H : requests w = _ :: _ |- _ => rewrite H end.
    simpl. lia.
  - split; auto.
  - destruct (rps_pipe w); [split; auto|].
    destruct (rps_counter w) as [s|]; [|split; auto].
    destruct (Telemetry.step time_ s); split; auto.
  - destruct (unfinished_tasks w =? 0); split; auto.
  - destruct (negb (ticket_manager w) && forallb stopped (controllers w));
      split; auto.
Qed.

End Progress.

Section Draining.
Import Py Types Pools Callbacks Engine DeliveryProps EngineProps.

Lemma first_controller (cfg : config) (staged : list Request) (w : world) :
  invariant cfg staged w ->
  exists c0, controllers w !! 0%nat = Some c0
             /\ controller_ok (requests w) c0.
Proof.
  intros Hinv. pose proof (inv_some _ _ _ Hinv) as Hne.
  destruct (controllers w) as [|c0 cs] eqn:E; [done|].
  exists c0. split; [reflexivity|].
  pose proof (inv_controllers _ _ _ Hinv) as Hc. rewrite E in Hc.
  inversion Hc. assumption.
Qed.

Lemma poll_dist_le (c : controller) : (poll_dist c <= 3)%nat.
Proof. unfold poll_dist. destruct (tickets c), (at_ c); lia. Qed.

Lemma to_poll_le (w : world) : (to_poll w <= 3)%nat.
Proof.
  unfold to_poll. destruct (controllers w !! 0%nat); [apply poll_dist_le|lia].
Qed.

(** No action puts the end of the admissions further away. *)
Lemma waiting_mono (cfg : config) (staged : list Request) (a : action)
      (w : world) :
  invariant cfg staged w ->
  (waiting (exec cfg a w) <= waiting w)%nat.
Proof.
  intros Hinv.
  destruct (first_controller cfg staged w Hinv) as (c0 & H0 & Hok0).
  destruct a as [|k|k p i o|time_| |]; simpl.
  - destruct (ticket_manager w) eqn:Htm; [|lia].
    unfold waiting, to_poll. simpl. rewrite Htm.
    rewrite list_lookup_fmap, H0. simpl.
    destruct (requests w); [lia|].
    unfold poll_dist. simpl. destruct (tickets c0), (at_ c0); simpl; lia.
  - destruct (controllers w !! k) as [c|] eqn:Hk; [|lia].
    pose proof (Forall_lookup_1 _ _ _ _ (inv_controllers _ _ _ Hinv) Hk) as Hok.
    destruct (step_local cfg k c w Hk Hok) as (c' & q' & n & Hl & Hc & Hq & Ht).
    pose proof (to_poll_le (_controller cfg k c w)) as Hle.
    unfold waiting. rewrite Hq, Ht.
    assert (Hsame : poll_dist c' = poll_dist c ->
                    to_poll (_controller cfg k c w) = to_poll w).
    { intros Hd. unfold to_poll. rewrite Hc, H0.
      destruct k as [|k].
      - rewrite list_lookup_insert_eq by (apply lookup_lt_Some in Hk; exact Hk).
        rewrite Hk in H0. injection H0 as <-. exact Hd.
      - rewrite list_lookup_insert_ne by discriminate. rewrite H0.
        reflexivity. }
    assert (Hless : (poll_dist c' <= poll_dist c)%nat ->
                    (to_poll (_controller cfg k c w) <= to_poll w)%nat).
    { intros Hd. unfold to_poll. rewrite Hc, H0.
      destruct k as [|k].
      - rewrite list_lookup_insert_eq by (apply lookup_lt_Some in Hk; exact Hk).
        rewrite Hk in H0. injection H0 as <-. exact Hd.
      - rewrite list_lookup_insert_ne by discriminate. rewrite H0. lia. }
    clear Hq Ht.
    assert (Hpd : forall t l, tickets c = t -> at_ c = l ->
                              poll_dist c
                              = poll_dist (Ctl (pools c) (counter c) t l)).
    { intros t l <- <-. reflexivity. }
    destruct (requests w) as [|r0 q0] eqn:Eq.
    { inversion Hl; subst; try discriminate; simpl; lia. }
    inversion Hl; subst; try discriminate.
    + specialize (Hless ltac:(rewrite (Hpd _ _ eq_refl H); unfold poll_dist;
                              simpl; destruct (tickets c); lia)).
      simpl length. lia.
    + specialize (Hless ltac:(rewrite (Hpd _ _ H1 H); unfold poll_dist;
                              simpl; lia)).
      simpl length. lia.
    + match goal with H : _ :: _ = _ :: _ |- _ => injection H as <- <- end.
      match goal with
      | |- context [match ?l with [] => _ | _ :: _ => _ end] => destruct l
      end; simpl length; lia.
    + specialize (Hless ltac:(rewrite (Hpd _ _ eq_refl H); unfold poll_dist;
                              simpl; destruct (tickets c); lia)).
      simpl length. lia.
    + specialize (Hless ltac:(lia)). simpl length. lia.
  - unfold waiting, to_poll. simpl.
    rewrite list_lookup_alter. destruct (decide (k = 0%nat)) as [->|Hne].
    + rewrite H0. simpl. unfold poll_dist. simpl. lia.
    + rewrite H0. lia.
  - destruct (rps_pipe w); [lia|].
    destruct (rps_counter w) as [s|]; [|unfold waiting, to_poll; simpl; lia].
    destruct (Telemetry.step time_ s); unfold waiting, to_poll; simpl; lia.
  - destruct (unfinished_tasks w =? 0); [|lia].
    unfold waiting, to_poll. simpl. destruct (ticket_manager w); lia.
  - destruct (negb (ticket_manager w) && forallb stopped (controllers w));
      unfold waiting, to_poll; simpl; lia.
Qed.

(** The needed action brings it nearer. *)
Lemma waiting_needed (cfg : config) (staged : list Request) (w : world) :
  invariant cfg staged w ->
  (0 < waiting w)%nat ->
  (waiting (exec cfg (needed w) w) < waiting w)%nat.
Proof.
  intros Hinv Hpos.
  destruct (first_controller cfg staged w Hinv) as (c0 & H0 & Hok0).
  pose proof (inv_unfinished _ _ _ Hinv) as Hu.
  pose proof (inv_tickets _ _ _ Hinv) as Ht.
  destruct (step_local cfg 0 c0 w H0 Hok0)
    as (c' & q' & n & Hl & Hc & Hq & Ht').
  unfold needed. destruct (requests w) as [|r q] eqn:Eq.
  - simpl. rewrite Hu. simpl.
    unfold waiting in *. simpl. rewrite Eq in *.
    destruct (ticket_manager w); simpl in *; lia.
  - rewrite H0.
    assert (Htm : ticket_manager w = true).
    { destruct (ticket_manager w); [reflexivity|].
      specialize (Ht eq_refl). discriminate. }
    destruct (tickets c0) as [|t] eqn:Htk.
    + simpl. rewrite Htm. unfold waiting, to_poll. simpl.
      rewrite Eq, Htm, list_lookup_fmap, H0. simpl.
      unfold poll_dist. simpl. rewrite Htk.
      destruct (at_ c0); simpl; lia.
    + simpl. rewrite H0.
      pose proof (to_poll_le (_controller cfg 0 c0 w)) as Hle.
      assert (Hpoll : to_poll (_controller cfg 0 c0 w) = poll_dist c').
      { unfold to_poll. rewrite Hc.
        rewrite list_lookup_insert_eq by (apply lookup_lt_Some in H0; exact H0).
        reflexivity. }
      unfold waiting. rewrite Hq, Ht', Htm. unfold to_poll at 2.
      rewrite H0, Eq. clear Hq Ht'.
      destruct Hok0 as (_ & _ & _ & Hex).
      inversion Hl; subst; try discriminate; try congruence.
      * rewrite Hpoll. unfold poll_dist. simpl. rewrite Htk, H. simpl. lia.
      * match goal with H : _ :: _ = _ :: _ |- _ => injection H as <- <- end.
        match goal with
        | |- context [match ?l with [] => _ | _ :: _ => _ end] => destruct l
        end; simpl length; lia.
      * rewrite Hpoll. unfold poll_dist. simpl. rewrite Htk, H. simpl. lia.
      * destruct (Hex H) as [_ Hq]. discriminate.
Qed.

(** States equally far from it need the same action. *)
Lemma needed_stable (cfg : config) (staged : list Request) (w w' : world) :
  invariant cfg staged w ->
  invariant cfg staged w' ->
  waiting w' = waiting w ->
  (0 < waiting w)%nat ->
  needed w' = needed w.
Proof.
  intros Hinv Hinv' Heq Hpos.
  destruct (first_controller cfg staged w Hinv) as (c0 & H0 & _).
  destruct (first_controller cfg staged w' Hinv') as (c0' & H0' & _).
  pose proof (inv_tickets _ _ _ Hinv) as Ht.
  pose proof (inv_tickets _ _ _ Hinv') as Ht'.
  pose proof (to_poll_le w) as Hle. pose proof (to_poll_le w') as Hle'.
  unfold needed, waiting in *. unfold to_poll in *.
  rewrite H0 in *. rewrite H0' in *.
  destruct (requests w) as [|r q] eqn:Eq;
    destruct (requests w') as [|r' q'] eqn:Eq'; simpl length in *.
  - reflexivity.
  - destruct (ticket_manager w), (ticket_manager w'); lia.
  - destruct (ticket_manager w), (ticket_manager w'); lia.
  - assert (Htm : ticket_manager w = true).
    { destruct (ticket_manager w); [reflexivity|].
      specialize (Ht eq_refl). discriminate. }
    assert (Htm' : ticket_manager w' = true).
    { destruct (ticket_manager w'); [reflexivity|].
      specialize (Ht' eq_refl). discriminate. }
    rewrite Htm, Htm' in Heq.
    assert (Hpd : poll_dist c0' = poll_dist c0) by lia.
    unfold poll_dist in Hpd.
    destruct (tickets c0), (tickets c0'); try reflexivity;
      destruct (at_ c0), (at_ c0'); simpl in Hpd; lia.
Qed.

Section Schedule.
Variable cfg : config.
Variable staged : list Request.
Variable sched : nat -> action.
Variable w0 : world.
Hypothesis Hinv0 : invariant cfg staged w0.
Hypothesis Hfair : fair cfg w0 sched.

Lemma waiting_later (n d : nat) :
  (waiting (after cfg sched w0 (n + d)) <= waiting (after cfg sched w0 n))%nat.
Proof.
  induction d as [|d IH].
  - rewrite Nat.add_0_r. lia.
  - rewrite Nat.add_succ_r, after_S.
    pose proof (waiting_mono cfg staged (sched (n + d)%nat)
                  (after cfg sched w0 (n + d))
                  (after_invariant _ _ _ _ _ Hinv0)) as H.
    lia.
Qed.

Lemma fair_needed (n : nat) :
  exists m, (n <= m)%nat /\ sched m = needed (after cfg sched w0 n).
Proof.
  unfold needed.
  destruct (requests (after cfg sched w0 n)).
  - apply (fair_join _ _ _ Hfair).
  - destruct (controllers (after cfg sched w0 n) !! 0%nat) as [c|].
    + destruct (tickets c).
      * apply (fair_tick _ _ _ Hfair).
      * apply (fair_step _ _ _ Hfair).
        pose proof (inv_some _ _ _ Hinv0) as Hne.
        destruct (controllers w0); [done | simpl; lia].
    + apply (fair_tick _ _ _ Hfair).
Qed.

(** Under a fair schedule the queue gets empty and the ticket manager is
    stopped. *)
Lemma drained :
  exists n,
    requests (after cfg sched w0 n) = []
    /\ ticket_manager (after cfg sched w0 n) = false.
Proof.
  destruct (eventually_zero (fun n => waiting (after cfg sched w0 n)))
    with (n := 0%nat) as (n & _ & Hz).
  - intros n Hpos.
    destruct (fair_needed n) as (m & Hm & Hact).
    pose proof (waiting_later n (m - n)) as Hle.
    replace (n + (m - n))%nat with m in Hle by lia.
    destruct (Nat.eq_dec (waiting (after cfg sched w0 m))
                         (waiting (after cfg sched w0 n))) as [Heq|Hne].
    + exists (S m). split; [lia|].
      rewrite after_S, Hact.
      rewrite <- (needed_stable cfg staged _ (after cfg sched w0 m)
                    (after_invariant _ _ _ _ _ Hinv0)
                    (after_invariant _ _ _ _ _ Hinv0) Heq Hpos).
      pose proof (waiting_needed cfg staged (after cfg sched w0 m)
                    (after_invariant _ _ _ _ _ Hinv0)) as Hdec.
      lia.
    + exists m. split; [|lia].
      destruct (Nat.eq_dec m n) as [->|]; [congruence | lia].
  - exists n. unfold waiting in Hz.
    destruct (requests (after cfg sched w0 n)); [|simpl in Hz; lia].
    destruct (ticket_manager (after cfg sched w0 n)); [lia|].
    split; reflexivity.
Qed.

End Schedule.

End Draining.

Section Finishing.
Import Py Types Pools Callbacks Engine DeliveryProps EngineProps.

Lemma inflight_count_same (ps ps' : list pool) :
  map inflight ps' = map inflight ps ->
  list_sum (map (fun p => length (inflight p)) ps')
  = list_sum (map (fun p => length (inflight p)) ps).
Proof.
  intros H.
  rewrite <- (map_map inflight (@length Request) ps'), H, map_map.
  reflexivity.
Qed.

Lemma unblocked_dec (c : controller) : {unblocked c} + {~ unblocked c}.
Proof.
  unfold unblocked.
  destruct (decide (at_ c = Exited)) as [He|He].
  - right. intros [H _]. contradiction.
  - destruct (tickets c) as [|t].
    + destruct (feed_count c) as [|f].
      * destruct (inflight_count c) as [|i].
        -- left. split; [exact He | right; right; reflexivity].
        -- right. intros [_ [H|[H|H]]]; try congruence.
      * left. split; [exact He | right; left; discriminate].
    + left. split; [exact He | left; discriminate].
Defined.

(** With the queue empty, a step of a controller leaves it less to do,
    unless it can only wait for its pools; and it never changes what the
    pools have outstanding. *)
Lemma local_step_left_over (c c' : controller) (q' : list Request) (n : nat) :
  local_step [] c c' q' n ->
  controller_ok [] c ->
  ((left_over c' < left_over c)%nat
   \/ (left_over c' = left_over c /\ ~ unblocked c))
  /\ map inflight (pools c') = map inflight (pools c).
Proof.
  intros Hl (K1 & K2 & K3 & K4).
  inversion Hl; subst; try discriminate; simpl.
  - (* leaves the loop *)
    split; [|reflexivity]. left.
    unfold left_over. simpl. rewrite H. lia.
  - (* goes on to the ticket poll *)
    split; [|reflexivity].
    assert (Hc : (inflight_count c + feed_count c <> 0)%nat).
    { intros Hz. apply H0. split; [|reflexivity]. rewrite K1, Hz.
      reflexivity. }
    unfold left_over, rank, unblocked, inflight_count, feed_count in *.
    simpl. rewrite H.
    destruct (tickets c);
      destruct (list_sum (map (fun p => length (feed p)) (pools c)));
      destruct (list_sum (map (fun p => length (inflight p)) (pools c)));
      lia.
  - (* no ticket *)
    split; [|reflexivity].
    unfold left_over, rank, unblocked, inflight_count, feed_count in *.
    simpl. rewrite H, H0.
    destruct (list_sum (map (fun p => length (feed p)) (pools c)));
      destruct (list_sum (map (fun p => length (inflight p)) (pools c)));
      lia.
  - (* a ticket and nothing to take *)
    split; [|reflexivity]. left.
    unfold left_over, rank, inflight_count, feed_count in *.
    simpl. rewrite H, H0.
    destruct t;
      destruct (list_sum (map (fun p => length (feed p)) (pools c)));
      destruct (list_sum (map (fun p => length (inflight p)) (pools c)));
      lia.
  - (* the poll of the feeds *)
    split; [|assumption].
    pose proof (inflight_count_same _ _ H0) as Hi.
    unfold left_over, rank, unblocked, inflight_count, feed_count in *.
    simpl. rewrite H, Hi.
    destruct (tickets c);
      destruct (list_sum (map (fun p => length (feed p)) (pools c))) eqn:Ef;
      destruct (list_sum (map (fun p => length (feed p)) ps')) eqn:Ef';
      destruct (list_sum (map (fun p => length (inflight p)) (pools c)));
      try (specialize (H2 ltac:(lia))); lia.
  - (* has left the loop *)
    split; [|reflexivity]. right. split; [reflexivity|].
    intros [Hu _]. contradiction.
Qed.

Lemma inflight_le_count (c : controller) (p : nat) (pl : pool) :
  pools c !! p = Some pl ->
  (length (inflight pl) <= inflight_count c)%nat.
Proof.
  intros Hp. unfold inflight_count.
  destruct (insert_middle _ _ _ pl Hp) as [H1 _].
  rewrite H1, map_app, list_sum_app. simpl. lia.
Qed.

(** A pool that finishes a request leaves its controller less to do; one
    that has none to finish changes nothing. *)
Lemma finish_in_left_over (p i : nat) (o : object) (c : controller) :
  controller_ok [] c ->
  finish_in p i o c = c
  \/ (exists pl, pools c !! p = Some pl
                 /\ (i < length (inflight pl))%nat
                 /\ (left_over (finish_in p i o c) < left_over c)%nat).
Proof.
  intros (K1 & K2 & K3 & K4).
  destruct (pools c !! p) as [pl|] eqn:Hp.
  2:{ left. unfold finish_in. rewrite (alter_none _ _ _ Hp).
      destruct c. reflexivity. }
  destruct (inflight pl !! i) as [r|] eqn:Hi.
  2:{ left. unfold finish_in. rewrite (alter_as_insert _ _ _ _ Hp).
      unfold finish. rewrite Hi. rewrite list_insert_id by exact Hp.
      destruct c. reflexivity. }
  right. exists pl. pose proof (lookup_lt_Some _ _ _ Hi) as Hlt.
  split; [reflexivity|]. split; [exact Hlt|].
  pose proof (inflight_le_count c p pl Hp) as Hle.
  destruct (finish_counts i o pl) as (F1 & _ & F3). specialize (F3 Hlt).
  pose proof (list_sum_insert (fun p => length (inflight p)) (pools c) p pl
                (finish i o pl) Hp) as Si.
  pose proof (list_sum_insert (fun p => length (feed p)) (pools c) p pl
                (finish i o pl) Hp) as Sf.
  simpl in Si, Sf.
  unfold left_over, rank, inflight_count, feed_count, finish_in in *. simpl.
  rewrite (alter_as_insert _ _ _ _ Hp).
  destruct (at_ c) eqn:Hat; try contradiction.
  - destruct (tickets c);
      destruct (list_sum (map (fun p => length (feed p))
                              (<[p := finish i o pl]> (pools c))));
      destruct (list_sum (map (fun p => length (inflight p))
                              (<[p := finish i o pl]> (pools c))));
      destruct (list_sum (map (fun p => length (feed p)) (pools c)));
      destruct (list_sum (map (fun p => length (inflight p)) (pools c)));
      lia.
  - destruct (tickets c);
      destruct (list_sum (map (fun p => length (feed p))
                              (<[p := finish i o pl]> (pools c))));
      destruct (list_sum (map (fun p => length (inflight p))
                              (<[p := finish i o pl]> (pools c))));
      destruct (list_sum (map (fun p => length (feed p)) (pools c)));
      destruct (list_sum (map (fun p => length (inflight p)) (pools c)));
      lia.
  - destruct (tickets c);
      destruct (list_sum (map (fun p => length (feed p))
                              (<[p := finish i o pl]> (pools c))));
      destruct (list_sum (map (fun p => length (inflight p))
                              (<[p := finish i o pl]> (pools c))));
      destruct (list_sum (map (fun p => length (feed p)) (pools c)));
      destruct (list_sum (map (fun p => length (inflight p)) (pools c)));
      lia.
  - destruct (K4 eq_refl) as [Hz _]. rewrite Hz in K1. lia.
Qed.

End Finishing.

Section Settled.
Import Py Types Pools Callbacks Engine DeliveryProps EngineProps.

Lemma settled_exec (cfg : config) (staged : list Request) (a : action)
      (w : world) :
  invariant cfg staged w -> settled w -> settled (exec cfg a w).
Proof.
  intros Hinv [Hq Ht].
  destruct (exec_queue cfg staged a w Hinv) as [Hlen Htm].
  split; [|apply Htm; exact Ht].
  rewrite Hq in Hlen. destruct (requests (exec cfg a w)); [reflexivity|].
  simpl in Hlen. lia.
Qed.

Lemma undisturbed_same (w w' : world) :
  controllers w' = controllers w -> undisturbed w w'.
Proof.
  intros H k c Hk. exists c. rewrite H.
  split; [exact Hk|]. split; [reflexivity | auto].
Qed.

Lemma left_over_all_insert (cs : list controller) (k : nat)
      (c c' : controller) :
  cs !! k = Some c ->
  (list_sum (map left_over (<[k := c']> cs)) + left_over c
   = list_sum (map left_over cs) + left_over c')%nat.
Proof. apply list_sum_insert. Qed.

(** Once the queue is empty and the ticket manager stopped, every action
    either leaves the controllers less to do, or leaves as much and
    disturbs nothing. *)
Lemma settled_left_over (cfg : config) (staged : list Request) (a : action)
      (w : world) :
  invariant cfg staged w ->
  settled w ->
  (left_over_all (exec cfg a w) < left_over_all w)%nat
  \/ (left_over_all (exec cfg a w) = left_over_all w
      /\ undisturbed w (exec cfg a w)).
Proof.
  intros Hinv [Hq Ht].
  pose proof (inv_controllers _ _ _ Hinv) as Hcs.
  assert (Hrefl : forall w', controllers w' = controllers w ->
                             (left_over_all w' < left_over_all w)%nat
                             \/ (left_over_all w' = left_over_all w
                                 /\ undisturbed w w')).
  { intros w' H. right. split; [unfold left_over_all; rewrite H; reflexivity|].
    apply undisturbed_same. exact H. }
  destruct a as [|k|k p i o|time_| |]; simpl.
  - rewrite Ht. apply Hrefl. reflexivity.
  - destruct (controllers w !! k) as [c|] eqn:Hk; [|apply Hrefl; reflexivity].
    pose proof (Forall_lookup_1 _ _ _ _ Hcs Hk) as Hok.
    destruct (step_local cfg k c w Hk Hok) as (c' & q' & n & Hl & Hc & _ & _).
    rewrite Hq in Hl, Hok.
    destruct (local_step_left_over c c' q' n Hl Hok) as [Hlo Hin].
    pose proof (left_over_all_insert (controllers w) k c c' Hk) as Hsum.
    unfold left_over_all. rewrite Hc.
    destruct Hlo as [Hlt | [Heq Hblocked]]; [left; lia|].
    right. split; [lia|].
    intros j cj Hj. rewrite Hc.
    destruct (decide (j = k)) as [->|Hne].
    + rewrite Hk in Hj. injection Hj as <-. exists c'.
      rewrite list_lookup_insert_eq by (apply lookup_lt_Some in Hk; exact Hk).
      split; [reflexivity|]. split; [exact Hin|].
      intros Hu. contradiction.
    + exists cj. rewrite list_lookup_insert_ne by congruence.
      split; [exact Hj|]. split; [reflexivity | auto].
  - destruct (controllers w !! k) as [c|] eqn:Hk.
    2:{ apply Hrefl. simpl. apply alter_none. exact Hk. }
    pose proof (Forall_lookup_1 _ _ _ _ Hcs Hk) as Hok. rewrite Hq in Hok.
    destruct (finish_in_left_over p i o c Hok) as [Hsame | (pl & _ & _ & Hlt)].
    + apply Hrefl. simpl. rewrite (alter_as_insert _ _ _ _ Hk), Hsame.
      apply list_insert_id. exact Hk.
    + left. unfold left_over_all. simpl.
      rewrite (alter_as_insert _ _ _ _ Hk).
      pose proof (left_over_all_insert (controllers w) k c
                    (finish_in p i o c) Hk) as Hsum.
      lia.
  - destruct (rps_pipe w); [apply Hrefl; reflexivity|].
    destruct (rps_counter w) as [s|]; [|apply Hrefl; reflexivity].
    destruct (Telemetry.step time_ s); apply Hrefl; reflexivity.
  - destruct (unfinished_tasks w =? 0); apply Hrefl; reflexivity.
  - destruct (negb (ticket_manager w) && forallb stopped (controllers w));
      apply Hrefl; reflexivity.
Qed.

Lemma local_step_pools (q : list Request) (c c' : controller)
      (q' : list Request) (n : nat) :
  local_step q c c' q' n -> length (pools c') = length (pools c).
Proof.
  intros Hl. inversion Hl; subst; simpl; try reflexivity; try assumption.
  match goal with
  | H : map inflight _ = map inflight _ |- _ =>
      apply (f_equal length) in H; rewrite !length_map in H; exact H
  end.
Qed.

(** No action adds or removes a controller or a pool. *)
Lemma exec_shape (cfg : config) (staged : list Request) (a : action)
      (w : world) :
  invariant cfg staged w -> shape (exec cfg a w) = shape w.
Proof.
  intros Hinv. pose proof (inv_controllers _ _ _ Hinv) as Hcs.
  assert (Hins : forall k c c',
             controllers w !! k = Some c ->
             length (pools c') = length (pools c) ->
             map (fun c => length (pools c)) (<[k := c']> (controllers w))
             = map (fun c => length (pools c)) (controllers w)).
  { intros k c c' Hk Hlen.
    change (map (fun c : controller => length (pools c)))
      with (fmap (M := list) (fun c : controller => length (pools c))).
    rewrite list_fmap_insert, Hlen.
    apply list_insert_id. rewrite list_lookup_fmap, Hk. reflexivity. }
  unfold shape. destruct a as [|k|k p i o|time_| |]; simpl.
  - destruct (ticket_manager w); [|reflexivity]. simpl.
    rewrite map_map. reflexivity.
  - destruct (controllers w !! k) as [c|] eqn:Hk; [|reflexivity].
    pose proof (Forall_lookup_1 _ _ _ _ Hcs Hk) as Hok.
    destruct (step_local cfg k c w Hk Hok) as (c' & q' & n & Hl & Hc & _ & _).
    rewrite Hc. apply (Hins k c c' Hk). eapply local_step_pools. exact Hl.
  - destruct (controllers w !! k) as [c|] eqn:Hk.
    2:{ rewrite (alter_none _ _ _ Hk). reflexivity. }
    rewrite (alter_as_insert _ _ _ _ Hk). apply (Hins k c _ Hk).
    apply finish_in_spec.
  - destruct (rps_pipe w); [reflexivity|].
    destruct (rps_counter w) as [s|]; [|reflexivity].
    destruct (Telemetry.step time_ s); reflexivity.
  - destruct (unfinished_tasks w =? 0); reflexivity.
  - destruct (negb (ticket_manager w) && forallb stopped (controllers w));
      reflexivity.
Qed.

End Settled.

Section Termination.
Import Py Types Pools Callbacks Engine DeliveryProps EngineProps.

Lemma undisturbed_trans (w1 w2 w3 : world) :
  undisturbed w1 w2 -> undisturbed w2 w3 -> undisturbed w1 w3.
Proof.
  intros H12 H23 k c Hk.
  destruct (H12 k c Hk) as (c2 & Hk2 & Hin2 & Hu2).
  destruct (H23 k c2 Hk2) as (c3 & Hk3 & Hin3 & Hu3).
  exists c3. split; [exact Hk3|]. split; [congruence|].
  intros Hu. specialize (Hu2 Hu). subst c2. apply Hu3. exact Hu.
Qed.

Lemma finish_in_effective (p i : nat) (o : object) (c : controller)
      (pl : pool) :
  controller_ok [] c ->
  pools c !! p = Some pl ->
  (i < length (inflight pl))%nat ->
  (left_over (finish_in p i o c) < left_over c)%nat.
Proof.
  intros Hok Hp Hi.
  destruct (finish_in_left_over p i o c Hok) as [Hsame | (pl' & _ & _ & Hlt)];
    [|exact Hlt].
  exfalso. apply (f_equal pools) in Hsame. unfold finish_in in Hsame.
  simpl in Hsame. rewrite (alter_as_insert _ _ _ _ Hp) in Hsame.
  assert (Hl : <[p := finish i o pl]> (pools c) !! p = Some (finish i o pl))
    by (apply list_lookup_insert_eq; apply lookup_lt_Some in Hp; exact Hp).
  rewrite Hsame, Hp in Hl. injection Hl as Hl.
  destruct (finish_counts i o pl) as (_ & _ & F3). specialize (F3 Hi).
  rewrite <- Hl in F3. lia.
Qed.

Lemma some_left_over (w : world) :
  (0 < left_over_all w)%nat ->
  exists k c, controllers w !! k = Some c /\ (0 < left_over c)%nat.
Proof.
  unfold left_over_all.
  induction (controllers w) as [|c cs IH]; simpl; [lia|]. intros H.
  destruct (Nat.eq_dec (left_over c) 0%nat) as [Hz|Hnz].
  - destruct IH as (k & c' & Hk & Hpos); [lia|].
    exists (S k), c'. split; assumption.
  - exists 0%nat, c. split; [reflexivity | lia].
Qed.

Lemma none_left_over (cfg : config) (staged : list Request) (w : world) :
  invariant cfg staged w ->
  left_over_all w = 0%nat ->
  all_exited w.
Proof.
  intros Hinv. pose proof (inv_controllers _ _ _ Hinv) as Hcs.
  unfold left_over_all, all_exited.
  induction Hcs as [|c cs Hc _ IH]; simpl; [constructor|].
  intros Hz. constructor; [|apply IH; lia].
  destruct Hc as (_ & _ & Hnc & _).
  unfold left_over in Hz. destruct (at_ c); try lia; [reflexivity|contradiction].
Qed.

(** A controller that is neither done nor able to move has a request
    outstanding in some pool. *)
Lemma blocked_pool (c : controller) :
  (0 < left_over c)%nat -> ~ unblocked c ->
  exists p pl, pools c !! p = Some pl /\ inflight pl <> [].
Proof.
  intros Hpos Hb.
  assert (Hin : inflight_count c <> 0%nat).
  { intros Hz. apply Hb. split.
    - intros He. unfold left_over in Hpos. rewrite He in Hpos. lia.
    - right. right. exact Hz. }
  unfold inflight_count in Hin.
  induction (pools c) as [|pl ps IH]; simpl in Hin; [done|].
  destruct (inflight pl) eqn:E.
  - destruct IH as (p & pl' & Hp & Hne); [simpl in Hin; lia|].
    exists (S p), pl'. split; assumption.
  - exists 0%nat, pl. split; [reflexivity|]. rewrite E. discriminate.
Qed.

Section Schedule.
Variable cfg : config.
Variable staged : list Request.
Variable sched : nat -> action.
Variable w0 : world.
Hypothesis Hinv0 : invariant cfg staged w0.
Hypothesis Hfair : fair cfg w0 sched.

Let W (n : nat) : world := after cfg sched w0 n.

Lemma W_invariant (n : nat) : invariant cfg staged (W n).
Proof. apply after_invariant. exact Hinv0. Qed.

Lemma W_S (n : nat) : W (S n) = exec cfg (sched n) (W n).
Proof. apply after_S. Qed.

Lemma W_shape (n : nat) : shape (W n) = shape w0.
Proof.
  induction n as [|n IH]; [reflexivity|].
  rewrite W_S, (exec_shape cfg staged _ _ (W_invariant n)). exact IH.
Qed.

Lemma settled_later (n d : nat) : settled (W n) -> settled (W (n + d)).
Proof.
  intros H. induction d as [|d IH].
  - rewrite Nat.add_0_r. exact H.
  - rewrite Nat.add_succ_r, W_S.
    apply (settled_exec cfg staged); [apply W_invariant | exact IH].
Qed.

Lemma left_over_later (n d : nat) :
  settled (W n) ->
  (left_over_all (W (n + d)) < left_over_all (W n))%nat
  \/ (left_over_all (W (n + d)) = left_over_all (W n)
      /\ undisturbed (W n) (W (n + d))).
Proof.
  intros Hs. induction d as [|d IH].
  - rewrite Nat.add_0_r. right. split; [reflexivity|].
    apply undisturbed_same. reflexivity.
  - rewrite Nat.add_succ_r, W_S.
    destruct (settled_left_over cfg staged (sched (n + d)%nat) (W (n + d))
                (W_invariant _) (settled_later n d Hs))
      as [Hlt | [Heq Hund]].
    + left. destruct IH as [IH | [IH _]]; lia.
    + destruct IH as [IH | [IH Hund0]]; [left; lia|].
      right. split; [lia|]. eapply undisturbed_trans; eassumption.
Qed.

(** While a controller has something left to do, a fair schedule brings
    an action that leaves less. *)
Lemma left_over_decreases (n : nat) :
  settled (W n) ->
  (0 < left_over_all (W n))%nat ->
  exists m, (n < m)%nat /\ (left_over_all (W m) < left_over_all (W n))%nat.
Proof.
  intros Hs Hpos.
  destruct (some_left_over _ Hpos) as (k & c & Hk & Hc).
  assert (Hshape : shape w0 !! k = Some (length (pools c))).
  { rewrite <- (W_shape n). unfold shape.
    rewrite list_lookup_fmap, Hk. reflexivity. }
  unfold shape in Hshape. rewrite list_lookup_fmap in Hshape.
  destruct (controllers w0 !! k) as [c0|] eqn:Hk0; [|discriminate].
  simpl in Hshape. injection Hshape as Hlen0.
  assert (Hdone : forall m,
             (n <= m)%nat ->
             (left_over_all (W (S m)) < left_over_all (W m))%nat ->
             (left_over_all (W m) <= left_over_all (W n))%nat ->
             exists m', (n < m')%nat
                        /\ (left_over_all (W m') < left_over_all (W n))%nat).
  { intros m Hm H1 H2. exists (S m). split; lia. }
  destruct (unblocked_dec c) as [Hu|Hb].
  - (* the controller can move: wait for its next step *)
    destruct (fair_step _ _ _ Hfair n k) as (m & Hm & Hact).
    { apply lookup_lt_Some in Hk0. exact Hk0. }
    pose proof (left_over_later n (m - n) Hs) as Hlater.
    replace (n + (m - n))%nat with m in Hlater by lia.
    destruct Hlater as [Hlt | [Heq Hund]].
    + exists m. split; [|exact Hlt].
      destruct (Nat.eq_dec m n) as [->|]; lia.
    + apply (Hdone m Hm); [|lia].
      destruct (Hund k c Hk) as (c' & Hk' & _ & Hsame).
      specialize (Hsame Hu). subst c'.
      pose proof (settled_later n (m - n) Hs) as Hsm.
      replace (n + (m - n))%nat with m in Hsm by lia.
      destruct (settled_left_over cfg staged (Step k) (W m) (W_invariant m) Hsm)
        as [Hlt | [_ Hund']].
      * rewrite W_S, Hact. exact Hlt.
      * exfalso.
        pose proof (inv_controllers _ _ _ (W_invariant m)) as Hcs.
        pose proof (Forall_lookup_1 _ _ _ _ Hcs Hk') as Hok.
        destruct (step_local cfg k c (W m) Hk' Hok)
          as (c' & q' & j & Hl & Hc' & _ & _).
        destruct Hsm as [Hq _]. rewrite Hq in Hl, Hok.
        destruct (local_step_left_over c c' q' j Hl Hok) as [Hlo _].
        destruct Hlo as [Hlt | [_ Hnb]]; [|contradiction].
        destruct (Hund' k c Hk') as (c'' & Hk'' & _ & Hsame).
        specialize (Hsame Hu). subst c''.
        simpl in Hk''. rewrite Hk' in Hk''. rewrite Hc' in Hk''.
        rewrite list_lookup_insert_eq in Hk''
          by (apply lookup_lt_Some in Hk'; exact Hk').
        injection Hk'' as ->. lia.
  - (* it waits for a pool: wait for the pool to finish a request *)
    destruct (blocked_pool c Hc Hb) as (p & pl & Hp & Hne).
    destruct (fair_finish _ _ _ Hfair n k p c0 Hk0) as (m & Hm & Hfin).
    { rewrite Hlen0. apply lookup_lt_Some in Hp. exact Hp. }
    pose proof (left_over_later n (m - n) Hs) as Hlater.
    replace (n + (m - n))%nat with m in Hlater by lia.
    destruct Hlater as [Hlt | [Heq Hund]].
    + exists m. split; [|exact Hlt].
      destruct (Nat.eq_dec m n) as [->|]; lia.
    + apply (Hdone m Hm); [|lia].
      destruct (Hund k c Hk) as (c' & Hk' & Hin & _).
      assert (Hp' : exists pl', pools c' !! p = Some pl'
                                /\ inflight pl' = inflight pl).
      { apply (f_equal (fun l => l !! p)) in Hin.
        rewrite !list_lookup_fmap, Hp in Hin.
        destruct (pools c' !! p) as [pl'|]; [|discriminate].
        exists pl'. split; [reflexivity|]. simpl in Hin. congruence. }
      destruct Hp' as (pl' & Hp' & Hsame).
      destruct Hfin as (i & o & Hact & Heff).
      fold (W m) in Heff.
      destruct (Heff c' pl' Hk' Hp') as [Hnil | Hi]; [congruence|].
      pose proof (settled_later n (m - n) Hs) as Hsm.
      replace (n + (m - n))%nat with m in Hsm by lia.
      pose proof (inv_controllers _ _ _ (W_invariant m)) as Hcs.
      pose proof (Forall_lookup_1 _ _ _ _ Hcs Hk') as Hok.
      destruct Hsm as [Hq _]. rewrite Hq in Hok.
      pose proof (finish_in_effective p i o c' pl' Hok Hp' Hi) as Hlt.
      rewrite W_S, Hact. unfold left_over_all. simpl.
      rewrite (alter_as_insert _ _ _ _ Hk').
      pose proof (left_over_all_insert (controllers (W m)) k c'
                    (finish_in p i o c') Hk') as Hsum.
      lia.
Qed.

(** Under a fair schedule every controller leaves its loop. *)
Lemma all_exit : exists n, all_exited (W n).
Proof.
  destruct (drained cfg staged sched w0 Hinv0 Hfair) as (n0 & Hq & Ht).
  assert (Hs : settled (W n0)) by (split; assumption).
  destruct (eventually_zero (fun d => left_over_all (W (n0 + d))))
    with (n := 0%nat) as (d & _ & Hz).
  - intros d Hpos.
    destruct (left_over_decreases (n0 + d) (settled_later n0 d Hs) Hpos)
      as (m & Hm & Hlt).
    exists (m - n0)%nat. split; [lia|].
    replace (n0 + (m - n0))%nat with m by lia. exact Hlt.
  - exists (n0 + d)%nat.
    apply (none_left_over cfg staged); [apply W_invariant | exact Hz].
Qed.

End Schedule.

End Termination.

(** ** Exactly-once delivery *)

Section ExactlyOnce.
Import Py Types Pools Callbacks Engine DeliveryProps EngineProps Examples.

Lemma batches_of_count (r : Request) (w : world) :
  length (batches_of r w) = count_occ Request_eq_dec (delivered w) r.
Proof.
  unfold batches_of, delivered.
  induction (log w) as [|b bs IH]; [reflexivity|].
  rewrite filter_cons. simpl.
  destruct (decide (b_request b = r)) as [He|Hne];
    destruct (Request_eq_dec (b_request b) r); try contradiction;
    simpl; rewrite IH; reflexivity.
Qed.

(** When every controller has left its loop, nothing is queued or in a
    pool. *)
Lemma all_exited_empty (cfg : config) (staged : list Request) (w : world) :
  invariant cfg staged w ->
  all_exited w ->
  requests w = [] /\ in_pools w = [].
Proof.
  intros Hinv Hex.
  pose proof (inv_controllers _ _ _ Hinv) as Hcs.
  pose proof (inv_some _ _ _ Hinv) as Hne.
  unfold all_exited, in_pools in *.
  remember (controllers w) as cs eqn:Ecs. clear Ecs. split.
  - destruct Hcs as [|c cs (_ & _ & _ & K4) _]; [done|].
    inversion Hex; subst. apply K4. assumption.
  - clear Hne. induction Hcs as [|c cs Hc _ IH]; [reflexivity|].
    inversion Hex; subst. simpl.
    rewrite IH by assumption.
    destruct Hc as (K1 & _ & _ & K4).
    destruct (K4 ltac:(assumption)) as [Hz _].
    rewrite controller_items_nil; [reflexivity|]. rewrite Hz in K1. lia.
Qed.


(** The run of [staged_client] under [in_turn]: after 28 actions the
    controller has left its loop, both requests are delivered, in the order
    they were staged, and the callback has counted them in the store. *)
Example in_turn_run :
  option_map
    (fun w0 =>
       let w := after (config_of staged_client) in_turn w0 28 in
       (map at_ (controllers w), delivered w, map b_kind (log w),
        option_map (fun m => m !! "n") (store w)))
    (boot staged_client 0)
  = Some ([Exited],
          [{| req_payload := "a" |}; {| req_payload := "b" |}],
          [RESPONSE; RESPONSE],
          Some (Some 2)).
Proof. vm_compute. reflexivity. Qed.

Lemma in_turn_fair (w0 : world) :
  boot staged_client 0 = Some w0 ->
  fair (config_of staged_client) w0 in_turn.
Proof.
  intros Hboot. vm_compute in Hboot. injection Hboot as <-.
  assert (Hmod : forall n r, (r < 4)%nat -> ((r + n * 4) mod 4 = r)%nat).
  { intros n r Hr. rewrite Nat.Div0.mod_add. apply Nat.mod_small. exact Hr. }
  constructor.
  - intros n. exists (0 + n * 4)%nat. split; [lia|].
    unfold in_turn. rewrite Hmod by lia. reflexivity.
  - intros n. exists (1 + n * 4)%nat. split; [lia|].
    unfold in_turn. rewrite Hmod by lia. reflexivity.
  - intros n k Hk. simpl in Hk. assert (k = 0%nat) as -> by lia.
    exists (2 + n * 4)%nat. split; [lia|].
    unfold in_turn. rewrite Hmod by lia. reflexivity.
  - intros n k p c Hk Hp.
    destruct k as [|k]; [|destruct k; discriminate].
    simpl in Hk. injection Hk as <-. simpl in Hp.
    assert (p = 0%nat) as -> by lia.
    exists (3 + n * 4)%nat. split; [lia|].
    exists 0%nat, response. split.
    + unfold in_turn. rewrite Hmod by lia. reflexivity.
    + intros c pl _ _. destruct (inflight pl); [left; reflexivity|].
      right. simpl. lia.
Qed.


End ExactlyOnce.

(** * Further properties of the client *)

(** ** The store through [__setitem__] and [__getitem__] *)

Section StoreUsage.
Import Py Types Pools Callbacks Client Usage Examples.

Lemma getitem_after_setitem (k key : string) (v : Z) (c c1 : FastClient)
      (tr : list event) :
  __setitem__ k v c = inr (c1, tr) ->
  __getitem__ key c1
  = if decide (k = key) then inr (v, [Read key]) else __getitem__ key c.
Proof.
  unfold __setitem__, __getitem__.
  destruct (_use_store c) eqn:Hu; simpl; [|discriminate].
  destruct (_store_lock c); [|discriminate].
  destruct (_store c) as [m|]; [|discriminate].
  intros H. injection H as <- <-. simpl. rewrite Hu. simpl.
  destruct (decide (k = key)) as [->|Hne].
  - rewrite lookup_insert_eq. reflexivity.
  - rewrite lookup_insert_ne by exact Hne. reflexivity.
Qed.

Lemma setitem_keeps (k : string) (v : Z) (c c1 : FastClient)
      (tr : list event) :
  __setitem__ k v c = inr (c1, tr) ->
  _use_store c1 = true /\ _store_lock c1 = _store_lock c
  /\ _store_lock c <> None /\ _store c1 <> None.
Proof.
  unfold __setitem__.
  destruct (_use_store c) eqn:Hu; simpl; [|discriminate].
  destruct (_store_lock c) eqn:Hl; [|discriminate].
  destruct (_store c) as [m|]; [|discriminate].
  intros H. injection H as <- <-. simpl. rewrite Hl. auto.
Qed.

Lemma reads_after_set_all (kvs : list (string * Z)) (key : string) :
  forall c c' : FastClient,
    set_all kvs c = inr c' ->
    __getitem__ key c'
    = match last_write key kvs with
      | Some v => inr (v, [Read key])
      | None => __getitem__ key c
      end.
Proof.
  induction kvs as [|[k v] rest IH]; intros c c' H; simpl in *.
  - injection H as <-. reflexivity.
  - destruct (__setitem__ k v c) as [e|[c1 tr]] eqn:Hs; [discriminate|].
    rewrite (IH _ _ H).
    destruct (last_write key rest) as [v'|]; [reflexivity|].
    rewrite (getitem_after_setitem _ key _ _ _ _ Hs).
    destruct (decide (k = key)); reflexivity.
Qed.

(** X1. After any sequence of assignments [client[k] = v] that raised
    nothing, [client[key]] returns the value of the last assignment to
    [key]; for a key none of them assigned it does what it did before
    them.  The assignments change nothing but the store: the staged
    requests, the pools and the listeners are what they were. *)
Theorem store_reads_last_write (kvs : list (string * Z)) (key : string)
        (c c' : FastClient) :
  set_all kvs c = inr c' ->
  __getitem__ key c'
  = match last_write key kvs with
    | Some v => inr (v, [Read key])
    | None => __getitem__ key c
    end
  /\ _requests c' = _requests c
  /\ _pools c' = _pools c
  /\ _callbacks c' = _callbacks c
  /\ _callback_registered c' = _callback_registered c.
Proof.
  intros H. split; [exact (reads_after_set_all kvs key c c' H)|].
  revert c H. induction kvs as [|[k v] rest IH]; intros c H; simpl in H.
  - injection H as <-. repeat split.
  - destruct (__setitem__ k v c) as [e|[c1 tr]] eqn:Hs; [discriminate|].
    destruct (IH _ H) as (H1 & H2 & H3 & H4).
    rewrite H1, H2, H3, H4.
    unfold __setitem__ in Hs.
    destruct (negb (_use_store c)); [discriminate|].
    destruct (_store_lock c); [|discriminate].
    destruct (_store c); [|discriminate].
    injection Hs as <- _. repeat split.
Qed.

Lemma store_reads_last_write_witness :
  __getitem__ "a" (with_store (Some (<["a" := 3]> (<["b" := 2]> ∅))) client_on)
  = inr (3, [Read "a"]).
Proof.
  apply (store_reads_last_write [("a", 1); ("b", 2); ("a", 3)] "a" client_on).
  vm_compute. reflexivity.
Defined.

(** X2. On a client built with [use_store=True] every sequence of
    assignments goes through, and afterwards a key that was assigned reads
    as its last value while a key that never was raises [KeyError]. *)
Theorem fresh_store_reads (rate : Q) (pools : list RequestPool)
        (num_pools : Z) (max_connections : option Z) (use_rps : bool)
        (kvs : list (string * Z)) :
  exists c',
    set_all kvs (__init__ rate pools num_pools max_connections true use_rps)
    = inr c'
    /\ forall key,
        __getitem__ key c'
        = match last_write key kvs with
          | Some v => inr (v, [Read key])
          | None => inl (KeyError key)
          end.
Proof.
  assert (Hgo : forall (l : list (string * Z)) (c : FastClient),
             _use_store c = true -> _store_lock c <> None ->
             _store c <> None -> exists c', set_all l c = inr c').
  { induction l as [|[k v] rest IH]; intros c Hu Hl Hm; simpl.
    - eexists. reflexivity.
    - destruct (__setitem__ k v c) as [e|[c1 tr]] eqn:Hs.
      + exfalso. unfold __setitem__ in Hs. rewrite Hu in Hs. simpl in Hs.
        destruct (_store_lock c); [|congruence].
        destruct (_store c); [discriminate|congruence].
      + destruct (setitem_keeps _ _ _ _ _ Hs) as (H1 & H2 & H3 & H4).
        apply IH; [exact H1|congruence|exact H4]. }
  destruct (Hgo kvs (__init__ rate pools num_pools max_connections true use_rps))
    as [c' Hc']; try (simpl; congruence).
  exists c'. split; [exact Hc'|].
  intros key. rewrite (reads_after_set_all _ key _ _ Hc').
  destruct (last_write key kvs); reflexivity.
Qed.

End StoreUsage.

(** ** Listeners registered with [on] *)

Section Registration.
Import Py Types Pools Callbacks Client Engine DeliveryProps Usage Examples.

Lemma register_all_callbacks (regs : list (RequestEvent * callback))
      (e : RequestEvent) :
  forall c : FastClient,
    _callbacks (register_all regs c) e
    = _callbacks c e ++ map snd (filter (fun r => fst r = e) regs).
Proof.
  induction regs as [|[e' cb] rest IH]; intros c.
  - simpl. rewrite app_nil_r. reflexivity.
  - change (register_all ((e', cb) :: rest) c)
      with (register_all rest (on e' cb c)).
    rewrite IH. simpl _callbacks. unfold append.
    rewrite filter_cons. simpl fst.
    destruct (decide (e' = e)) as [->|Hne].
    + rewrite bool_decide_eq_true_2 by reflexivity.
      simpl. rewrite <- app_assoc. reflexivity.
    + rewrite bool_decide_eq_false_2 by congruence. reflexivity.
Qed.

Lemma register_all_keeps (regs : list (RequestEvent * callback)) :
  forall c : FastClient,
    _requests (register_all regs c) = _requests c
    /\ _pools (register_all regs c) = _pools c
    /\ _store (register_all regs c) = _store c
    /\ _use_store (register_all regs c) = _use_store c
    /\ _use_rps (register_all regs c) = _use_rps c.
Proof.
  induction regs as [|[e' cb] rest IH]; intros c.
  - repeat split.
  - change (register_all ((e', cb) :: rest) c)
      with (register_all rest (on e' cb c)).
    destruct (IH (on e' cb c)) as (H1 & H2 & H3 & H4 & H5).
    rewrite H1, H2, H3, H4, H5. repeat split.
Qed.

(** X3. After [client.on(e1, cb1); client.on(e2, cb2); ...] the listeners
    of an event are those it had before followed by the ones registered
    for it, in the order of the calls; a listener counts as registered as
    soon as one call was made; and the staged requests, the pools and the
    store are what they were. *)
Theorem listeners_in_registration_order
        (regs : list (RequestEvent * callback)) (e : RequestEvent)
        (c : FastClient) :
  _callbacks (register_all regs c) e
  = _callbacks c e ++ map snd (filter (fun r => fst r = e) regs)
  /\ _callback_registered (register_all regs c)
     = _callback_registered c || negb (bool_decide (regs = []))
  /\ _requests (register_all regs c) = _requests c
  /\ _pools (register_all regs c) = _pools c
  /\ _store (register_all regs c) = _store c.
Proof.
  split; [apply register_all_callbacks|].
  split.
  - revert c. induction regs as [|[e' cb] rest IH]; intros c.
    + simpl. rewrite orb_false_r. reflexivity.
    + change (register_all ((e', cb) :: rest) c)
        with (register_all rest (on e' cb c)).
      rewrite IH. simpl. rewrite orb_true_r. reflexivity.
  - destruct (register_all_keeps regs c) as (H1 & H2 & H3 & _). auto.
Qed.


End Registration.

(** ** The controllers [run] creates *)

Section Grouping.
Import Py Types Pools Callbacks Client Engine Usage Examples.

Lemma partition_snoc (ps : list RequestPool) (p : RequestPool) :
  partition (ps ++ [p])
  = match id_ p with
    | None => (fst (partition ps) ++ [p], snd (partition ps))
    | Some k => (fst (partition ps), group_append k p (snd (partition ps)))
    end.
Proof. unfold partition. rewrite fold_left_app. reflexivity. Qed.

Lemma group_append_keys (k : Z) (p : RequestPool)
      (gs : list (Z * list RequestPool)) :
  map fst (group_append k p gs)
  = if decide (k ∈ map fst gs) then map fst gs else map fst gs ++ [k].
Proof.
  induction gs as [|[k' g] rest IH]; simpl.
  - destruct (decide (k ∈ [])) as [H|H]; [|reflexivity].
    apply elem_of_nil in H. destruct H.
  - destruct (Z.eqb_spec k k') as [->|Hne]; simpl.
    + rewrite decide_True by (apply elem_of_cons; left; reflexivity).
      reflexivity.
    + rewrite IH. destruct (decide (k ∈ map fst rest)) as [Hin|Hnin].
      * rewrite decide_True by (apply elem_of_cons; right; exact Hin).
        reflexivity.
      * rewrite decide_False; [reflexivity|].
        intros H. apply elem_of_cons in H as [H|H]; [congruence|tauto].
Qed.

Lemma group_append_groups (done : list RequestPool) (k : Z)
      (p : RequestPool) :
  id_ p = Some k ->
  forall gs : list (Z * list RequestPool),
    NoDup (map fst gs) ->
    (k ∉ map fst gs -> filter (fun q => id_ q = Some k) done = []) ->
    Forall (fun g => snd g = filter (fun q => id_ q = Some (fst g)) done) gs ->
    Forall (fun g => snd g
                     = filter (fun q => id_ q = Some (fst g)) (done ++ [p]))
           (group_append k p gs).
Proof.
  intros Hid. induction gs as [|[k' g] rest IH]; intros Hnd Hnew Hok; simpl.
  - constructor; [|constructor]. simpl.
    rewrite filter_app, Hnew by (intros H; apply elem_of_nil in H; exact H).
    rewrite filter_cons_True by exact Hid. reflexivity.
  - simpl in Hnd. apply NoDup_cons in Hnd as [Hnotin Hnd'].
    apply Forall_cons in Hok as [Hg Hrest]. simpl in Hg.
    destruct (Z.eqb_spec k k') as [->|Hne].
    + constructor.
      * simpl. rewrite filter_app, filter_cons_True by exact Hid.
        rewrite Hg. reflexivity.
      * rewrite Forall_forall in Hrest. apply Forall_forall.
        intros x Hx. rewrite filter_app, (Hrest x Hx).
        rewrite filter_cons_False; [rewrite app_nil_r; reflexivity|].
        rewrite Hid. intros E. injection E as E. apply Hnotin.
        rewrite E. apply list_elem_of_In, in_map, list_elem_of_In, Hx.
    + constructor.
      * simpl. rewrite filter_app, Hg.
        rewrite filter_cons_False; [rewrite app_nil_r; reflexivity|].
        rewrite Hid. congruence.
      * apply IH; [exact Hnd'| |exact Hrest].
        intros Hk. apply Hnew. intros H.
        apply elem_of_cons in H as [H|H]; [simpl in H; congruence|tauto].
Qed.

Lemma partition_groups (ps : list RequestPool) :
  fst (partition ps) = filter (fun p => id_ p = None) ps
  /\ NoDup (map fst (snd (partition ps)))
  /\ (forall k, k ∈ map fst (snd (partition ps))
                <-> exists p, p ∈ ps /\ id_ p = Some k)
  /\ Forall (fun g => snd g = filter (fun q => id_ q = Some (fst g)) ps)
            (snd (partition ps)).
Proof.
  induction ps as [|p ps IH] using rev_ind.
  - simpl. split; [reflexivity|]. split; [constructor|].
    split; [|constructor].
    intros k. split.
    + intros H. apply elem_of_nil in H. destruct H.
    + intros (p & Hp & _). apply elem_of_nil in Hp. destruct Hp.
  - destruct IH as (Hfst & Hnd & Hkeys & Hok).
    rewrite partition_snoc. destruct (id_ p) as [k|] eqn:Hid; simpl.
    + split.
      { rewrite filter_app, filter_cons_False by congruence.
        rewrite app_nil_r. exact Hfst. }
      assert (Hnew : k ∉ map fst (snd (partition ps)) ->
                     filter (fun q => id_ q = Some k) ps = []).
      { intros Hk. apply elem_of_nil_inv. intros x Hx.
        apply list_elem_of_filter in Hx as [Hx1 Hx2].
        apply Hk, Hkeys. exists x. split; assumption. }
      rewrite group_append_keys.
      split; [|split].
      * destruct (decide (k ∈ map fst (snd (partition ps)))); [exact Hnd|].
        apply NoDup_app. split; [exact Hnd|]. split.
        -- intros x Hx Hx'. apply elem_of_cons in Hx' as [->|Hx'];
             [tauto|apply elem_of_nil in Hx'; exact Hx'].
        -- apply NoDup_cons. split; [|constructor].
           intros H. apply elem_of_nil in H. exact H.
      * intros k0. split.
        -- intros H.
           assert (H' : k0 ∈ map fst (snd (partition ps)) \/ k0 = k).
           { destruct (decide (k ∈ map fst (snd (partition ps)))).
             - left. exact H.
             - apply elem_of_app in H as [H|H]; [left; exact H|].
               apply elem_of_cons in H as [H|H]; [right; exact H|].
               apply elem_of_nil in H. destruct H. }
           destruct H' as [H'| ->].
           ++ apply Hkeys in H' as (q & Hq & Hq'). exists q.
              split; [apply elem_of_app; left; exact Hq|exact Hq'].
           ++ exists p. split; [|exact Hid].
              apply elem_of_app. right. apply elem_of_cons. left. reflexivity.
        -- intros (q & Hq & Hq').
           apply elem_of_app in Hq as [Hq|Hq].
           ++ assert (H : k0 ∈ map fst (snd (partition ps)))
                by (apply Hkeys; exists q; split; assumption).
              destruct (decide (k ∈ map fst (snd (partition ps))));
                [exact H|apply elem_of_app; left; exact H].
           ++ apply elem_of_cons in Hq as [->|Hq];
                [|apply elem_of_nil in Hq; destruct Hq].
              assert (k0 = k) as -> by congruence.
              destruct (decide (k ∈ map fst (snd (partition ps)))) as [H|H];
                [exact H|].
              apply elem_of_app. right. apply elem_of_cons. left. reflexivity.
      * apply group_append_groups; assumption.
    + split.
      { rewrite filter_app, filter_cons_True by exact Hid.
        rewrite Hfst. reflexivity. }
      split; [exact Hnd|]. split.
      * intros k. rewrite Hkeys. split; intros (q & Hq & Hq').
        -- exists q. split; [apply elem_of_app; left; exact Hq|exact Hq'].
        -- apply elem_of_app in Hq as [Hq|Hq].
           ++ exists q. split; assumption.
           ++ apply elem_of_cons in Hq as [->|Hq]; [congruence|].
              apply elem_of_nil in Hq. destruct Hq.
      * rewrite Forall_forall in Hok. apply Forall_forall. intros x Hx.
        rewrite filter_app, (Hok x Hx).
        rewrite filter_cons_False by congruence.
        rewrite app_nil_r. reflexivity.
Qed.

End Grouping.

Section Controllers.
Import Py Types Pools Callbacks Client Engine Usage Examples Samples.

Lemma groups_by_key {A : Type} (F : Z -> A) (gs : list (Z * A)) :
  Forall (fun g => snd g = F (fst g)) gs -> map snd gs = map F (map fst gs).
Proof.
  induction 1 as [|g gs Hg _ IH]; simpl; [reflexivity|].
  rewrite Hg, IH. reflexivity.
Qed.

(** X5. [run] gives every pool without an id a controller of its own, and
    every id that occurs among the pools one controller that drives all the
    pools of that id, in the order in which the pools were given; the
    controllers of the pools without id come first. *)
Theorem controllers_follow_pool_ids (c : FastClient) (start_ : Q)
        (w0 : world) :
  boot c start_ = Some w0 ->
  exists ids : list Z,
    NoDup ids
    /\ (forall k, k ∈ ids <-> exists p, p ∈ _pools c /\ id_ p = Some k)
    /\ map (fun ctl => map decl (pools ctl)) (controllers w0)
       = map (fun p => [p]) (filter (fun p => id_ p = None) (_pools c))
         ++ map (fun k => filter (fun p => id_ p = Some k) (_pools c)) ids.
Proof.
  intros Hb.
  destruct (boot_controllers _ _ _ Hb) as (_ & _ & _ & _ & Hcs).
  destruct (partition_groups (_pools c)) as (Hfst & Hnd & Hkeys & Hok).
  exists (map fst (snd (partition (_pools c)))).
  split; [exact Hnd|]. split; [exact Hkeys|].
  rewrite Hcs, map_app. f_equal.
  - rewrite map_map, <- Hfst. reflexivity.
  - rewrite <- (groups_by_key
                  (fun k => filter (fun p => id_ p = Some k) (_pools c))
                  _ Hok).
    rewrite map_map. apply map_ext. intros g. simpl.
    rewrite map_map. simpl. apply map_id.
Qed.

Lemma controllers_follow_pool_ids_witness :
  exists w0,
    boot grouped_client 0 = Some w0
    /\ exists ids : list Z,
        NoDup ids
        /\ (forall k, k ∈ ids
                      <-> exists p, p ∈ _pools grouped_client /\ id_ p = Some k)
        /\ map (fun ctl => map decl (pools ctl)) (controllers w0)
           = map (fun p => [p])
                 (filter (fun p => id_ p = None) (_pools grouped_client))
             ++ map (fun k => filter (fun p => id_ p = Some k)
                                     (_pools grouped_client)) ids.
Proof.
  eexists. split; [reflexivity|].
  apply (controllers_follow_pool_ids grouped_client 0). reflexivity.
Defined.

Lemma pipes_imap {A : Type} (g : A -> list RequestPool) (h : nat -> nat)
      (l : list A) :
  forall j : nat,
    omap pipe_of (imap (fun i x => Controller (g x) (h (j + i)%nat)) l)
    = map h (seq j (length l)).
Proof.
  induction l as [|x l IH]; intros j; [reflexivity|].
  rewrite imap_cons. simpl. rewrite Nat.add_0_r. f_equal.
  rewrite <- (IH (S j)). f_equal. apply imap_ext.
  intros i y _. simpl. f_equal. f_equal. lia.
Qed.

Lemma countdown (n : nat) :
  map (fun i => n - 1 - i)%nat (seq 0 n) = reverse (seq 0 n).
Proof.
  induction n as [|n IH]; [reflexivity|].
  rewrite seq_S at 2. rewrite reverse_snoc, <- IH.
  change (seq 0 (S n)) with (0 :: seq 1 n)%nat.
  rewrite <- seq_shift, map_cons, map_map. f_equal; [lia|].
  apply map_ext. intros i. lia.
Qed.

(** X6. [run] makes one ticket pipe per controller and hands them out from
    the last one down, so that the controllers read from pairwise different
    pipes and every pipe has its reader; the ticket manager is started
    last, at the client's rate and over all the pipes; and the counter
    process is started, first, exactly when [use_rps] is set. *)
Theorem each_controller_has_its_pipe (c : FastClient)
        (procs : list process) :
  run c = (procs, inr tt) ->
  exists n : nat,
    omap pipe_of procs = reverse (seq 0 n)
    /\ NoDup (omap pipe_of procs)
    /\ (forall ch, ch ∈ omap pipe_of procs <-> (ch < n)%nat)
    /\ last procs = Some (TicketManager (_rate c) n)
    /\ (head procs = Some RpsCounter <-> _use_rps c = true).
Proof.
  unfold run. destruct (_callback_registered c); simpl; [|discriminate].
  destruct (partition (_pools c)) as [solo groups].
  intros H. injection H as <-.
  exists (length solo + length groups)%nat.
  assert (Hp : omap pipe_of
                 ((if _use_rps c then [RpsCounter] else [])
                    ++ solo_controllers (length solo + length groups) solo
                    ++ group_controllers
                         (length solo + length groups - length solo) groups
                    ++ [TicketManager (_rate c)
                                      (length solo + length groups)])
               = reverse (seq 0 (length solo + length groups))).
  { rewrite !omap_app.
    replace (omap pipe_of (if _use_rps c then [RpsCounter] else []))
      with (@nil nat) by (destruct (_use_rps c); reflexivity).
    simpl. rewrite app_nil_r. rewrite <- countdown, seq_app, map_app.
    f_equal.
    - apply (pipes_imap (fun p => [p])
               (fun i => length solo + length groups - 1 - i)%nat solo 0).
    - unfold group_controllers. rewrite Nat.add_0_l.
      rewrite <- (pipes_imap snd
                    (fun i => length solo + length groups - 1 - i)%nat
                    groups (length solo)).
      f_equal. apply imap_ext. intros i x _. simpl. f_equal. lia. }
  split; [exact Hp|]. split; [|split; [|split]].
  - rewrite Hp, reverse_Permutation. apply NoDup_seq.
  - intros ch. rewrite Hp, elem_of_reverse, elem_of_seq. lia.
  - rewrite !app_assoc. apply last_snoc.
  - destruct (_use_rps c); simpl.
    + split; reflexivity.
    + split; [|discriminate].
      destruct solo as [|p solo']; [|discriminate].
      destruct groups as [|g groups']; discriminate.
Qed.

Lemma each_controller_has_its_pipe_witness :
  exists n : nat,
    omap pipe_of (fst (run grouped_client)) = reverse (seq 0 n)
    /\ NoDup (omap pipe_of (fst (run grouped_client)))
    /\ (forall ch, ch ∈ omap pipe_of (fst (run grouped_client))
                   <-> (ch < n)%nat)
    /\ last (fst (run grouped_client))
       = Some (TicketManager (_rate grouped_client) n)
    /\ (head (fst (run grouped_client)) = Some RpsCounter
        <-> _use_rps grouped_client = true).
Proof.
  apply (each_controller_has_its_pipe grouped_client). reflexivity.
Defined.

End Controllers.

(** * Further properties of a run *)

(** ** What one step of a controller does *)

Section Effects.
Import Py Types Pools Callbacks Client Engine DeliveryProps EngineProps Usage.

Lemma quiet_guarded (h : bool) (tr rest : list event) :
  touches_store tr = false -> guarded h (tr ++ rest) = guarded h rest.
Proof.
  revert h. induction tr as [|e tr IH]; intros h Ht; [reflexivity|].
  destruct e; simpl in *; try discriminate; apply IH; exact Ht.
Qed.

Lemma deliver_effect (cfg : config) (o : object)
      (rpsv : option (Q * Z * Z)) (m : option Callbacks.store) :
  guarded false (snd (fst (deliver cfg o rpsv m))) = true
  /\ (use_store cfg = false ->
      touches_store (snd (fst (deliver cfg o rpsv m))) = false
      /\ snd (deliver cfg o rpsv m) = m).
Proof.
  split.
  - destruct m as [m0|]; [apply deliver_guarded|].
    unfold deliver.
    replace (if use_store cfg then @None Callbacks.store else None)
      with (@None Callbacks.store) by (destruct (use_store cfg); reflexivity).
    pose proof (call_all_no_store (kind_of o) (callbacks cfg (kind_of o)) o
                  (if use_rps cfg then rpsv else None)) as [Hn _].
    destruct (call_all _ _ _ _ _) as [tr m']. simpl in *.
    destruct (use_rps cfg), (use_store cfg); simpl;
      rewrite (quiet_guarded _ _ _ Hn); reflexivity.
  - intros Hs. unfold deliver. rewrite Hs.
    pose proof (call_all_no_store (kind_of o) (callbacks cfg (kind_of o)) o
                  (if use_rps cfg then rpsv else None)) as [Hn _].
    destruct (call_all _ _ _ _ _) as [tr m']. simpl in *.
    split; [|reflexivity].
    rewrite app_nil_r. destruct (use_rps cfg); simpl; exact Hn.
Qed.

Lemma reap_effect (cfg : config) (k : nat) (rpsv : option (Q * Z * Z))
      (ps : list pool) :
  forall (i : nat) (m : option Callbacks.store)
         (ps' : list pool) (bs : list batch) (m' : option Callbacks.store),
    reap cfg k i rpsv ps m = (ps', bs, m') ->
    Forall (fun b => b_controller b = k /\ sound_batch cfg b) bs
    /\ (use_store cfg = false -> m' = m).
Proof.
  induction ps as [|p rest IH]; intros i m ps' bs m' H; simpl in H.
  - injection H as <- <- <-. split; [constructor|reflexivity].
  - destruct (recv p) as [[[r o] p']|] eqn:Hr.
    + destruct (deliver_effect cfg o rpsv m) as [Hg Hn].
      destruct (deliver cfg o rpsv m) as [[kind tr] m1].
      destruct (reap cfg k (S i) rpsv rest m1) as [[ps1 bs1] m2] eqn:E.
      injection H as <- <- <-.
      destruct (IH _ _ _ _ _ E) as [H1 H2]. simpl in *. split.
      * constructor; [|exact H1]. split; [reflexivity|].
        split; simpl; [exact Hg|]. intros Hs. apply (Hn Hs).
      * intros Hs. rewrite (H2 Hs). apply (Hn Hs).
    + destruct (reap cfg k (S i) rpsv rest m) as [[ps1 bs1] m2] eqn:E.
      injection H as <- <- <-. apply (IH _ _ _ _ _ E).
Qed.

Lemma argmin_in_range (ks : list Z) (i : nat) :
  argmin ks = Some i -> (i < length ks)%nat.
Proof.
  intros H. assert (Hne : ks <> []) by (intros ->; discriminate).
  destruct (argmin_spec ks Hne) as (j & kj & Hj & Hl & _).
  rewrite Hj in H. injection H as <-.
  apply lookup_lt_Some in Hl. exact Hl.
Qed.

Ltac quiet_step :=
  split_and!;
  try done;
  try apply List.Forall_nil;
  try (match goal with
       | |- context [use_rps ?g] => destruct (use_rps g)
       end; lia);
  try (unfold controller_items; simpl; lia);
  try (unfold stopped;
       match goal with
       | H : at_ _ = _ |- _ => rewrite H
       end; discriminate).

Lemma step_effect (cfg : config) (k : nat) (c : controller) (w : world) :
  controllers w !! k = Some c ->
  exists (c' : controller) (bs : list batch) (taken : list Request),
    controllers (_controller cfg k c w) = <[k := c']> (controllers w)
    /\ log (_controller cfg k c w) = log w ++ bs
    /\ requests w = taken ++ requests (_controller cfg k c w)
    /\ ticket_manager (_controller cfg k c w) = ticket_manager w
    /\ rps_counter (_controller cfg k c w) = rps_counter w
    /\ rps_values (_controller cfg k c w) = rps_values w
    /\ rps_pipe (_controller cfg k c w)
       = (if use_rps cfg then rps_pipe w + length bs else rps_pipe w)%nat
    /\ Forall (fun b => b_controller b = k /\ sound_batch cfg b) bs
    /\ (use_store cfg = false -> store (_controller cfg k c w) = store w)
    /\ (length (controller_items c') + length bs + tickets c'
        <= length (controller_items c) + tickets c)%nat
    /\ (stopped c = true -> c' = c /\ bs = []).
Proof.
  intros Hk. unfold _controller. destruct (at_ c) eqn:Hat.
  - destruct ((counter c =? 0) && bool_decide (requests w = []));
      eexists _, [], []; simpl; rewrite app_nil_r; quiet_step.
  - destruct (tickets c) as [|t] eqn:Ht.
    { eexists _, [], []; simpl; rewrite app_nil_r. quiet_step. }
    destruct (argmin (map _get_remaining_tasks (pools c))) as [i|] eqn:Hi.
    2:{ eexists _, [], []; simpl; rewrite app_nil_r. quiet_step. }
    destruct (requests w) as [|r q] eqn:Hq.
    { eexists _, [], []; simpl; rewrite app_nil_r, ?Hq. quiet_step. }
    eexists _, [], [r]; simpl; rewrite app_nil_r. quiet_step.
    apply argmin_in_range in Hi. rewrite length_map in Hi.
    destruct (lookup_lt_is_Some_2 _ _ Hi) as [p Hp].
    destruct (submit_spec r i (pools c) p Hp) as (Hperm & _).
    unfold controller_items. simpl.
    apply Permutation_length in Hperm. rewrite Hperm. simpl. lia.
  - destruct (reap cfg k 0 (rps_values w) (pools c) (store w))
      as [[ps' bs] m'] eqn:E.
    destruct (reap_effect _ _ _ _ _ _ _ _ _ E) as [Hbs Hm].
    destruct (reap_spec _ _ _ _ _ _ _ _ _ E) as (_ & _ & Hperm & _).
    eexists _, bs, []; simpl. quiet_step.
    unfold controller_items. simpl.
    apply Permutation_length in Hperm.
    rewrite Hperm, length_app, length_map. lia.
  - exists c, [], []. simpl. rewrite app_nil_r. quiet_step.
    symmetry. apply list_insert_id. exact Hk.
  - exists c, [], []. simpl. rewrite app_nil_r. quiet_step.
    symmetry. apply list_insert_id. exact Hk.
Qed.

End Effects.

(** ** What every state of a run satisfies, whatever the schedule *)

Section RunFacts.
Import Py Types Pools Callbacks Client Engine DeliveryProps EngineProps.
Import Usage Examples Samples.

Lemma execs_keeps (cfg : config) (P : world -> Prop) :
  (forall a w, P w -> P (exec cfg a w)) ->
  forall sched w, P w -> P (execs cfg sched w).
Proof.
  intros Hstep sched. induction sched as [|a sched IH]; intros w Hw.
  - exact Hw.
  - apply IH, Hstep, Hw.
Qed.

Lemma boot_store (c : FastClient) (start_ : Q) (w0 : world) :
  boot c start_ = Some w0 ->
  store w0 = _store c
  /\ rps_pipe w0 = O
  /\ rps_counter w0
     = (if _use_rps c then Some (Telemetry.init start_) else None)
  /\ rps_values w0 = (if _use_rps c then Some (0%Q, 0, 0) else None).
Proof.
  unfold boot. destruct (run c) as [procs [e|u]]; [discriminate|].
  intros H. injection H as <-. repeat split.
Qed.

Lemma poolless_run (c : FastClient) (start_ : Q) (w0 : world)
      (sched : list action) :
  boot c start_ = Some w0 ->
  _pools c = [] ->
  controllers (execs (config_of c) sched w0) = []
  /\ requests (execs (config_of c) sched w0) = _requests c
  /\ log (execs (config_of c) sched w0) = []
  /\ store (execs (config_of c) sched w0) = _store c
  /\ unfinished_tasks (execs (config_of c) sched w0)
     = Z.of_nat (length (_requests c))
  /\ (_requests c <> [] ->
      ticket_manager (execs (config_of c) sched w0) = true).
Proof.
  intros Hb Hp.
  destruct (boot_controllers _ _ _ Hb) as (B1 & B2 & B3 & B4 & B5).
  destruct (boot_store _ _ _ Hb) as (B6 & _).
  rewrite Hp in B5. simpl in B5.
  apply (execs_keeps (config_of c)
           (fun w => controllers w = []
                     /\ requests w = _requests c
                     /\ log w = []
                     /\ store w = _store c
                     /\ unfinished_tasks w = Z.of_nat (length (_requests c))
                     /\ (_requests c <> [] -> ticket_manager w = true)));
    [|repeat split; auto].
  clear. intros a w (H1 & H2 & H3 & H4 & H5 & H6).
  destruct a; simpl.
  - destruct (ticket_manager w) eqn:Etm; simpl; rewrite ?H1, ?Etm;
      repeat split; auto.
  - rewrite H1. simpl. repeat split; auto.
  - rewrite H1. simpl. repeat split; auto.
  - destruct (rps_pipe w); [repeat split; auto|].
    destruct (rps_counter w); [|repeat split; auto].
    destruct (Telemetry.step time_ s); simpl; repeat split; auto.
  - destruct (unfinished_tasks w =? 0) eqn:E; [|repeat split; auto].
    simpl. repeat split; auto.
    intros Hne. apply Z.eqb_eq in E. rewrite H5 in E.
    destruct (_requests c); [congruence|simpl in E; lia].
  - destruct (negb (ticket_manager w) && forallb stopped (controllers w));
      simpl; repeat split; auto.
Qed.

(** X7. A client without pools has no controller.  Whatever is scheduled,
    nothing is taken from its queue and no listener is called; and if a
    request was staged, the queue's [join] never returns, so the ticket
    manager is never stopped and [run] never gets past its wait. *)
Theorem run_without_pools_never_returns (c : FastClient) (start_ : Q)
        (w0 : world) (sched : list action) :
  boot c start_ = Some w0 ->
  _pools c = [] ->
  controllers (execs (config_of c) sched w0) = []
  /\ requests (execs (config_of c) sched w0) = _requests c
  /\ log (execs (config_of c) sched w0) = []
  /\ (_requests c <> [] ->
      ticket_manager (execs (config_of c) sched w0) = true
      /\ exec (config_of c) JoinQueue (execs (config_of c) sched w0)
         = execs (config_of c) sched w0).
Proof.
  intros Hb Hp.
  destruct (poolless_run c start_ w0 sched Hb Hp)
    as (H1 & H2 & H3 & _ & H5 & H6).
  split; [exact H1|]. split; [exact H2|]. split; [exact H3|].
  intros Hne. split; [exact (H6 Hne)|].
  simpl. rewrite H5.
  destruct (_requests c) as [|r q]; [congruence|]. reflexivity.
Qed.

Lemma run_without_pools_never_returns_witness :
  exists w0,
    boot poolless_client 0 = Some w0
    /\ requests (execs (config_of poolless_client)
                       [Tick; Step 0; JoinQueue; JoinControllers] w0)
       = [{| req_payload := "a" |}]
    /\ ticket_manager (execs (config_of poolless_client)
                             [Tick; Step 0; JoinQueue; JoinControllers] w0)
       = true.
Proof.
  eexists. split; [reflexivity|].
  destruct (run_without_pools_never_returns
              poolless_client 0 _
              [Tick; Step 0; JoinQueue; JoinControllers]
              eq_refl eq_refl) as (_ & H2 & _ & H4).
  split; [exact H2|]. apply H4. discriminate.
Defined.

Lemma exec_taken (cfg : config) (a : action) (w : world) :
  exists taken, requests w = taken ++ requests (exec cfg a w).
Proof.
  destruct a; simpl.
  - exists []. destruct (ticket_manager w); reflexivity.
  - destruct (controllers w !! k) as [c|] eqn:Hk; [|exists []; reflexivity].
    destruct (step_effect cfg k c w Hk) as (c' & bs & taken & _ & _ & H & _).
    exists taken. exact H.
  - exists []. reflexivity.
  - exists []. destruct (rps_pipe w); [reflexivity|].
    destruct (rps_counter w); [|reflexivity].
    destruct (Telemetry.step time_ s); reflexivity.
  - exists []. destruct (unfinished_tasks w =? 0); reflexivity.
  - exists [].
    destruct (negb (ticket_manager w) && forallb stopped (controllers w));
      reflexivity.
Qed.

Lemma execs_taken (cfg : config) (sched : list action) :
  forall w, exists taken, requests w = taken ++ requests (execs cfg sched w).
Proof.
  induction sched as [|a sched IH]; intros w; simpl.
  - exists []. reflexivity.
  - destruct (exec_taken cfg a w) as [t1 H1].
    destruct (IH (exec cfg a w)) as [t2 H2].
    exists (t1 ++ t2). rewrite <- app_assoc, <- H2. exact H1.
Qed.

Lemma stage_all_requests (rs : list Request) :
  forall c : FastClient,
    _requests (stage_all rs c) = _requests c ++ rs
    /\ _pools (stage_all rs c) = _pools c.
Proof.
  induction rs as [|r rs IH]; intros c.
  - simpl. rewrite app_nil_r. split; reflexivity.
  - change (stage_all (r :: rs) c) with (stage_all rs (request r c)).
    destruct (IH (request r c)) as [H1 H2]. rewrite H1, H2. simpl.
    rewrite <- app_assoc. split; reflexivity.
Qed.

(** X8. The queue is served in staging order: after
    [client.request(r1); client.request(r2); ...] and at every moment of the
    run, what is still queued is the list of staged requests without its
    first few, and those first few are exactly the requests that are in a
    pool or have been delivered. *)
Theorem queue_served_in_staging_order
        (c0 : FastClient) (rs : list Request) (start_ : Q) (w0 : world)
        (sched : list action) :
  boot (stage_all rs c0) start_ = Some w0 ->
  _pools c0 <> [] ->
  exists taken : list Request,
    _requests c0 ++ rs
    = taken ++ requests (execs (config_of (stage_all rs c0)) sched w0)
    /\ taken ≡ₚ in_pools (execs (config_of (stage_all rs c0)) sched w0)
                ++ delivered (execs (config_of (stage_all rs c0)) sched w0).
Proof.
  intros Hb Hp.
  destruct (stage_all_requests rs c0) as [Hrs Hps].
  destruct (boot_controllers _ _ _ Hb) as (B1 & _).
  destruct (execs_taken (config_of (stage_all rs c0)) sched w0)
    as [taken Ht].
  exists taken. rewrite <- Hrs, <- B1. split; [exact Ht|].
  assert (Hinv : invariant (config_of (stage_all rs c0))
                           (_requests (stage_all rs c0))
                           (execs (config_of (stage_all rs c0)) sched w0)).
  { apply execs_invariant, (boot_invariant _ start_); [exact Hb|].
    rewrite Hps. exact Hp. }
  destruct Hinv as [Hi _ _ _ _ _].
  rewrite <- B1, Ht in Hi.
  apply (Permutation_app_inv_l
           (requests (execs (config_of (stage_all rs c0)) sched w0))).
  rewrite <- Hi. apply Permutation_app_comm.
Qed.

Lemma queue_served_in_staging_order_witness :
  exists (w0 : world) (taken : list Request),
    boot (stage_all [{| req_payload := "a" |}; {| req_payload := "b" |}]
                    (on RESPONSE count_cb client_on)) 0 = Some w0
    /\ [{| req_payload := "a" |}; {| req_payload := "b" |}]
       = taken
           ++ requests
                (execs (config_of
                          (stage_all [{| req_payload := "a" |};
                                      {| req_payload := "b" |}]
                                     (on RESPONSE count_cb client_on)))
                       [Tick; Step 0; Step 0] w0).
Proof.
  eexists.
  destruct (queue_served_in_staging_order
              (on RESPONSE count_cb client_on)
              [{| req_payload := "a" |}; {| req_payload := "b" |}]
              0 _ [Tick; Step 0; Step 0] eq_refl)
    as (taken & H & _); [discriminate|].
  exists taken. split; [reflexivity|exact H].
Defined.

Lemma others_batches (k k' : nat) (bs : list batch) :
  Forall (fun b => b_controller b = k') bs -> k' <> k ->
  List.filter (fun b => Nat.eqb (b_controller b) k) bs = [].
Proof.
  intros H Hne. induction H as [|b bs Hb _ IH]; [reflexivity|].
  simpl. rewrite Hb. destruct (Nat.eqb_spec k' k); [contradiction|exact IH].
Qed.

Lemma own_batches (k : nat) (bs : list batch) :
  Forall (fun b => b_controller b = k) bs ->
  List.filter (fun b => Nat.eqb (b_controller b) k) bs = bs.
Proof.
  intros H. induction H as [|b bs Hb _ IH]; [reflexivity|].
  simpl. rewrite Hb, Nat.eqb_refl, IH. reflexivity.
Qed.

Lemma exec_admissions (cfg : config) (k : nat) (a : action) (w : world) :
  (taken_by k (exec cfg a w) + tickets_of k (exec cfg a w)
   <= taken_by k w + tickets_of k w
      + match a with Tick => 1 | _ => 0 end)%nat.
Proof.
  unfold taken_by, tickets_of, delivered_by. destruct a; simpl.
  - destruct (ticket_manager w); simpl; [|lia].
    change (map add_ticket (controllers w))
      with (add_ticket <$> controllers w).
    rewrite list_lookup_fmap.
    destruct (controllers w !! k) as [c|]; simpl; [|lia].
    unfold controller_items. simpl. lia.
  - destruct (controllers w !! k0) as [c|] eqn:Hk; [|lia].
    destruct (step_effect cfg k0 c w Hk)
      as (c' & bs & taken & Hcs & Hlog & _ & _ & _ & _ & _ & Hbs & _
          & Hlen & _).
    rewrite Hcs, Hlog, List.filter_app, length_app.
    assert (Hown : Forall (fun b => b_controller b = k0) bs)
      by (eapply Forall_impl; [exact Hbs|intros b [Hb _]; exact Hb]).
    destruct (decide (k0 = k)) as [->|Hne].
    + rewrite list_lookup_insert_eq by (eapply lookup_lt_Some; exact Hk).
      rewrite Hk, (own_batches _ _ Hown). lia.
    + rewrite list_lookup_insert_ne by exact Hne.
      rewrite (others_batches _ _ _ Hown Hne). simpl. lia.
  - destruct (decide (k0 = k)) as [->|Hne].
    + rewrite list_lookup_alter_eq.
      destruct (controllers w !! k) as [c|]; simpl; [|lia].
      destruct (finish_in_spec p i o c) as (Hperm & _).
      apply Permutation_length in Hperm. rewrite Hperm. lia.
    + rewrite list_lookup_alter_ne by exact Hne. lia.
  - destruct (rps_pipe w); [lia|].
    destruct (rps_counter w); [|lia].
    destruct (Telemetry.step time_ s); simpl; lia.
  - destruct (unfinished_tasks w =? 0); simpl; lia.
  - destruct (negb (ticket_manager w) && forallb stopped (controllers w));
      simpl; lia.
Qed.

Lemma boot_idle (c : FastClient) (start_ : Q) (w0 : world) :
  boot c start_ = Some w0 ->
  log w0 = []
  /\ Forall (fun ctl => controller_items ctl = [] /\ tickets ctl = O
                        /\ counter ctl = 0 /\ at_ ctl = AtCheck)
            (controllers w0).
Proof.
  intros Hb. destruct (boot_controllers _ _ _ Hb) as (_ & _ & _ & B4 & B5).
  split; [exact B4|]. rewrite B5. apply Forall_app. split.
  - apply Forall_forall. intros x Hx.
    apply list_elem_of_In, in_map_iff in Hx as (p & <- & _).
    destruct (idle_controller_items (_num_pools c) (_max_connections c) [p])
      as (H & _).
    repeat split; try exact H.
  - apply Forall_forall. intros x Hx.
    apply list_elem_of_In, in_map_iff in Hx as (g & <- & _).
    destruct (idle_controller_items (_num_pools c) (_max_connections c)
                                    (snd g)) as (H & _).
    repeat split; try exact H.
Qed.

(** X9. The rate limit on admissions: however the processes are
    scheduled, a controller has taken from the queue no more requests than
    the ticket manager has made rounds; more precisely, the requests it has
    taken and the tickets still waiting in its pipe together number at most
    the rounds. *)
Theorem admissions_within_ticket_rounds
        (c : FastClient) (start_ : Q) (w0 : world) (sched : list action)
        (k : nat) :
  boot c start_ = Some w0 ->
  (taken_by k (execs (config_of c) sched w0)
   + tickets_of k (execs (config_of c) sched w0)
   <= rounds sched)%nat.
Proof.
  intros Hb.
  assert (H0 : (taken_by k w0 + tickets_of k w0 = 0)%nat).
  { destruct (boot_idle _ _ _ Hb) as [Hlog Hcs].
    unfold taken_by, tickets_of, delivered_by. rewrite Hlog. simpl.
    destruct (controllers w0 !! k) as [ctl|] eqn:Hk; [|reflexivity].
    destruct (Forall_lookup_1 _ _ _ _ Hcs Hk) as (H1 & H2 & _).
    rewrite H1, H2. reflexivity. }
  assert (Hgen : forall w,
             (taken_by k (execs (config_of c) sched w)
              + tickets_of k (execs (config_of c) sched w)
              <= taken_by k w + tickets_of k w + rounds sched)%nat).
  { clear. induction sched as [|a sched IH]; intros w.
    - simpl. unfold rounds. simpl. lia.
    - change (execs (config_of c) (a :: sched) w)
        with (execs (config_of c) sched (exec (config_of c) a w)).
      pose proof (IH (exec (config_of c) a w)) as H1.
      pose proof (exec_admissions (config_of c) k a w) as H2.
      assert (H3 : rounds (a :: sched)
                   = (match a with Tick => 1 | _ => 0 end
                      + rounds sched)%nat)
        by (destruct a; reflexivity).
      rewrite H3. lia. }
  specialize (Hgen w0). lia.
Qed.

Lemma admissions_within_ticket_rounds_witness :
  exists w0,
    boot staged_client 0 = Some w0
    /\ (taken_by 0 (execs (config_of staged_client)
                          [Tick; Step 0; Step 0; Step 0; Step 0; Step 0] w0)
        + tickets_of 0 (execs (config_of staged_client)
                              [Tick; Step 0; Step 0; Step 0; Step 0; Step 0]
                              w0)
        <= 1)%nat.
Proof.
  eexists. split; [reflexivity|].
  apply (admissions_within_ticket_rounds
           staged_client 0 _
           [Tick; Step 0; Step 0; Step 0; Step 0; Step 0] 0).
  reflexivity.
Defined.

Lemma exec_exited (cfg : config) (k : nat) (a : action) (w : world)
      (c : controller) :
  controllers w !! k = Some c -> at_ c = Exited ->
  exists c',
    controllers (exec cfg a w) !! k = Some c'
    /\ at_ c' = Exited
    /\ delivered_by k (exec cfg a w) = delivered_by k w.
Proof.
  intros Hk Hat. unfold delivered_by. destruct a; simpl.
  - destruct (ticket_manager w); simpl; [|exists c; auto].
    change (map add_ticket (controllers w))
      with (add_ticket <$> controllers w).
    rewrite list_lookup_fmap, Hk. simpl. eexists. split; [reflexivity|].
    split; [exact Hat|reflexivity].
  - destruct (controllers w !! k0) as [c0|] eqn:Hk0; [|exists c; auto].
    destruct (step_effect cfg k0 c0 w Hk0)
      as (c' & bs & taken & Hcs & Hlog & _ & _ & _ & _ & _ & Hbs & _
          & _ & Hstop).
    rewrite Hcs, Hlog, List.filter_app.
    assert (Hown : Forall (fun b => b_controller b = k0) bs)
      by (eapply Forall_impl; [exact Hbs|intros b [Hb _]; exact Hb]).
    destruct (decide (k0 = k)) as [->|Hne].
    + rewrite Hk in Hk0. injection Hk0 as <-.
      destruct Hstop as [-> ->]; [unfold stopped; rewrite Hat; reflexivity|].
      rewrite list_lookup_insert_eq by (eapply lookup_lt_Some; exact Hk).
      exists c. rewrite app_nil_r. auto.
    + rewrite list_lookup_insert_ne by exact Hne.
      rewrite (others_batches _ _ _ Hown Hne), app_nil_r.
      exists c. auto.
  - destruct (decide (k0 = k)) as [->|Hne].
    + rewrite list_lookup_alter_eq, Hk. simpl. eexists.
      split; [reflexivity|]. split; [exact Hat|reflexivity].
    + rewrite list_lookup_alter_ne by exact Hne. exists c. auto.
  - destruct (rps_pipe w); [exists c; auto|].
    destruct (rps_counter w); [|exists c; auto].
    destruct (Telemetry.step time_ s); simpl; exists c; auto.
  - destruct (unfinished_tasks w =? 0); simpl; exists c; auto.
  - destruct (negb (ticket_manager w) && forallb stopped (controllers w));
      simpl; exists c; auto.
Qed.

(** X10. Leaving the loop is final: once a controller has taken its
    [break], it stays out of the loop whatever is scheduled afterwards, and
    it calls no listener any more. *)
Theorem exited_controller_stays_silent
        (cfg : config) (k : nat) (sched : list action) :
  forall (w : world) (c : controller),
    controllers w !! k = Some c ->
    at_ c = Exited ->
    exists c',
      controllers (execs cfg sched w) !! k = Some c'
      /\ at_ c' = Exited
      /\ delivered_by k (execs cfg sched w) = delivered_by k w.
Proof.
  induction sched as [|a sched IH]; intros w c Hk Hat.
  - exists c. auto.
  - destruct (exec_exited cfg k a w c Hk Hat) as (c1 & H1 & H2 & H3).
    destruct (IH _ _ H1 H2) as (c2 & H4 & H5 & H6).
    exists c2. split; [exact H4|]. split; [exact H5|].
    simpl. rewrite H6. exact H3.
Qed.

Lemma exited_controller_stays_silent_witness :
  exists c',
    controllers (execs (config_of staged_client)
                       [Tick; Step 0; Finish 0 0 0 response; Step 0]
                       done_world) !! 0%nat = Some c'
    /\ at_ c' = Exited
    /\ delivered_by 0 (execs (config_of staged_client)
                             [Tick; Step 0; Finish 0 0 0 response; Step 0]
                             done_world)
       = delivered_by 0 done_world.
Proof.
  apply (exited_controller_stays_silent
           (config_of staged_client) 0
           [Tick; Step 0; Finish 0 0 0 response; Step 0] done_world
           (Ctl [_setup 8 10 {| id_ := None; pool_name := "a" |}]
                0 O Exited)).
  - reflexivity.
  - reflexivity.
Defined.

Lemma exec_sound (cfg : config) (a : action) (w : world) :
  Forall (sound_batch cfg) (log w) ->
  Forall (sound_batch cfg) (log (exec cfg a w))
  /\ (use_store cfg = false -> store (exec cfg a w) = store w).
Proof.
  intros Hl. destruct a; simpl.
  - destruct (ticket_manager w); auto.
  - destruct (controllers w !! k) as [c|] eqn:Hk; [|auto].
    destruct (step_effect cfg k c w Hk)
      as (c' & bs & taken & _ & Hlog & _ & _ & _ & _ & _ & Hbs & Hst & _).
    rewrite Hlog. split; [|exact Hst].
    apply Forall_app. split; [exact Hl|].
    eapply Forall_impl; [exact Hbs|]. intros b [_ Hb]. exact Hb.
  - auto.
  - destruct (rps_pipe w); [auto|].
    destruct (rps_counter w); [|auto].
    destruct (Telemetry.step time_ s); simpl; auto.
  - destruct (unfinished_tasks w =? 0); simpl; auto.
  - destruct (negb (ticket_manager w) && forallb stopped (controllers w));
      simpl; auto.
Qed.

Lemma execs_sound (cfg : config) (sched : list action) :
  forall w,
    Forall (sound_batch cfg) (log w) ->
    Forall (sound_batch cfg) (log (execs cfg sched w))
    /\ (use_store cfg = false -> store (execs cfg sched w) = store w).
Proof.
  induction sched as [|a sched IH]; intros w Hl; [auto|].
  destruct (exec_sound cfg a w Hl) as [H1 H2].
  destruct (IH _ H1) as [H3 H4].
  split; [exact H3|]. intros Hs. simpl. rewrite (H4 Hs). exact (H2 Hs).
Qed.



(** X12. A client built with [use_store=False] has no store in its run
    either: the store stays what it was, and no delivery acquires the lock,
    reads or writes, whatever listeners are registered. *)
Theorem without_store_no_store_access
        (c : FastClient) (start_ : Q) (w0 : world) (sched : list action) :
  boot c start_ = Some w0 ->
  _use_store c = false ->
  store (execs (config_of c) sched w0) = _store c
  /\ Forall (fun b => touches_store (b_trace b) = false)
            (log (execs (config_of c) sched w0)).
Proof.
  intros Hb Hs. destruct (boot_idle _ _ _ Hb) as [Hlog _].
  destruct (boot_store _ _ _ Hb) as [Hst _].
  destruct (execs_sound (config_of c) sched w0) as [H1 H2].
  { rewrite Hlog. constructor. }
  split.
  - rewrite <- Hst. apply H2. exact Hs.
  - eapply Forall_impl; [exact H1|]. intros b [_ Hq]. apply Hq. exact Hs.
Qed.

Lemma without_store_no_store_access_witness :
  exists w0,
    boot storeless_client 0 = Some w0
    /\ length (log (execs (config_of storeless_client) one_delivery w0))
       = 1%nat
    /\ store (execs (config_of storeless_client) one_delivery w0) = None
    /\ Forall (fun b => touches_store (b_trace b) = false)
              (log (execs (config_of storeless_client) one_delivery w0)).
Proof.
  eexists. split; [reflexivity|]. split; [reflexivity|].
  apply (without_store_no_store_access storeless_client 0);
    reflexivity.
Defined.

Lemma step_count (time_ : Q) (s s' : Telemetry.state) :
  Telemetry.step time_ s = Some s' ->
  Telemetry.count s' = Telemetry.count s + 1.
Proof.
  unfold Telemetry.step.
  destruct (Telemetry.move_lists1 _ _ _) as [l1 l9].
  destruct (Qeq_bool _ _); [discriminate|].
  intros H. injection H as <-. reflexivity.
Qed.

Lemma exec_counted (cfg : config) (a : action) (w : world) :
  (forall s, rps_counter w = Some s ->
             Z.of_nat (rps_pipe w) + Telemetry.count s
             = (if use_rps cfg then Z.of_nat (length (log w)) else 0)
             /\ rps_values w
                = Some (Telemetry.rps s, Telemetry.rps10 s, Telemetry.rps1 s)) ->
  forall s, rps_counter (exec cfg a w) = Some s ->
            Z.of_nat (rps_pipe (exec cfg a w)) + Telemetry.count s
            = (if use_rps cfg then Z.of_nat (length (log (exec cfg a w)))
               else 0)
            /\ rps_values (exec cfg a w)
               = Some (Telemetry.rps s, Telemetry.rps10 s, Telemetry.rps1 s).
Proof.
  intros H. destruct a; simpl.
  - destruct (ticket_manager w); exact H.
  - destruct (controllers w !! k) as [c|] eqn:Hk; [|exact H].
    destruct (step_effect cfg k c w Hk)
      as (c' & bs & taken & _ & Hlog & _ & _ & Hc & Hv & Hp & _).
    rewrite Hlog, Hc, Hv, Hp, length_app. intros s Hs.
    destruct (H s Hs) as [H1 H2]. split; [|exact H2].
    destruct (use_rps cfg); lia.
  - exact H.
  - destruct (rps_pipe w) as [|n] eqn:Hn; [rewrite Hn; exact H|].
    destruct (rps_counter w) as [s0|] eqn:Hc; [|rewrite Hn, Hc; exact H].
    destruct (H s0 eq_refl) as [H1 H2].
    destruct (Telemetry.step time_ s0) as [s1|] eqn:Hs; simpl.
    + intros s E. injection E as <-. split; [|reflexivity].
      rewrite (step_count _ _ _ Hs). lia.
    + discriminate.
  - destruct (unfinished_tasks w =? 0); exact H.
  - destruct (negb (ticket_manager w) && forallb stopped (controllers w));
      [simpl; discriminate|exact H].
Qed.



Lemma controller_items_length (c : controller) :
  length (controller_items c) = (inflight_count c + feed_count c)%nat.
Proof.
  unfold controller_items, inflight_count, feed_count.
  induction (pools c) as [|p ps IH]; [reflexivity|].
  simpl. rewrite length_app, IH. unfold pool_items.
  rewrite length_app, length_map. lia.
Qed.



(** X15. The queue's count of unfinished tasks is always the number of
    requests still queued, so that [requests.join()] returns, and [run]
    stops the ticket manager, only once every staged request has been
    handed to a pool. *)
Theorem tickets_stop_after_last_admission
        (c : FastClient) (start_ : Q) (w0 : world) (sched : list action) :
  boot c start_ = Some w0 ->
  unfinished_tasks (execs (config_of c) sched w0)
  = Z.of_nat (length (requests (execs (config_of c) sched w0)))
  /\ (ticket_manager (execs (config_of c) sched w0) = false ->
      requests (execs (config_of c) sched w0) = []).
Proof.
  intros Hb. destruct (_pools c) as [|p ps] eqn:Hp.
  - destruct (poolless_run c start_ w0 sched Hb Hp)
      as (_ & H2 & _ & _ & H5 & H6).
    rewrite H2, H5. split; [reflexivity|].
    intros Ht. destruct (_requests c) as [|r q]; [reflexivity|].
    rewrite H6 in Ht by discriminate. discriminate.
  - assert (Hinv : invariant (config_of c) (_requests c)
                             (execs (config_of c) sched w0)).
    { apply execs_invariant, (boot_invariant _ start_); [exact Hb|].
      rewrite Hp. discriminate. }
    destruct Hinv as [_ _ _ Hu Ht _]. split; assumption.
Qed.

Lemma tickets_stop_after_last_admission_witness :
  exists w0,
    boot staged_client 0 = Some w0
    /\ unfinished_tasks (execs (config_of staged_client)
                               (one_delivery ++ [JoinQueue]) w0) = 1
    /\ ticket_manager (execs (config_of staged_client)
                             (one_delivery ++ [JoinQueue]) w0) = true.
Proof.
  eexists. split; [reflexivity|].
  destruct (tickets_stop_after_last_admission
              staged_client 0 _ (one_delivery ++ [JoinQueue]) eq_refl)
    as [H1 H2].
  split; [rewrite H1; reflexivity|].
  destruct (ticket_manager _) eqn:E; [reflexivity|].
  specialize (H2 eq_refl). discriminate.
Defined.

End RunFacts.

(** * Further properties of the counter and of the ticket manager *)

Section CounterLoop.
Import Py Telemetry Usage Examples.
Local Open Scope Q_scope.

Lemma steps_snoc (times : list Q) (t : Q) :
  forall s0,
    steps (times ++ [t]) s0
    = match steps times s0 with
      | Some s => step t s
      | None => None
      end.
Proof.
  induction times as [|x rest IH]; intros s0; simpl.
  - destruct (step t s0); reflexivity.
  - destruct (step x s0) as [s1|]; [apply IH|reflexivity].
Qed.

Lemma step_fields (time_ : Q) (s s' : state) :
  step time_ s = Some s' ->
  ~ time_ == start s
  /\ start s' = start s
  /\ count s' = (count s + 1)%Z
  /\ rps s' = inject_Z (count s') / (time_ - start s)
  /\ list1 s' = fst (move_lists1 time_ (list1 s ++ [time_]) (list9 s))
  /\ rps1 s' = Z.of_nat (length (list1 s')).
Proof.
  unfold step.
  destruct (move_lists1 time_ (list1 s ++ [time_]) (list9 s)) as [l1 l9].
  destruct (Qeq_bool (time_ - start s) 0) eqn:E; [discriminate|].
  intros H. injection H as <-. simpl. split; [|repeat split].
  intros Heq. apply Qeq_bool_neq in E. apply E. rewrite Heq. ring.
Qed.

Lemma step_dies (time_ : Q) (s : state) :
  step time_ s = None <-> time_ == start s.
Proof.
  split.
  - unfold step.
    destruct (move_lists1 time_ (list1 s ++ [time_]) (list9 s)) as [l1 l9].
    destruct (Qeq_bool (time_ - start s) 0) eqn:E; [|discriminate].
    intros _. apply Qeq_bool_iff in E. lra.
  - intros Heq. destruct (step time_ s) as [s'|] eqn:E; [|reflexivity].
    apply step_fields in E as (Hne & _). contradiction.
Qed.

(** X16. The counter process dies, of a division by zero, exactly when the
    clock reads after some notification what it read when the process
    started; otherwise it serves every notification. *)
Theorem counter_dies_iff_clock_reads_start (start_ : Q) (times : list Q) :
  _count_rps start_ times = None <-> Exists (fun t => t == start_) times.
Proof.
  unfold _count_rps.
  assert (H : forall s0, steps times s0 = None
                         <-> Exists (fun t => t == start s0) times).
  { induction times as [|t rest IH]; intros s0; simpl.
    - split; [discriminate|]. intros H. inversion H.
    - rewrite Exists_cons. destruct (step t s0) as [s1|] eqn:E.
      + destruct (step_fields _ _ _ E) as (Hne & Hst & _).
        rewrite IH, Hst. tauto.
      + apply step_dies in E. tauto. }
  apply H.
Qed.

Lemma steps_fields (times : list Q) :
  forall s0 s,
    steps times s0 = Some s ->
    start s = start s0
    /\ count s = (count s0 + Z.of_nat (length times))%Z.
Proof.
  induction times as [|t rest IH]; intros s0 s H; simpl in H.
  - injection H as <-. split; [reflexivity|simpl; lia].
  - destruct (step t s0) as [s1|] eqn:E; [|discriminate].
    destruct (step_fields _ _ _ E) as (_ & Hst & Hc & _).
    destruct (IH _ _ H) as [H1 H2]. rewrite H1, H2, Hst, Hc.
    split; [reflexivity|]. simpl length. lia.
Qed.

(** X17. What the counter publishes as [rps] is the average over its whole
    life: after the notifications read at [pre ++ [t]] it has counted every
    one of them, and [rps] is that count divided by the time from its start
    to [t]. *)
Theorem counter_publishes_lifetime_average
        (start_ : Q) (pre : list Q) (t : Q) (s : state) :
  _count_rps start_ (pre ++ [t]) = Some s ->
  count s = Z.of_nat (length (pre ++ [t]))
  /\ rps s = inject_Z (Z.of_nat (length (pre ++ [t]))) / (t - start_)
  /\ ~ t == start_.
Proof.
  intros H.
  destruct (steps_fields _ _ _ H) as [_ Hc]. simpl in Hc.
  unfold _count_rps in H. rewrite steps_snoc in H.
  destruct (steps pre (init start_)) as [s1|] eqn:E; [|discriminate].
  destruct (steps_fields _ _ _ E) as [Hst _]. simpl in Hst.
  destruct (step_fields _ _ _ H) as (Hne & _ & _ & Hr & _).
  rewrite Hst in *. split; [exact Hc|]. split; [|exact Hne].
  rewrite Hr, Hc. reflexivity.
Qed.

Lemma counter_publishes_lifetime_average_witness :
  exists s,
    _count_rps (-1) completions = Some s
    /\ count s = 5%Z
    /\ rps s = inject_Z 5 / ((105 # 10) - (-1)).
Proof.
  eexists. split; [reflexivity|].
  destruct (counter_publishes_lifetime_average
              (-1) [0; 1 # 2; 12 # 10; 99 # 10] (105 # 10) _ eq_refl)
    as (H1 & H2 & _).
  split; [exact H1|exact H2].
Defined.

(** X18. The ten-second window never holds anything: since its loop
    compares with [time_-1] like the loop of the one-second window, what
    the counter publishes as [rps10] is at every moment the same number as
    [rps1], the size of the one-second window. *)
Theorem ten_second_window_never_fills
        (start_ : Q) (times : list Q) (s : state) :
  _count_rps start_ times = Some s ->
  list9 s = []
  /\ rps10 s = rps1 s
  /\ rps10 s = Z.of_nat (length (list1 s)).
Proof.
  intros H.
  destruct (ten_second_count_is_one_second_count _ _ _ H) as [H1 H2].
  split; [exact H1|]. split; [exact H2|]. rewrite H2.
  destruct times as [|t rest] using rev_ind.
  - injection H as <-. reflexivity.
  - unfold _count_rps in H. rewrite steps_snoc in H.
    destruct (steps rest (init start_)) as [s1|]; [|discriminate].
    apply step_fields in H as (_ & _ & _ & _ & _ & Hr). exact Hr.
Qed.

Lemma ten_second_window_never_fills_witness :
  exists s,
    _count_rps (-1) completions = Some s
    /\ list9 s = []
    /\ rps10 s = rps1 s
    /\ rps10 s = Z.of_nat (length (list1 s)).
Proof.
  eexists. split; [reflexivity|].
  apply (ten_second_window_never_fills (-1) completions). reflexivity.
Defined.

End CounterLoop.

Section RisingClock.
Import Py Telemetry Usage Examples.
Local Open Scope Q_scope.

Lemma rising_tail (x : Q) (l : list Q) : rising (x :: l) -> rising l.
Proof. destruct l as [|y l]; simpl; tauto. Qed.

Lemma rising_app_r (a b : list Q) : rising (a ++ b) -> rising b.
Proof.
  induction a as [|x a IH]; [tauto|].
  intros H. apply IH. exact (rising_tail _ _ H).
Qed.

Lemma rising_app_l (a b : list Q) : rising (a ++ b) -> rising a.
Proof.
  induction a as [|x a IH]; [simpl; tauto|].
  intros H. pose proof (rising_tail _ _ H) as Ht.
  destruct a as [|y a]; [exact I|].
  simpl in *. split; [tauto|]. apply IH. exact Ht.
Qed.

Lemma rising_last (l : list Q) (t t' : Q) :
  rising (l ++ [t']) -> last l = Some t -> t <= t'.
Proof.
  induction l as [|x l IH]; [discriminate|].
  intros H Hl. destruct l as [|y l].
  - simpl in *. injection Hl as <-. tauto.
  - apply IH; [exact (rising_tail _ _ H)|exact Hl].
Qed.

Lemma rising_head (x : Q) (l : list Q) :
  rising (x :: l) -> Forall (fun y => x <= y) l.
Proof.
  revert x. induction l as [|y l IH]; intros x H; [constructor|].
  simpl in H. destruct H as [Hxy Hr]. constructor; [exact Hxy|].
  eapply Forall_impl; [apply IH; exact Hr|].
  intros z Hz. simpl in Hz. lra.
Qed.

Lemma window_state (start_ : Q) (times : list Q) :
  forall s,
    rising times ->
    _count_rps start_ times = Some s ->
    rps1 s = Z.of_nat (length (list1 s))
    /\ exists old,
        times = old ++ list1 s
        /\ forall t, last times = Some t ->
                     Forall (fun x => x < t - 1) old
                     /\ forall x, head (list1 s) = Some x -> ~ x < t - 1.
Proof.
  induction times as [|t' times IH] using rev_ind; intros s Hr H.
  - injection H as <-. split; [reflexivity|].
    exists []. split; [reflexivity|]. discriminate.
  - unfold _count_rps in H. rewrite steps_snoc in H.
    destruct (steps times (init start_)) as [s1|] eqn:E; [|discriminate].
    destruct (IH s1 (rising_app_l _ _ Hr) E) as (_ & old & Hold & Hlast).
    destruct (step_fields _ _ _ H) as (_ & _ & _ & _ & Hl1 & Hrps).
    split; [exact Hrps|].
    destruct (move_lists1_spec t' (list1 s1 ++ [t']) (list9 s1))
      as (moved & Hm1 & _ & Hm3 & Hm4).
    rewrite <- Hl1 in Hm1, Hm4.
    exists (old ++ moved). split.
    + rewrite <- app_assoc, <- Hm1, app_assoc, <- Hold. reflexivity.
    + intros t Ht. rewrite last_snoc in Ht. injection Ht as <-.
      split; [|exact Hm4].
      apply Forall_app. split; [|exact Hm3].
      destruct (last times) as [t0|] eqn:El.
      * destruct (Hlast t0 eq_refl) as [Ho _].
        pose proof (rising_last _ _ _ Hr El) as Hle.
        eapply Forall_impl; [exact Ho|]. intros x Hx. simpl in Hx. lra.
      * apply last_None in El. subst times.
        symmetry in Hold. apply app_eq_nil in Hold as [-> _]. constructor.
Qed.

(** X19. With a clock that never runs backwards the one-second window is
    exact: after the notifications read at [times], the last of them at
    [t], the window holds precisely the readings that are not more than a
    second older than [t] (they are the last ones), every earlier reading
    is more than a second older, and [rps1] is the size of the window. *)
Theorem one_second_window_is_exact
        (start_ : Q) (times : list Q) (t : Q) (s : state) :
  rising times ->
  last times = Some t ->
  _count_rps start_ times = Some s ->
  exists old,
    times = old ++ list1 s
    /\ Forall (fun x => x < t - 1) old
    /\ Forall (fun x => ~ x < t - 1) (list1 s)
    /\ rps1 s = Z.of_nat (length (list1 s)).
Proof.
  intros Hr Hl H.
  destruct (window_state start_ times s Hr H) as (Hrps & old & Hold & Hw).
  destruct (Hw t Hl) as [Ho Hh].
  exists old. split; [exact Hold|]. split; [exact Ho|]. split; [|exact Hrps].
  rewrite Hold in Hr. apply rising_app_r in Hr.
  destruct (list1 s) as [|x l]; [constructor|].
  specialize (Hh x eq_refl). constructor; [exact Hh|].
  eapply Forall_impl; [exact (rising_head _ _ Hr)|].
  intros y Hy. simpl in Hy. lra.
Qed.

Lemma one_second_window_is_exact_witness :
  exists s old,
    _count_rps (-1) completions = Some s
    /\ completions = old ++ list1 s
    /\ Forall (fun x => x < (105 # 10) - 1) old
    /\ Forall (fun x => ~ x < (105 # 10) - 1) (list1 s)
    /\ rps1 s = Z.of_nat (length (list1 s)).
Proof.
  eexists.
  pose proof (fun Hr => one_second_window_is_exact
                          (-1) completions (105 # 10) _ Hr eq_refl eq_refl)
    as H.
  destruct H as (old & H).
  - simpl. repeat split; unfold Qle; simpl; lia.
  - exists old. split; [reflexivity|exact H].
Defined.

End RisingClock.

Section TicketEdge.
Import Py TicketGen TicketProps Usage Examples.
Local Open Scope Q_scope.

(** X20. The ticket manager dies, of a division by zero, exactly when the
    rate is zero, and then on its very first pass; with any other rate it
    survives every pass. *)
Theorem ticket_manager_dies_iff_rate_zero
        (rate : Q) (n : nat) (times : list Q) :
  _create_tickets rate n times = None <-> rate == 0 /\ times <> [].
Proof.
  unfold _create_tickets. split.
  - intros H. destruct (Qeq_dec rate 0) as [Hz|Hnz].
    + split; [exact Hz|]. intros ->. discriminate.
    + destruct (passes_round_state rate n times Hnz (init n) []
                  (init_round_state rate n)) as (s & e & Hs & _).
      rewrite Hs in H. discriminate.
  - intros [Hz Hne]. destruct times as [|t rest]; [contradiction|].
    simpl. unfold pass.
    apply Qeq_bool_iff in Hz. rewrite Hz. reflexivity.
Qed.

Lemma negative_rate_pass (rate time_ : Q) (s : state) :
  rate < 0 -> last_tickets s <= time_ ->
  pass rate time_ s
  = Some {| last_tickets := time_;
            connections := send_all time_ (connections s) |}.
Proof.
  intros Hr Hle. unfold pass.
  destruct (Qeq_bool rate 0) eqn:E.
  { apply Qeq_bool_iff in E. lra. }
  assert (Hinv : 1 / rate < 0).
  { assert (H1 : 0 < 1 / (- rate)) by (apply Qlt_shift_div_l; lra).
    assert (H2 : 1 / rate == - (1 / (- rate))) by (field; lra).
    lra. }
  assert (Hlt : Qltb (1 / rate) (time_ - last_tickets s) = true)
    by (apply Qltb_lt; lra).
  rewrite Hlt. reflexivity.
Qed.

Lemma negative_rate_passes (rate : Q) (n : nat) (times : list Q) :
  rate < 0 ->
  forall (s : state) (e : list Q),
    connections s = replicate n e ->
    rising (last_tickets s :: times) ->
    passes rate times s
    = Some {| last_tickets := default (last_tickets s) (last times);
              connections := replicate n (e ++ times) |}.
Proof.
  intros Hr. induction times as [|t rest IH]; intros s e Hc Hrise.
  - simpl. rewrite app_nil_r, <- Hc. destruct s; reflexivity.
  - assert (Hle : last_tickets s <= t) by (simpl in Hrise; tauto).
    simpl passes. rewrite (negative_rate_pass _ _ _ Hr Hle).
    rewrite (IH _ (e ++ [t])).
    + simpl last_tickets. rewrite <- app_assoc. simpl.
      f_equal. f_equal. destruct rest as [|q rest]; [reflexivity|].
      change (last (t :: q :: rest)) with (last (q :: rest)).
      destruct (last (q :: rest)) eqn:El; [reflexivity|].
      apply last_None in El. discriminate.
    + simpl. rewrite Hc. unfold send_all.
      apply (fmap_replicate (fun c : list Q => c ++ [t])%list n e).
    + simpl last_tickets. simpl in Hrise. destruct rest; simpl in *; tauto.
Qed.

(** X21. A negative rate switches the limit off: as long as the clock
    reads non-negative times that never run backwards, the manager sends a
    round of tickets on every single pass. *)
Theorem negative_rate_sends_on_every_pass
        (rate : Q) (n : nat) (times : list Q) :
  rate < 0 ->
  rising (0 :: times) ->
  exists s,
    _create_tickets rate n times = Some s
    /\ connections s = replicate n times
    /\ total_tickets s = (n * length times)%nat.
Proof.
  intros Hr Hrise. unfold _create_tickets.
  rewrite (negative_rate_passes rate n times Hr (init n) []);
    [|reflexivity|exact Hrise].
  eexists. split; [reflexivity|]. split; [reflexivity|].
  unfold total_tickets. simpl. apply total_tickets_replicate.
Qed.

Lemma negative_rate_sends_on_every_pass_witness :
  exists s,
    _create_tickets (-1) 2 passes_5s = Some s
    /\ connections s = replicate 2 passes_5s
    /\ total_tickets s = (2 * length passes_5s)%nat.
Proof.
  apply (negative_rate_sends_on_every_pass (-1) 2 passes_5s).
  - reflexivity.
  - simpl. repeat split; unfold Qle; simpl; lia.
Defined.

End TicketEdge.
